(** * MTL-Tools: the translation pipeline of [translate.py]

    A shallow embedding of [TranslationPipeline]: dictionary
    preprocessing, the Japanese-script check, the context window, the
    remote client with its retry loop, single-unit and batched
    translation, the two collection passes over a record set, the second
    (escalation) pass and the "Monologue" cleanup.

    Python [str] values are lists of Unicode code points.  Stateful
    methods are functions in a state-and-exception monad whose state
    carries the events of the run (requests, sleeps, slot assignments);
    the remote service is an arbitrary function from the events so far
    and the request to its outcome. *)

From Stdlib Require Import ZArith NArith QArith List String Ascii Lia.
From stdpp Require Import base list.

Set Default Proof Using "Type".

(** ** Strings *)

(** A character is its code point ([ord]); a [str] is the list of them. *)
Abbreviation char := N (only parsing).
Abbreviation str := (list N) (only parsing).

(** ASCII literals of the source, as code points. *)
Definition lit (s : string) : str :=
  map N_of_ascii (list_ascii_of_string s).

Arguments lit : simpl never.

Definition nl : N := 10%N.

Definition str_eqb (a b : str) : bool := bool_decide (a = b).

(** Python truthiness of a list: non-empty. *)
Definition truthy_list {A} (l : list A) : bool :=
  match l with [] => false | _ :: _ => true end.

(** Python truthiness of a string: non-empty. *)
Definition truthy (s : str) : bool :=
  match s with [] => false | _ :: _ => true end.

(** The part of the Unicode character database the pipeline consults:
    [str.isspace] (used by [str.strip] and by the regex class [\s]),
    the decimal digits (regex class [\d]) and [str.lower].  On ASCII the
    tables are fixed, elsewhere they are those of the running
    interpreter. *)
Definition ascii_space (c : N) : bool :=
  ((9 <=? c) && (c <=? 13) || (28 <=? c) && (c <=? 32))%N.

Definition ascii_decimal (c : N) : bool :=
  ((48 <=? c) && (c <=? 57))%N.

Definition ascii_lower (c : N) : N :=
  if ((65 <=? c) && (c <=? 90))%N then (c + 32)%N else c.

Definition is_ascii (c : N) : Prop := (c < 128)%N.

Class UnicodeDB := {
  isspace : N -> bool;
  isdecimal : N -> bool;
  lower : str -> str;
  isspace_ascii : forall c, is_ascii c -> isspace c = ascii_space c;
  isdecimal_ascii : forall c, is_ascii c -> isdecimal c = ascii_decimal c;
  lower_ascii : forall s, Forall is_ascii s -> lower s = map ascii_lower s
}.

(** The database restricted to ASCII: nothing above U+007F is a space or
    a digit, and only A-Z change case. *)
#[export] Instance ascii_db : UnicodeDB := {|
  isspace c := ascii_space c;
  isdecimal c := ascii_decimal c;
  lower s := map ascii_lower s;
  isspace_ascii _ _ := eq_refl;
  isdecimal_ascii _ _ := eq_refl;
  lower_ascii _ _ := eq_refl
|}.

Section Strings.
Context {U : UnicodeDB}.

(** [s.lstrip()], [s.rstrip()] and [s.strip()]. *)
Fixpoint lstrip (s : str) : str :=
  match s with
  | c :: s' => if isspace c then lstrip s' else s
  | [] => []
  end.

Definition rstrip (s : str) : str := rev (lstrip (rev s)).

Definition strip (s : str) : str := rstrip (lstrip s).

(** [s.split('\n')]: one piece more than there are line feeds. *)
Fixpoint split_nl (s : str) : list str :=
  match s with
  | [] => [[]]
  | c :: s' =>
      if (c =? nl)%N then [] :: split_nl s'
      else match split_nl s' with
           | l :: ls => (c :: l) :: ls
           | [] => [[c]]
           end
  end.

(** The longest prefix of [s] whose characters satisfy [p], and the rest. *)
Fixpoint span (p : N -> bool) (s : str) : str * str :=
  match s with
  | c :: s' =>
      if p c then let (a, b) := span p s' in (c :: a, b) else ([], s)
  | [] => ([], [])
  end.

Definition is_sep (c : N) : bool :=
  ((c =? 46) || (c =? 41) || (c =? 58))%N.

(** [re.match(r'^\d+[\.\)\:]\s*(.+)$', line)] and its [group(1)], for a
    [line] without line feed (it is a piece of [split('\n')]): [\d+]
    takes every leading digit, since no separator is a digit; [\s*]
    takes every following space, and gives the last one back to [.+]
    when nothing else is left. *)
Definition re_match_numbered (line : str) : option str :=
  match span isdecimal line with
  | (_ :: _, sep :: rest) =>
      if is_sep sep then
        match span isspace rest with
        | (_, (_ :: _) as g) => Some g
        | (ws, []) =>
            match rev ws with
            | w :: _ => Some [w]
            | [] => None
            end
        end
      else None
  | _ => None
  end.

End Strings.

(** [str(n)] for a natural number, as in the f-string [f"{idx}. "]. *)
Fixpoint uint_digits (u : Decimal.uint) : str :=
  match u with
  | Decimal.Nil => []
  | Decimal.D0 u => 48%N :: uint_digits u
  | Decimal.D1 u => 49%N :: uint_digits u
  | Decimal.D2 u => 50%N :: uint_digits u
  | Decimal.D3 u => 51%N :: uint_digits u
  | Decimal.D4 u => 52%N :: uint_digits u
  | Decimal.D5 u => 53%N :: uint_digits u
  | Decimal.D6 u => 54%N :: uint_digits u
  | Decimal.D7 u => 55%N :: uint_digits u
  | Decimal.D8 u => 56%N :: uint_digits u
  | Decimal.D9 u => 57%N :: uint_digits u
  end.

Definition str_of_nat (n : nat) : str := uint_digits (Nat.to_uint n).

(** [s.startswith(p)]. *)
Fixpoint starts_with (p s : str) : bool :=
  match p, s with
  | [], _ => true
  | a :: p', b :: s' => (a =? b)%N && starts_with p' s'
  | _ :: _, [] => false
  end.

(** [s.replace(old, new)] for a non-empty [old]: scan from the left,
    replace each occurrence found and resume after it ([skip] counts the
    characters of the occurrence still to pass over). *)
Fixpoint replace_scan (old new : str) (skip : nat) (s : str) : str :=
  match s with
  | [] => []
  | c :: s' =>
      match skip with
      | S k => replace_scan old new k s'
      | O =>
          if starts_with old s
          then new ++ replace_scan old new (length old - 1) s'
          else c :: replace_scan old new 0 s'
      end
  end.

(** [s.replace(old, new)]; an empty [old] matches before every character
    and at the end. *)
Definition replace (old new s : str) : str :=
  match old with
  | [] => new ++ concat (map (fun c => c :: new) s)
  | _ :: _ => replace_scan old new 0 s
  end.

(** [preprocess_text]: the dictionary is a Python dict, iterated in
    insertion order; each entry rewrites the text left by the ones
    before it. *)
Definition preprocess_text (dictionary : list (str * str)) (text : str) : str :=
  fold_left (fun preprocessed '(jp_term, en_term) =>
               replace jp_term en_term preprocessed)
            dictionary text.

(** [contains_japanese]: Hiragana, Katakana or a CJK unified ideograph. *)
Definition japanese_char (code : N) : bool :=
  ((0x3040 <=? code) && (code <=? 0x309F)
   || (0x30A0 <=? code) && (code <=? 0x30FF)
   || (0x4E00 <=? code) && (code <=? 0x9FFF))%N.

Definition contains_japanese (text : str) : bool :=
  match text with
  | [] => false
  | _ => existsb japanese_char text
  end.

(** [l[start:stop]] with Python's treatment of negative and
    out-of-range bounds. *)
Definition slice_bound (n i : Z) : Z :=
  let i := if (i <? 0)%Z then (i + n)%Z else i in
  Z.max 0 (Z.min n i).

Definition py_slice {A} (l : list A) (start stop : Z) : list A :=
  let n := Z.of_nat (length l) in
  let a := slice_bound n start in
  let b := slice_bound n stop in
  take (Z.to_nat (b - a)) (drop (Z.to_nat a) l).

(** ** Parsing a numbered reply ([translate_batch], lines 188-206) *)

Section Reply.
Context {U : UnicodeDB}.

(** The body of the [for line in lines] loop: what one line appends. *)
Definition parse_line (line : str) : list str :=
  let line := strip line in
  if truthy line then
    match re_match_numbered line with
    | Some g => [g]
    | None => [line]
    end
  else [].

Definition parse_lines (result : str) : list str :=
  flat_map parse_line (split_nl (strip result)).

(** The [while len(translations) < len(texts)] loop; [todo] bounds its
    iterations by the number of missing entries. *)
Fixpoint pad_loop (todo : nat) (preprocessed translations : list str)
  : list str :=
  match todo with
  | O => translations
  | S k =>
      match preprocessed !! length translations with
      | Some p => pad_loop k preprocessed (translations ++ [p])
      | None => translations
      end
  end.

Definition parse_reply (n : nat) (preprocessed : list str) (result : str)
  : list str :=
  let translations := parse_lines result in
  let translations :=
    pad_loop (n - length translations) preprocessed translations in
  take n translations.

End Reply.

(** ** Data model *)

(** A JSON object is a record of optional fields: [None] is an absent
    key, which [dict.get(key, '')] reads as the empty string. *)
Record Choice := mkChoice {
  c_jpText : option str;
  c_enText : option str
}.

Record Block := mkBlock {
  blockIdx : Z;
  jpName : option str;
  enName : option str;
  jpText : option str;
  enText : option str;
  choices : option (list Choice)
}.

Definition get_str (field : option str) : str := default [] field.

(** A translation unit: its kind together with the object it writes to.
    The source keeps a reference to the block or choice dict; a record
    set is a tree, so the position of the object identifies it. *)
Inductive Target :=
| TName (block : nat)
| TText (block : nat)
| TChoice (block choice : nat).

(** An entry of [name_items], [text_items] or [choice_items]:
    [(item_type, obj, original_text, idx)], where [idx] is the block
    position already held by the target. *)
Record Item := mkItem {
  target : Target;
  original_text : str
}.

Record ContextEntry := mkEntry {
  ctx_jpName : str;
  ctx_jpText : str;
  ctx_enName : str;
  ctx_enText : str
}.

(** [config['llm_settings']] and [config['translation_settings']]: a
    key the file does not set is [None]. *)
Record LlmConfig := mkLlm {
  api_url : option str;
  api_key : option str;
  model : option str;
  system_prompt : option str;
  temperature : option Q;
  max_tokens : option Z;
  min_p : option Q;
  top_p : option Q;
  top_k : option Z
}.

Record TransConfig := mkTrans {
  retry_attempts : option Z;
  retry_delay : option Q;
  retry_on_japanese : option bool;
  use_batch_translation : option bool;
  batch_size : option Z;
  batch_delay : option Q;
  enable_two_pass : option bool;
  second_pass_model : option str;
  second_pass_temperature : option Q;
  context_lines_setting : option Z
}.

(** The JSON body and headers of one POST. *)
Record Request := mkRequest {
  rq_url : str;
  rq_api_key : str;
  rq_model : str;
  rq_system : str;
  rq_user : str;
  rq_temperature : Q;
  rq_max_tokens : Z;
  rq_min_p : Q;
  rq_top_p : option Q;
  rq_top_k : option Z
}.

(** What the [try] block of [call_llm] can meet: [requests.post] fails
    to connect or times out, [raise_for_status] rejects the status, the
    body is not the expected JSON, or the completion text arrives. *)
Inductive TransportError :=
| ConnectionError
| Timeout
| HTTPError (status : Z)
| MalformedBody.

Inductive Outcome :=
| Completion (content : str)
| Failed (e : TransportError).

Inductive exn :=
| KeyError (key : string)
| ValueError
| ZeroDivisionError
| RecursionError
| Transport (e : TransportError).

(** Effects visible outside the pipeline object. *)
Inductive Event :=
| EvRequest (rq : Request)
| EvSleep (seconds : Q)
| EvWrite (t : Target) (value : str).

(** ** The state and exception monad *)

(** The mutable part of a run: [self.llm_config] (the second pass
    assigns its model and temperature), [self.current_context], the
    record set being translated, and the events so far.  The attributes
    [trans_config], [dictionary] and [context_lines] are assigned in
    [__init__] only and are parameters below.  Console output and the
    two attributes that only gate it are left out. *)
Record State := mkState {
  llm_config : LlmConfig;
  current_context : list ContextEntry;
  data : list Block;
  trace : list Event
}.

Inductive result (A : Type) :=
| Return (a : A)
| Raise (e : exn).
Arguments Return {A} a.
Arguments Raise {A} e.

Definition M (A : Type) : Type := State -> result A * State.

Definition ret {A} (a : A) : M A := fun st => (Return a, st).

Definition raise {A} (e : exn) : M A := fun st => (Raise e, st).

Definition bind {A B} (m : M A) (k : A -> M B) : M B :=
  fun st =>
    match m st with
    | (Return a, st') => k a st'
    | (Raise e, st') => (Raise e, st')
    end.

(** [try: m except Exception as e: h e]; every [exn] above is an
    [Exception]. *)
Definition try_except {A} (m : M A) (h : exn -> M A) : M A :=
  fun st =>
    match m st with
    | (Return a, st') => (Return a, st')
    | (Raise e, st') => h e st'
    end.

Notation "'let*' x ':=' m 'in' k" := (bind m (fun x => k))
  (at level 10, x pattern, m at level 100, k at level 200).

Definition get_state : M State := fun st => (Return st, st).

Definition emit (e : Event) : M unit :=
  fun st => (Return tt,
             mkState (llm_config st) (current_context st) (data st)
                     (trace st ++ [e])).

Definition set_llm_config (c : LlmConfig) : M unit :=
  fun st => (Return tt,
             mkState c (current_context st) (data st) (trace st)).

Definition set_context (c : list ContextEntry) : M unit :=
  fun st => (Return tt, mkState (llm_config st) c (data st) (trace st)).

Definition set_data (d : list Block) : M unit :=
  fun st => (Return tt,
             mkState (llm_config st) (current_context st) d (trace st)).

(** [d[key]] on a config dict: [KeyError] when the key is absent. *)
Definition lookup_key {A} (key : string) (field : option A) : M A :=
  match field with
  | Some v => ret v
  | None => raise (KeyError key)
  end.

(** [time.sleep(seconds)]; a negative argument is a [ValueError]. *)
Definition sleep (seconds : Q) : M unit :=
  if Qle_bool 0 seconds then emit (EvSleep seconds) else raise ValueError.

(** [for x in l: acc = body acc x] *)
Fixpoint for_each {A B} (body : B -> A -> M B) (l : list A) (acc : B)
  : M B :=
  match l with
  | [] => ret acc
  | x :: l' => let* acc := body acc x in for_each body l' acc
  end.

(** A loop whose body may [break]: [inl acc] leaves the loop. *)
Fixpoint for_each_break {A B} (body : B -> A -> M (B + B)) (l : list A)
  (acc : B) : M B :=
  match l with
  | [] => ret acc
  | x :: l' =>
      let* r := body acc x in
      match r with
      | inl acc => ret acc
      | inr acc => for_each_break body l' acc
      end
  end.

(** ** The pipeline object *)

Fixpoint join (sep : str) (parts : list str) : str :=
  match parts with
  | [] => []
  | [p] => p
  | p :: ps => p ++ sep ++ join sep ps
  end.

(** [add_to_context] on the list itself: append, then [pop(0)] when the
    list has grown past [context_lines]. *)
Definition context_append (context_lines : Z) (ctx : list ContextEntry)
  (entry : ContextEntry) : list ContextEntry :=
  if (0 <? context_lines)%Z then
    let ctx := ctx ++ [entry] in
    if (context_lines <? Z.of_nat (length ctx))%Z then tail ctx else ctx
  else ctx.

Definition context_part (c : ContextEntry) : str :=
  if truthy (ctx_enText c) then
    ctx_jpName c ++ lit ": " ++ ctx_jpText c ++ [nl]
      ++ lit "[Translation]: " ++ ctx_enName c ++ lit ": " ++ ctx_enText c
  else ctx_jpName c ++ lit ": " ++ ctx_jpText c.

Definition build_context_string (ctx : list ContextEntry) : str :=
  match ctx with
  | [] => []
  | _ =>
      [nl; nl] ++ lit "Previous dialogue for context:" ++ [nl]
        ++ join [nl] (map context_part ctx)
        ++ [nl; nl] ++ lit "Now translate:"
  end.

(** The numbered lines of a batch prompt, [enumerate(preprocessed, idx)]. *)
Fixpoint numbered_lines (idx : nat) (texts : list str) : str :=
  match texts with
  | [] => []
  | text :: texts' =>
      str_of_nat idx ++ lit ". " ++ text ++ [nl]
        ++ numbered_lines (S idx) texts'
  end.

Definition batch_prompt (context : str) (preprocessed : list str) : str :=
  context ++ lit "Translate each line below:" ++ [nl; nl]
    ++ numbered_lines 1 preprocessed
    ++ [nl]
    ++ lit "Provide translations in the same numbered format, one per line.".

Section Pipeline.
Context {U : UnicodeDB}.

(** The remote service: its answer may depend on everything that
    happened before and on the request. *)
Variable remote : list Event -> Request -> Outcome.

Variable trans_config : TransConfig.
Variable dictionary : list (str * str).

(** [self.context_lines = self.trans_config.get('context_lines', 0)] *)
Definition context_lines : Z := default 0%Z (context_lines_setting trans_config).

Definition add_to_context (jp_name jp_text en_name en_text : str) : M unit :=
  let* st := get_state in
  set_context (context_append context_lines (current_context st)
                 (mkEntry jp_name jp_text en_name en_text)).

Definition reset_context : M unit := set_context [].

(** [requests.post(...)] up to the extraction of the content: the
    request is sent and the service answers or fails. *)
Definition post (rq : Request) : M str :=
  let* st := get_state in
  let* _ := emit (EvRequest rq) in
  match remote (trace st) rq with
  | Completion content => ret content
  | Failed e => raise (Transport e)
  end.

(** [call_llm]; [fuel] bounds the recursive calls, one per retry.
    [RecursionError] marks the end of the fuel; with the fuel [call_llm]
    and the translators below start from it is never raised (the
    interpreter's own recursion limit is not modelled). *)
Fixpoint call_llm_rec (fuel : nat) (text context : str) (retry_count : Z)
  : M (option str) :=
  let* st := get_state in
  let llm := llm_config st in
  let* key := lookup_key "api_key" (api_key llm) in
  let user_message :=
    if truthy context then context ++ [nl] ++ text else text in
  let* model_name := lookup_key "model" (model llm) in
  let* system := lookup_key "system_prompt" (system_prompt llm) in
  let* temp := lookup_key "temperature" (temperature llm) in
  let* tokens := lookup_key "max_tokens" (max_tokens llm) in
  let payload url :=
    mkRequest url key model_name system
      (lit "Translate this to English: " ++ user_message)
      temp tokens (default 0.05%Q (min_p llm)) (top_p llm) (top_k llm) in
  try_except
    (let* url := lookup_key "api_url" (api_url llm) in
     let* content := post (payload url) in
     ret (Some (strip content)))
    (fun e =>
       let* attempts := lookup_key "retry_attempts" (retry_attempts trans_config) in
       if (retry_count <? attempts)%Z then
         let* delay := lookup_key "retry_delay" (retry_delay trans_config) in
         let* _ := sleep delay in
         match fuel with
         | S fuel' => call_llm_rec fuel' text context (retry_count + 1)
         | O => raise RecursionError
         end
       else ret None).

Definition call_llm (text context : str) (retry_count : Z) : M (option str) :=
  call_llm_rec
    (Z.to_nat (default 0%Z (retry_attempts trans_config) - retry_count))
    text context retry_count.

(** [self.trans_config.get('retry_on_japanese', True)] and the like. *)
Definition retry_on_japanese_setting : bool :=
  default true (retry_on_japanese trans_config).

Definition max_retries : Z := default 3%Z (retry_attempts trans_config).

Definition validation_delay : Q := default 2%Q (retry_delay trans_config).

(** [translate_text] *)
Fixpoint translate_text_rec (fuel : nat) (text : str)
  (is_name use_context : bool) (retry_count : Z) : M str :=
  let preprocessed := preprocess_text dictionary text in
  let* st := get_state in
  let context :=
    if use_context && negb is_name && (0 <? context_lines)%Z
    then build_context_string (current_context st) else [] in
  if is_name && negb (str_eqb preprocessed text) then ret preprocessed
  else
    let* translated := call_llm preprocessed context 0 in
    match translated with
    | None | Some [] => ret preprocessed
    | Some translated =>
        if retry_on_japanese_setting && (retry_count <? max_retries)%Z
           && contains_japanese translated
        then
          let* _ := sleep validation_delay in
          match fuel with
          | S fuel' =>
              translate_text_rec fuel' text is_name use_context
                (retry_count + 1)
          | O => raise RecursionError
          end
        else ret translated
    end.

Definition translate_text (text : str) (is_name use_context : bool)
  (retry_count : Z) : M str :=
  translate_text_rec (Z.to_nat (max_retries - retry_count))
    text is_name use_context retry_count.

(** [translate_batch] *)
Fixpoint translate_batch_rec (fuel : nat) (texts : list str)
  (use_context : bool) (retry_count : Z) : M (list str) :=
  match texts with
  | [] => ret []
  | _ =>
      let preprocessed := map (preprocess_text dictionary) texts in
      let* st := get_state in
      let context :=
        if use_context && (0 <? context_lines)%Z
        then build_context_string (current_context st) ++ [nl; nl]
        else [] in
      let batch_text := batch_prompt context preprocessed in
      let* result := call_llm batch_text [] 0 in
      match result with
      | None | Some [] => ret preprocessed
      | Some result =>
          let translations :=
            parse_reply (length texts) preprocessed result in
          if retry_on_japanese_setting && (retry_count <? max_retries)%Z
             && existsb contains_japanese translations
          then
            let* _ := sleep validation_delay in
            match fuel with
            | S fuel' =>
                translate_batch_rec fuel' texts use_context
                  (retry_count + 1)
            | O => raise RecursionError
            end
          else ret translations
      end
  end.

Definition translate_batch (texts : list str) (use_context : bool)
  (retry_count : Z) : M (list str) :=
  translate_batch_rec (Z.to_nat (max_retries - retry_count))
    texts use_context retry_count.

(** ** Passes over a record set *)

(** [enumerate(l)] *)
Definition enumerate {A} (l : list A) : list (nat * A) :=
  zip (seq 0 (length l)) l.

(** [range(n)] and [range(0, stop, step)]; a zero step is a
    [ValueError]. *)
Definition py_range (n : Z) : list Z :=
  map Z.of_nat (seq 0 (Z.to_nat n)).

Definition py_range_step (stop step : Z) : M (list Z) :=
  if (step =? 0)%Z then raise ValueError
  else if (step <? 0)%Z then ret []
  else ret (map (fun k => (k * step)%Z) (py_range ((stop + step - 1) / step))).

(** [a // b] *)
Definition floordiv (a b : Z) : M Z :=
  if (b =? 0)%Z then raise ZeroDivisionError else ret (a / b)%Z.

Definition Qlt_bool (a b : Q) : bool := negb (Qle_bool b a).

(** Assignment to the target slot of a unit: [obj['enName'] = v] for a
    name, [obj['enText'] = v] for a text or a choice. *)
Definition set_enName (v : str) (b : Block) : Block :=
  mkBlock (blockIdx b) (jpName b) (Some v) (jpText b) (enText b) (choices b).

Definition set_enText (v : str) (b : Block) : Block :=
  mkBlock (blockIdx b) (jpName b) (enName b) (jpText b) (Some v) (choices b).

Definition set_c_enText (v : str) (c : Choice) : Choice :=
  mkChoice (c_jpText c) (Some v).

Definition set_choices (f : list Choice -> list Choice) (b : Block) : Block :=
  mkBlock (blockIdx b) (jpName b) (enName b) (jpText b) (enText b)
          (f <$> choices b).

Definition set_target (t : Target) (v : str) (blocks : list Block)
  : list Block :=
  match t with
  | TName i => alter (set_enName v) i blocks
  | TText i => alter (set_enText v) i blocks
  | TChoice i j => alter (set_choices (alter (set_c_enText v) j)) i blocks
  end.

(** The slot of a unit as the record set holds it. *)
Definition get_target (t : Target) (blocks : list Block) : option str :=
  match t with
  | TName i => b ← blocks !! i; enName b
  | TText i => b ← blocks !! i; enText b
  | TChoice i j => b ← blocks !! i; cs ← choices b; c ← cs !! j; c_enText c
  end.

Definition write_target (t : Target) (v : str) : M unit :=
  let* st := get_state in
  let* _ := set_data (set_target t v (data st)) in
  emit (EvWrite t v).

(** The collection loop of [_translate_json_batched] (lines 308-329). *)
Definition collect_choice (idx : nat) (choice_items : list Item)
  (jc : nat * Choice) : list Item :=
  let (j, choice) := jc in
  if str_eqb (get_str (c_enText choice)) []
     && truthy (get_str (c_jpText choice))
  then choice_items ++ [mkItem (TChoice idx j) (get_str (c_jpText choice))]
  else choice_items.

Definition collect_block (acc : list Item * list Item * list Item)
  (ib : nat * Block) : list Item * list Item * list Item :=
  let '(name_items, text_items, choice_items) := acc in
  let (idx, block) := ib in
  let jp_name := get_str (jpName block) in
  let jp_text := get_str (jpText block) in
  let en_name := get_str (enName block) in
  let en_text := get_str (enText block) in
  let name_items :=
    if str_eqb en_name [] && truthy jp_name && truthy (strip jp_name)
    then name_items ++ [mkItem (TName idx) jp_name] else name_items in
  let text_items :=
    if str_eqb en_text [] && truthy jp_text
    then text_items ++ [mkItem (TText idx) jp_text] else text_items in
  let choice_items :=
    match choices block with
    | Some ((_ :: _) as cs) =>
        fold_left (collect_choice idx) (enumerate cs) choice_items
    | _ => choice_items
    end in
  (name_items, text_items, choice_items).

Definition collect_items (blocks : list Block) : list Item :=
  let '(name_items, text_items, choice_items) :=
    fold_left collect_block (enumerate blocks) ([], [], []) in
  name_items ++ text_items ++ choice_items.

(** The body of [for (item, old), new in zip(batch, translations)] in
    the second pass (lines 451-469). *)
Definition second_pass_item (retranslated_count : Z)
  (entry : Item * str * str) : M Z :=
  let '(item, old_translation, new_translation) := entry in
  if negb (truthy new_translation) then ret retranslated_count
  else if negb (contains_japanese new_translation) then
    let* _ := write_target (target item) new_translation in
    ret (retranslated_count + 1)%Z
  else ret retranslated_count.

(** One iteration of [for i in range(0, len(failed_items), batch_size)]
    (lines 431-469); [inl] is [break]. *)
Definition second_pass_batch (failed_items : list (Item * str))
  (batch_size : Z) (retranslated_count : Z) (i : Z) : M (Z + Z) :=
  let batch := py_slice failed_items i (i + batch_size) in
  let batch_texts := map (fun e => original_text (fst e)) batch in
  let* translations :=
    try_except
      (let* ts := translate_batch batch_texts false 0 in ret (Some ts))
      (fun e => ret None) in
  match translations with
  | None => ret (inl retranslated_count)
  | Some translations =>
      if forallb (fun t => negb (truthy t)) translations
      then ret (inl retranslated_count)
      else
        let* n := for_each second_pass_item (zip batch translations)
                    retranslated_count in
        ret (inr n)
  end.

Definition set_model_temperature (m : str) (t : Q) : M unit :=
  let* st := get_state in
  let llm := llm_config st in
  set_llm_config
    (mkLlm (api_url llm) (api_key llm) (Some m) (system_prompt llm)
           (Some t) (max_tokens llm) (min_p llm) (top_p llm) (top_k llm)).

(** [_second_pass_translation] *)
Definition _second_pass_translation (failed_items : list (Item * str)) : M Z :=
  match failed_items with
  | [] => ret 0%Z
  | _ =>
      let* st := get_state in
      let* original_model := lookup_key "model" (model (llm_config st)) in
      let* original_temp :=
        lookup_key "temperature" (temperature (llm_config st)) in
      let second_model :=
        default original_model (second_pass_model trans_config) in
      let second_temp :=
        default 0.3%Q (second_pass_temperature trans_config) in
      if str_eqb second_model original_model then ret 0%Z
      else
        let* _ := set_model_temperature second_model second_temp in
        let batch_size := default 25%Z (batch_size trans_config) in
        let* starts :=
          py_range_step (Z.of_nat (length failed_items)) batch_size in
        let* retranslated_count :=
          for_each_break (second_pass_batch failed_items batch_size)
            starts 0%Z in
        let* _ := set_model_temperature original_model original_temp in
        ret retranslated_count
  end.

(** The body of [for item, translation in zip(batch_items,
    translations)] in the first pass (lines 351-366). *)
Definition first_pass_item (acc : Z * list (Item * str))
  (entry : Item * str) : M (Z * list (Item * str)) :=
  let (translated_count, failed_items) := acc in
  let (item, translation) := entry in
  let* _ := write_target (target item) translation in
  let failed_items :=
    if contains_japanese translation
    then failed_items ++ [(item, translation)] else failed_items in
  ret ((translated_count + 1)%Z, failed_items).

(** One iteration of [for batch_num in range(num_batches)]. *)
Definition first_pass_batch (all_items : list Item)
  (batch_size num_batches : Z) (acc : Z * list (Item * str))
  (batch_num : Z) : M (Z * list (Item * str)) :=
  let start_idx := (batch_num * batch_size)%Z in
  let end_idx :=
    Z.min (start_idx + batch_size) (Z.of_nat (length all_items)) in
  let batch_items := py_slice all_items start_idx end_idx in
  let batch_texts := map original_text batch_items in
  let* translations := translate_batch batch_texts false 0 in
  let* acc := for_each first_pass_item (zip batch_items translations) acc in
  let batch_delay := default 0%Q (batch_delay trans_config) in
  let* _ :=
    if Qlt_bool 0 batch_delay && (batch_num <? num_batches - 1)%Z
    then sleep batch_delay else ret tt in
  ret acc.

(** [_translate_json_batched] on the record set of the state. *)
Definition _translate_json_batched : M Z :=
  let* st := get_state in
  let batch_size := default 25%Z (batch_size trans_config) in
  let all_items := collect_items (data st) in
  match all_items with
  | [] => ret 0%Z
  | _ =>
      let* num_batches :=
        floordiv (Z.of_nat (length all_items) + batch_size - 1) batch_size in
      let* (translated_count, failed_items) :=
        for_each (first_pass_batch all_items batch_size num_batches)
          (py_range num_batches) (0%Z, []) in
      if truthy_list failed_items
         && default false (enable_two_pass trans_config)
      then
        let* fixed := _second_pass_translation failed_items in
        ret (translated_count + fixed)%Z
      else ret translated_count
  end.

(** One choice of [_translate_json_sequential] (lines 291-299). *)
Definition sequential_choice (idx : nat) (translated_count : Z)
  (jc : nat * Choice) : M Z :=
  let (choice_idx, choice) := jc in
  if str_eqb (get_str (c_enText choice)) []
     && truthy (get_str (c_jpText choice))
  then
    let jp_choice := get_str (c_jpText choice) in
    let* en_choice := translate_text jp_choice false true 0 in
    let* _ := write_target (TChoice idx choice_idx) en_choice in
    let* _ := sleep 0.5%Q in
    ret (translated_count + 1)%Z
  else ret translated_count.

(** One block of [_translate_json_sequential] (lines 264-299). *)
Definition sequential_block (translated_count : Z) (ib : nat * Block)
  : M Z :=
  let (idx, block) := ib in
  let jp_name := get_str (jpName block) in
  let jp_text := get_str (jpText block) in
  let en_name := get_str (enName block) in
  let en_text := get_str (enText block) in
  let* (en_name, translated_count) :=
    if str_eqb en_name [] && truthy jp_name then
      let* en_name := translate_text jp_name true false 0 in
      let* _ := write_target (TName idx) en_name in
      let* _ := sleep 0.5%Q in
      ret (en_name, (translated_count + 1)%Z)
    else ret (en_name, translated_count) in
  let* (en_text, translated_count) :=
    if str_eqb en_text [] && truthy jp_text then
      let* en_text := translate_text jp_text false true 0 in
      let* _ := write_target (TText idx) en_text in
      let* _ := sleep 0.5%Q in
      ret (en_text, (translated_count + 1)%Z)
    else ret (en_text, translated_count) in
  let* _ := add_to_context jp_name jp_text en_name en_text in
  match choices block with
  | Some ((_ :: _) as cs) =>
      for_each (sequential_choice idx) (enumerate cs) translated_count
  | _ => ret translated_count
  end.

(** [_translate_json_sequential] on the record set of the state. *)
Definition _translate_json_sequential : M Z :=
  let* st := get_state in
  for_each sequential_block (enumerate (data st)) 0%Z.

(** One block of [_clean_monologue_names] (lines 380-391). *)
Definition is_monologue (s : str) : bool :=
  str_eqb (lower s) (lit "monologue").

Definition clean_block (block : Block) : Block :=
  let en_name := get_str (enName block) in
  let jp_text := get_str (jpText block) in
  let en_text := get_str (enText block) in
  let block := if is_monologue en_name then set_enName [] block else block in
  if (negb (truthy jp_text) || negb (truthy (strip jp_text)))
     && is_monologue en_text
  then set_enText [] block else block.

Definition cleaned_fields (block : Block) : Z :=
  let jp_text := get_str (jpText block) in
  (if is_monologue (get_str (enName block)) then 1 else 0)
  + (if (negb (truthy jp_text) || negb (truthy (strip jp_text)))
        && is_monologue (get_str (enText block))
     then 1 else 0).

(** [_clean_monologue_names]: every block is rewritten in place; the
    result is the number of fields blanked. *)
Definition _clean_monologue_names : M Z :=
  let* st := get_state in
  let* _ := set_data (map clean_block (data st)) in
  ret (fold_left Z.add (map cleaned_fields (data st)) 0%Z).

(** [translate_json_file] between [json.load] and [json.dump]: [input]
    is the ['text'] array of the loaded document (empty when the key is
    absent), the result is the array written out. *)
Definition translate_json_file (input : list Block) : M (list Block) :=
  let* _ := set_data input in
  let* _ := reset_context in
  let use_batch := default true (use_batch_translation trans_config) in
  let* translated_count :=
    if use_batch then _translate_json_batched
    else _translate_json_sequential in
  let* _ := _clean_monologue_names in
  let* st := get_state in
  ret (data st).

End Pipeline.

(** ** Auxiliary definitions for the statements *)

(** A run of [add_to_context] calls on a freshly reset window. *)
Definition append_all (trans_config : TransConfig)
  (entries : list ContextEntry) : M unit :=
  let* _ := reset_context in
  for_each (fun _ e =>
              add_to_context trans_config (ctx_jpName e) (ctx_jpText e)
                (ctx_enName e) (ctx_enText e))
           entries tt.

(** The configuration with [context_lines] set to [n]. *)
Definition with_context_lines (tc : TransConfig) (n : Z) : TransConfig :=
  mkTrans (retry_attempts tc) (retry_delay tc) (retry_on_japanese tc)
    (use_batch_translation tc) (batch_size tc) (batch_delay tc)
    (enable_two_pass tc) (second_pass_model tc)
    (second_pass_temperature tc) (Some n).

(** The requests sent so far. *)
Definition requests (tr : list Event) : list Request :=
  omap (fun e => match e with EvRequest rq => Some rq | _ => None end) tr.

Definition is_write (e : Event) : bool :=
  match e with EvWrite _ _ => true | _ => false end.

(** The shape the regular expression of [translate_batch] accepts:
    decimal digits, one of the separators, and something after it. *)
Definition numbered {U : UnicodeDB} (line ds : str) (sep : N) (tail : str)
  : Prop :=
  line = ds ++ sep :: tail /\ ds <> []
  /\ Forall (fun d => isdecimal d = true) ds
  /\ is_sep sep = true /\ tail <> [].

(** The reply ["1. Hello\n2. World\n3. Foo"]. *)
Definition example_reply : str :=
  lit "1. Hello" ++ [nl] ++ lit "2. World" ++ [nl] ++ lit "3. Foo".

(** ** Properties of computations *)

(** [m] relates every state to the state it leaves, by [R]. *)
Definition preserves (R : State -> State -> Prop) {A} (m : M A) : Prop :=
  forall st, R st (snd (m st)).

(** [m] raises nothing but exceptions in [E]. *)
Definition raises_only (E : exn -> Prop) {A} (m : M A) : Prop :=
  forall st e, fst (m st) = Raise e -> E e.

(** Only events are added, none of them a write: configuration, context
    window and record set are as before. *)
Definition quiet (st st' : State) : Prop :=
  llm_config st' = llm_config st
  /\ current_context st' = current_context st
  /\ data st' = data st
  /\ exists evs, trace st' = trace st ++ evs
                 /\ Forall (fun e => is_write e = false) evs.

Definition same_llm_config (st st' : State) : Prop :=
  llm_config st' = llm_config st.

Definition not_transport (e : exn) : Prop :=
  match e with Transport _ => False | _ => True end.

Definition no_recursion_error (e : exn) : Prop := e <> RecursionError.

(** The retry contract of the remote client in the words of the
    specification: send the request; on a transport failure sleep
    [delay] and send it again, at most [remaining] more times; then
    report absence.  The result comes with the events of the run. *)
Fixpoint retry_spec {U : UnicodeDB}
  (remote : list Event -> Request -> Outcome) (remaining : nat)
  (rq : Request) (delay : Q) (tr : list Event)
  : option str * list Event :=
  match remote tr rq with
  | Completion content => (Some (strip content), tr ++ [EvRequest rq])
  | Failed _ =>
      match remaining with
      | O => (None, tr ++ [EvRequest rq])
      | S k =>
          retry_spec remote k rq delay (tr ++ [EvRequest rq; EvSleep delay])
      end
  end.

(** The request [call_llm] builds from a complete configuration. *)
Definition request_of (llm : LlmConfig) (text context : str) : option Request :=
  match api_url llm, api_key llm, model llm, system_prompt llm,
        temperature llm, max_tokens llm with
  | Some url, Some key, Some m, Some system, Some temp, Some tokens =>
      Some (mkRequest url key m system
              (lit "Translate this to English: "
                 ++ (if truthy context then context ++ [nl] ++ text
                     else text))
              temp tokens (default 0.05%Q (min_p llm)) (top_p llm) (top_k llm))
  | _, _, _, _, _, _ => None
  end.

Definition with_trace (st : State) (tr : list Event) : State :=
  mkState (llm_config st) (current_context st) (data st) tr.

(** ** Sample configurations and services *)

Module Sample.

Definition llm : LlmConfig :=
  mkLlm (Some (lit "http://localhost:1234/v1/chat/completions"))
        (Some (lit "key")) (Some (lit "primary"))
        (Some (lit "You are a translator.")) (Some 0.7%Q) (Some 512%Z)
        None None None.

(** Two retries, one second apart; every other key is left to its
    default. *)
Definition trans : TransConfig :=
  mkTrans (Some 2%Z) (Some 1%Q) None None None None None None None None.

Definition state (blocks : list Block) : State := mkState llm [] blocks [].

(** The same with the Japanese check of translations switched off. *)
Definition trans_unchecked : TransConfig :=
  mkTrans (Some 2%Z) (Some 1%Q) (Some false) None None None None None None
          None.

(** A second model is configured, and the batch size is zero. *)
Definition trans_zero_batch : TransConfig :=
  mkTrans (Some 2%Z) (Some 1%Q) None None (Some 0%Z) None (Some true)
          (Some (lit "second")) None None.

(** A second model is configured; batches of two. *)
Definition trans_two_pass : TransConfig :=
  mkTrans (Some 2%Z) (Some 1%Q) None None (Some 2%Z) None (Some true)
          (Some (lit "second")) None None.

(** Batches of minus two. *)
Definition trans_negative_batch : TransConfig :=
  mkTrans (Some 2%Z) (Some 1%Q) None None (Some (-2)%Z) None None None None
          None.

(** One block whose text is still to be translated. *)
Definition block : Block :=
  mkBlock 7 (Some (lit "Tanaka")) (Some (lit "Tanaka"))
          (Some [0x3053%N; 0x3093%N]) None None.

(** A block whose name, text and only choice are a single space, none
    of them translated. *)
Definition blank_block : Block :=
  mkBlock 3 (Some (lit " ")) None (Some (lit " ")) None
          (Some [mkChoice (Some (lit " ")) None]).

(** A fully translated block whose speaker is called Monologue. *)
Definition monologue_block : Block :=
  mkBlock 1 (Some [0x72EC%N; 0x767D%N]) (Some (lit "Monologue"))
          (Some [0x3053%N; 0x3093%N]) (Some (lit "Hello")) None.

(** A fully translated block with one choice. *)
Definition translated_block : Block :=
  mkBlock 2 (Some [0x7530%N; 0x4E2D%N]) (Some (lit "Tanaka"))
          (Some [0x3053%N; 0x3093%N]) (Some (lit "Hello"))
          (Some [mkChoice (Some [0x306F%N; 0x3044%N]) (Some (lit "Yes"))]).

(** The configuration without the key of the service, and without its
    address. *)
Definition llm_no_key : LlmConfig :=
  mkLlm (Some (lit "http://localhost:1234/v1/chat/completions"))
        None (Some (lit "primary"))
        (Some (lit "You are a translator.")) (Some 0.7%Q) (Some 512%Z)
        None None None.

Definition llm_no_url : LlmConfig :=
  mkLlm None (Some (lit "key")) (Some (lit "primary"))
        (Some (lit "You are a translator.")) (Some 0.7%Q) (Some 512%Z)
        None None None.

(** A service that is down, and one that always sends the same text. *)
Definition down (tr : list Event) (rq : Request) : Outcome :=
  Failed ConnectionError.

Definition constant (reply : str) (tr : list Event) (rq : Request) : Outcome :=
  Completion reply.

End Sample.

(** [old in s], by trying every position. *)
Fixpoint occursb (old s : str) : bool :=
  starts_with old s
  || match s with
     | [] => false
     | _ :: s' => occursb old s'
     end.

(** The context preamble of a batch prompt (lines 174-176). *)
Definition batch_context (tc : TransConfig) (use_context : bool)
  (st : State) : str :=
  if use_context && (0 <? context_lines tc)%Z
  then build_context_string (current_context st) ++ [nl; nl] else [].

(** The write events of a run of assignments, and their effect on the
    record set. *)
Definition write_events (entries : list (Item * str)) : list Event :=
  map (fun e => EvWrite (target (fst e)) (snd e)) entries.

Definition apply_writes (entries : list (Item * str)) (blocks : list Block)
  : list Block :=
  fold_left (fun d e => set_target (target (fst e)) (snd e) d) entries blocks.

(** The object a target refers to exists in the record set. *)
Definition valid_target (t : Target) (blocks : list Block) : Prop :=
  match t with
  | TName i | TText i => i < length blocks
  | TChoice i j =>
      exists b cs, blocks !! i = Some b /\ choices b = Some cs
                   /\ j < length cs
  end.

(** The entries of a second-pass batch that are written: a non-empty
    new translation without Japanese. *)
Definition fixed_entry (entry : Item * str * str) : bool :=
  truthy (snd entry) && negb (contains_japanese (snd entry)).

(** The units of one block, kind by kind, as the collection loop of
    [_translate_json_batched] selects them. *)
Definition name_unit {U : UnicodeDB} (ib : nat * Block) : list Item :=
  let (idx, block) := ib in
  let jp_name := get_str (jpName block) in
  if str_eqb (get_str (enName block)) [] && truthy jp_name
     && truthy (strip jp_name)
  then [mkItem (TName idx) jp_name] else [].

Definition text_unit (ib : nat * Block) : list Item :=
  let (idx, block) := ib in
  let jp_text := get_str (jpText block) in
  if str_eqb (get_str (enText block)) [] && truthy jp_text
  then [mkItem (TText idx) jp_text] else [].

Definition choice_unit (idx : nat) (jc : nat * Choice) : list Item :=
  let (j, choice) := jc in
  if str_eqb (get_str (c_enText choice)) []
     && truthy (get_str (c_jpText choice))
  then [mkItem (TChoice idx j) (get_str (c_jpText choice))] else [].

Definition choice_units (ib : nat * Block) : list Item :=
  let (idx, block) := ib in
  match choices block with
  | Some cs => flat_map (choice_unit idx) (enumerate cs)
  | None => []
  end.

(** Every unit of the block that has a source text has a target text. *)
Definition populated_choice (c : Choice) : bool :=
  negb (truthy (get_str (c_jpText c))) || truthy (get_str (c_enText c)).

Definition populated (b : Block) : bool :=
  (negb (truthy (get_str (jpName b))) || truthy (get_str (enName b)))
  && (negb (truthy (get_str (jpText b))) || truthy (get_str (enText b)))
  && forallb populated_choice (default [] (choices b)).

(** The cleanup has nothing to blank in the block. *)
Definition no_placeholder {U : UnicodeDB} (b : Block) : bool :=
  negb (is_monologue (get_str (enName b)))
  && negb (is_monologue (get_str (enText b))).

(** The number of slot assignments among the events. *)
Definition count_writes (tr : list Event) : Z :=
  Z.of_nat (length (filter (fun e => is_write e = true) tr)).

(** ** Further notions used in the statements *)

(** [m] relates every state to the one it leaves by [R], and every value
    it returns satisfies [Q]. *)
Definition ensures {A} (R : State -> State -> Prop) (Q : A -> Prop)
  (m : M A) : Prop :=
  forall st, R st (snd (m st)) /\ (forall a, fst (m st) = Return a -> Q a).

(** The targets assigned so far, in order. *)
Definition write_targets (tr : list Event) : list Target :=
  omap (fun e => match e with EvWrite t _ => Some t | _ => None end) tr.

(** No slot outside [targets] has changed. *)
Definition untouched (targets : list Target) (st st' : State) : Prop :=
  forall t, ~ In t targets ->
            get_target t (data st') = get_target t (data st).

(** Events were added, and every request among them satisfies [P]. *)
Definition sends (P : Request -> Prop) (st st' : State) : Prop :=
  exists evs, trace st' = trace st ++ evs
              /\ Forall (fun e => match e with
                                  | EvRequest rq => P rq
                                  | _ => True
                                  end) evs.

(** The batches of [_translate_json_batched]: slice [batch_num] of the
    collected items, for [batch_num] in [range(num_batches)]. *)
Definition batch_slice {A} (items : list A) (batch_size batch_num : Z)
  : list A :=
  py_slice items (batch_num * batch_size)
    (Z.min (batch_num * batch_size + batch_size) (Z.of_nat (length items))).

Definition batch_slices {A} (items : list A) (batch_size : Z) : list (list A) :=
  map (batch_slice items batch_size)
    (py_range ((Z.of_nat (length items) + batch_size - 1) / batch_size)).

(** A value of [call_llm] has no space at its ends. *)
Definition stripped {U : UnicodeDB} (r : option str) : Prop :=
  forall t, r = Some t -> strip t = t.

(** A value of [translate_text]: the fallback or a stripped reply. *)
Definition text_result {U : UnicodeDB} (dictionary : list (str * str))
  (text t : str) : Prop :=
  t = preprocess_text dictionary text \/ (t <> [] /\ strip t = t).

(** What a run reads but never assigns: the index, the source name and
    text of a block, and the source texts of its choices. *)
Definition source_fields (b : Block)
  : Z * option str * option str * option (list (option str)) :=
  (blockIdx b, jpName b, jpText b, map c_jpText <$> choices b).

Definition same_sources (st st' : State) : Prop :=
  map source_fields (data st') = map source_fields (data st).

(** Every slot assigned lies in [targets], and no other slot has
    changed. *)
Definition confined (targets : list Target) (st st' : State) : Prop :=
  untouched targets st st'
  /\ exists evs, trace st' = trace st ++ evs
                 /\ Forall (fun t => In t targets) (write_targets evs).

(** The targets of the entries kept for the second pass lie in
    [targets]. *)
Definition entries_within {B} (targets : list Target)
  (entries : list (Item * B)) : Prop :=
  Forall (fun e => In (target (fst e)) targets) entries.

(** Every key [call_llm] reads before its [try] is set. *)
Definition complete (llm : LlmConfig) : bool :=
  match api_key llm, model llm, system_prompt llm, temperature llm,
        max_tokens llm with
  | Some _, Some _, Some _, Some _, Some _ => true
  | _, _, _, _, _ => false
  end.

Definition ready (st : State) : Prop := complete (llm_config st) = true.

(** The retry settings are present and the delay can be slept. *)
Definition retry_configured (tc : TransConfig) : Prop :=
  exists attempts delay,
    retry_attempts tc = Some attempts /\ retry_delay tc = Some delay
    /\ Qle_bool 0 delay = true.

(** From a state in [P], [m] returns a value in [Q] and leaves a state
    in [P]. *)
Definition total {A} (P : State -> Prop) (Q : A -> Prop) (m : M A) : Prop :=
  forall st, P st ->
    P (snd (m st)) /\ exists a, fst (m st) = Return a /\ Q a.

(** From a state in [P], [m] leaves a state in [P], returning or not. *)
Definition keeps {A} (P : State -> Prop) (m : M A) : Prop :=
  forall st, P st -> P (snd (m st)).

(** A request built from the client settings [c]: address, key, model,
    system prompt, temperature, token limit and sampling parameters are
    those of [c]. *)
Definition carries (c : LlmConfig) (e : Event) : Prop :=
  match e with
  | EvRequest rq => exists text, request_of c text [] = Some rq
  | _ => True
  end.

(** From the client settings [c], the settings are [c] again at the end
    and every request sent in between was built from them. *)
Definition requests_with (c : LlmConfig) (st st' : State) : Prop :=
  llm_config st = c ->
  llm_config st' = c
  /\ exists evs, trace st' = trace st ++ evs /\ Forall (carries c) evs.

(** The client settings of the second pass. *)
Definition second_pass_config (tc : TransConfig) (c : LlmConfig)
  : LlmConfig :=
  mkLlm (api_url c) (api_key c)
    (Some (default (get_str (model c)) (second_pass_model tc)))
    (system_prompt c)
    (Some (default 0.3%Q (second_pass_temperature tc)))
    (max_tokens c) (min_p c) (top_p c) (top_k c).

(** The slots the sequential pass assigns for one choice and for one
    block, in the order of its three tests (lines 272-299). *)
Definition sequential_choice_unit (idx : nat) (jc : nat * Choice)
  : list Target :=
  let (j, choice) := jc in
  if str_eqb (get_str (c_enText choice)) []
     && truthy (get_str (c_jpText choice))
  then [TChoice idx j] else [].

Definition sequential_units (ib : nat * Block) : list Target :=
  let (idx, block) := ib in
  (if str_eqb (get_str (enName block)) [] && truthy (get_str (jpName block))
   then [TName idx] else [])
  ++ (if str_eqb (get_str (enText block)) []
         && truthy (get_str (jpText block))
      then [TText idx] else [])
  ++ match choices block with
     | Some ((_ :: _) as cs) =>
         flat_map (sequential_choice_unit idx) (enumerate cs)
     | _ => []
     end.

(** The name slot of a block whose source name is all whitespace. *)
Definition blank_name {U : UnicodeDB} (blocks : list Block) (t : Target)
  : Prop :=
  match t with
  | TName idx =>
      exists b, blocks !! idx = Some b /\ strip (get_str (jpName b)) = []
  | _ => False
  end.

(** The state with another context window. *)
Definition with_context (st : State) (c : list ContextEntry) : State :=
  mkState (llm_config st) c (data st) (trace st).

(** [m] does not look at the context window: run from a state with
    another window it returns the same value, makes the same changes
    and leaves the window it found. *)
Definition context_blind {A} (m : M A) : Prop :=
  forall st c, m (with_context st c) = (fst (m st), with_context (snd (m st)) c).

(** * Properties *)

(** ** The context window *)

Lemma context_append_window cap (w : list ContextEntry) e :
  (0 < cap)%Z -> (Z.of_nat (length w) <= cap)%Z ->
  context_append cap w e = drop (length w + 1 - Z.to_nat cap) (w ++ [e]).
Proof.
  intros Hcap Hw. unfold context_append.
  destruct (Z.ltb_spec 0 cap) as [_|]; [|lia].
  rewrite length_app. simpl.
  destruct (Z.ltb_spec cap (Z.of_nat (length w + 1))) as [Hlt|Hge].
  - replace (length w + 1 - Z.to_nat cap) with 1 by lia.
    destruct w; simpl in *; [lia|]. now rewrite drop_0.
  - replace (length w + 1 - Z.to_nat cap) with 0 by lia. now rewrite drop_0.
Qed.

Lemma context_append_length cap (w : list ContextEntry) e :
  (Z.of_nat (length w) <= Z.max 0 cap)%Z ->
  (Z.of_nat (length (context_append cap w e)) <= Z.max 0 cap)%Z.
Proof.
  intros Hw. unfold context_append.
  destruct (Z.ltb_spec 0 cap); [|assumption].
  rewrite length_app. simpl.
  destruct (Z.ltb_spec cap (Z.of_nat (length w + 1))).
  - destruct w; simpl in *; [lia|]. rewrite length_app. simpl. lia.
  - rewrite length_app. simpl. lia.
Qed.

Lemma fold_context_append cap (es w : list ContextEntry) :
  (Z.of_nat (length w) <= Z.max 0 cap)%Z ->
  let w' := fold_left (context_append cap) es w in
  (Z.of_nat (length w') <= Z.max 0 cap)%Z
  /\ w' = drop (length (w ++ es) - Z.to_nat cap) (w ++ es).
Proof.
  revert w. induction es as [|e es IH]; intros w Hw; simpl.
  - split; [assumption|]. rewrite app_nil_r.
    replace (length w - Z.to_nat cap) with 0 by lia. now rewrite drop_0.
  - destruct (IH (context_append cap w e)) as [Hlen Heq].
    { now apply context_append_length. }
    split; [assumption|]. rewrite Heq. clear IH Hlen Heq.
    destruct (Z.ltb_spec 0 cap) as [Hcap|Hcap].
    + rewrite context_append_window by lia.
      replace (w ++ e :: es) with ((w ++ [e]) ++ es)
        by now rewrite <- app_assoc.
      assert (Hv : length (w ++ [e]) = length w + 1)
        by (rewrite length_app; simpl; lia).
      destruct (decide (length w + 1 <= Z.to_nat cap)) as [Hle|Hgt].
      * replace (length w + 1 - Z.to_nat cap) with 0 by lia.
        now rewrite drop_0.
      * replace (length w + 1 - Z.to_nat cap) with 1 by lia.
        assert (Hd : drop 1 (w ++ [e]) ++ es = drop 1 ((w ++ [e]) ++ es)).
        { destruct (w ++ [e]); simpl in *; [lia|]. now rewrite !drop_0. }
        rewrite Hd, drop_drop. f_equal.
        rewrite length_drop, !length_app. simpl. lia.
    + unfold context_append.
      destruct (Z.ltb_spec 0 cap); [lia|].
      assert (w = []) as -> by (destruct w; simpl in *; [easy|lia]).
      simpl. replace (Z.to_nat cap) with 0 by lia.
      rewrite !Nat.sub_0_r. reflexivity.
Qed.

Lemma for_each_add_to_context tc (es : list ContextEntry) st :
  for_each (fun _ e =>
              add_to_context tc (ctx_jpName e) (ctx_jpText e)
                (ctx_enName e) (ctx_enText e)) es tt st
  = (Return tt,
     mkState (llm_config st)
       (fold_left (context_append (context_lines tc)) es (current_context st))
       (data st) (trace st)).
Proof.
  revert st. induction es as [|e es IH]; intros st; simpl.
  - now destruct st.
  - unfold bind at 1. unfold add_to_context at 1.
    unfold bind, get_state, set_context. rewrite IH. simpl.
    now destruct e.
Qed.

(** C7: whatever entries are appended to a reset window, it never holds
    more than [context_lines] of them and holds exactly the latest ones
    in their order of arrival, so that an append beyond the capacity
    drops the oldest entry; with capacity 2, appending A, B, C leaves
    [B; C]. *)
Theorem context_window_fifo (tc : TransConfig)
  (entries : list ContextEntry) (st : State) :
  let cap := context_lines tc in
  let window := current_context (snd (append_all tc entries st)) in
  (Z.of_nat (length window) <= Z.max 0 cap)%Z
  /\ window = drop (length entries - Z.to_nat cap) entries
  /\ (forall A B C : ContextEntry,
        current_context
          (snd (append_all (with_context_lines tc 2) [A; B; C] st))
        = [B; C]).
Proof.
  intros cap window.
  assert (Hrun : forall tc es,
    current_context (snd (append_all tc es st))
    = fold_left (context_append (context_lines tc)) es []).
  { intros tc' es. unfold append_all, bind, reset_context, set_context.
    now rewrite for_each_add_to_context. }
  subst window. rewrite Hrun.
  destruct (fold_context_append cap entries []) as [Hlen Heq];
    [simpl; lia|].
  repeat split; [exact Hlen|exact Heq|].
  intros A B C. rewrite Hrun. reflexivity.
Qed.

(** ** Strings and the reply parser *)

Section StringFacts.
Context {U : UnicodeDB}.

Lemma lstrip_nil (s : str) : lstrip s = [] <-> Forall (fun c => isspace c = true) s.
Proof.
  induction s as [|c s IH]; simpl.
  - split; [constructor|reflexivity].
  - destruct (isspace c) eqn:Hc.
    + rewrite IH. split; [now constructor|now inversion 1].
    + split; [discriminate|]. inversion 1; congruence.
Qed.

Lemma lstrip_head (s : str) c r : lstrip s = c :: r -> isspace c = false.
Proof.
  induction s as [|d s IH]; simpl; [discriminate|].
  destruct (isspace d) eqn:Hd; [assumption|]. congruence.
Qed.

Lemma span_lstrip (s : str) : snd (span isspace s) = lstrip s.
Proof.
  induction s as [|c s IH]; simpl; [reflexivity|].
  destruct (isspace c); [|reflexivity].
  now destruct (span isspace s).
Qed.

Lemma span_app (p : N -> bool) (ds : str) c tail :
  Forall (fun d => p d = true) ds -> p c = false ->
  span p (ds ++ c :: tail) = (ds, c :: tail).
Proof.
  induction 1 as [|d ds Hd _ IH]; intros Hc; simpl.
  - now rewrite Hc.
  - now rewrite Hd, IH.
Qed.

Lemma span_split (p : N -> bool) (s : str) :
  s = fst (span p s) ++ snd (span p s)
  /\ Forall (fun d => p d = true) (fst (span p s)).
Proof.
  induction s as [|c s [IH1 IH2]]; simpl; [now split|].
  destruct (p c) eqn:Hc; [|now split].
  destruct (span p s); simpl in *. split; [congruence|now constructor].
Qed.

(** A stripped string does not end with a space. *)
Lemma strip_last (s : str) c : last (strip s) = Some c -> isspace c = false.
Proof.
  unfold strip, rstrip.
  destruct (lstrip (rev (lstrip s))) eqn:E; simpl; [discriminate|].
  rewrite last_snoc. intros [= ->]. eapply lstrip_head, E.
Qed.

Lemma is_sep_ascii c : is_sep c = true -> isdecimal c = false.
Proof.
  unfold is_sep. rewrite !orb_true_iff, !N.eqb_eq.
  intros [[->| ->]| ->]; rewrite isdecimal_ascii by (unfold is_ascii; lia);
    reflexivity.
Qed.

Lemma re_match_numbered_some (line ds : str) sep tail :
  numbered line ds sep tail ->
  (forall c, last line = Some c -> isspace c = false) ->
  re_match_numbered line = Some (lstrip tail) /\ lstrip tail <> [].
Proof.
  intros (-> & Hds & Hdig & Hsep & Htail) Hlast.
  assert (Hne : lstrip tail <> []).
  { intros Hnil. apply lstrip_nil in Hnil.
    destruct (last tail) as [c|] eqn:Hl.
    - assert (isspace c = false) as Hc.
      { apply Hlast. rewrite last_app. simpl.
        destruct tail; [easy|]. simpl in *. now rewrite Hl. }
      apply last_Some in Hl as [l' ->].
      apply Forall_app in Hnil as [_ Hnil]. inversion Hnil; congruence.
    - apply last_None in Hl. contradiction. }
  split; [|assumption].
  unfold re_match_numbered.
  rewrite span_app by (auto using is_sep_ascii).
  destruct ds; [contradiction|]. rewrite Hsep.
  pose proof (span_lstrip tail) as Hsp.
  destruct (span isspace tail) as [ws g]. simpl in Hsp. subst g.
  destruct (lstrip tail); [contradiction|reflexivity].
Qed.

Lemma re_match_numbered_inv (line g : str) :
  re_match_numbered line = Some g ->
  exists ds sep tail, numbered line ds sep tail.
Proof.
  unfold re_match_numbered. intros H.
  destruct (span_split isdecimal line) as [Hsplit Hdig].
  destruct (span isdecimal line) as [ds r]. simpl in *.
  destruct ds as [|d ds]; [discriminate|].
  destruct r as [|sep tail]; [discriminate|].
  destruct (is_sep sep) eqn:Hsep; [|discriminate].
  exists (d :: ds), sep, tail. repeat split; try assumption; try easy.
  intros ->. simpl in H. discriminate.
Qed.

Lemma pad_loop_spec (pre : list str) k (ts : list str) :
  k = length pre - length ts ->
  pad_loop k pre ts = ts ++ drop (length ts) pre.
Proof.
  revert ts. induction k as [|k IH]; intros ts Hk; simpl.
  - rewrite drop_ge by lia. now rewrite app_nil_r.
  - destruct (pre !! length ts) as [p|] eqn:Hp.
    + rewrite IH by (rewrite length_app; simpl; lia).
      rewrite length_app. simpl. rewrite <- app_assoc. simpl.
      f_equal. rewrite (drop_S _ _ _ Hp). do 2 f_equal. lia.
    + apply lookup_ge_None in Hp. lia.
Qed.

Lemma parse_reply_spec n (pre : list str) (reply : str) :
  length pre = n ->
  parse_reply n pre reply
  = take n (parse_lines reply ++ drop (length (parse_lines reply)) pre).
Proof.
  intros Hn. unfold parse_reply. rewrite pad_loop_spec; [reflexivity|lia].
Qed.

Lemma parse_reply_length n (pre : list str) (reply : str) :
  length pre = n -> length (parse_reply n pre reply) = n.
Proof.
  intros Hn. rewrite parse_reply_spec by assumption.
  rewrite length_take, length_app, length_drop. lia.
Qed.

End StringFacts.

(** Stripping and splitting keep ASCII text ASCII. *)
Section AsciiClosed.
Context {U : UnicodeDB}.

Lemma lstrip_is_ascii (s : str) : Forall is_ascii s -> Forall is_ascii (lstrip s).
Proof.
  induction 1 as [|c s Hc Hs IH]; simpl; [constructor|].
  destruct (isspace c); [assumption|now constructor].
Qed.

Lemma Forall_rev_ascii (s : str) : Forall is_ascii s -> Forall is_ascii (rev s).
Proof. apply List.Forall_rev. Qed.

Lemma strip_is_ascii (s : str) : Forall is_ascii s -> Forall is_ascii (strip s).
Proof.
  intros H. unfold strip, rstrip.
  auto using Forall_rev_ascii, lstrip_is_ascii.
Qed.

Lemma span_snd_ascii (p : N -> bool) (s : str) :
  Forall is_ascii s -> Forall is_ascii (snd (span p s)).
Proof.
  induction 1 as [|c s Hc Hs IH]; simpl; [constructor|].
  destruct (p c); [|now constructor].
  now destruct (span p s).
Qed.

Lemma split_nl_nonempty (s : str) : split_nl s <> [].
Proof.
  induction s as [|c s IH]; simpl; [easy|].
  destruct (c =? nl)%N; [easy|]. now destruct (split_nl s).
Qed.

Lemma split_nl_is_ascii (s : str) :
  Forall is_ascii s -> Forall (Forall is_ascii) (split_nl s).
Proof.
  induction 1 as [|c s Hc Hs IH]; simpl; [repeat constructor|].
  destruct (c =? nl)%N; [now repeat constructor|].
  destruct (split_nl s) as [|l ls]; [repeat constructor; assumption|].
  inversion IH; subst. constructor; [now constructor|assumption].
Qed.

End AsciiClosed.

(** On ASCII text every character database gives the same answers, so
    that such text can be evaluated with [ascii_db]. *)
Section Ascii.
Context {U : UnicodeDB}.

Lemma lstrip_ascii_db (s : str) :
  Forall is_ascii s -> @lstrip U s = @lstrip ascii_db s.
Proof.
  induction 1 as [|c s Hc Hs IH]; simpl; [reflexivity|].
  rewrite (isspace_ascii c Hc), IH. reflexivity.
Qed.

Lemma strip_ascii_db (s : str) :
  Forall is_ascii s -> @strip U s = @strip ascii_db s.
Proof.
  intros H. unfold strip, rstrip.
  rewrite (lstrip_ascii_db s H).
  rewrite lstrip_ascii_db; [reflexivity|].
  apply Forall_rev_ascii. rewrite <- (lstrip_ascii_db s H).
  now apply lstrip_is_ascii.
Qed.

Lemma span_ext (p q : N -> bool) (s : str) :
  Forall (fun c => p c = q c) s -> span p s = span q s.
Proof.
  induction 1 as [|c s Hc Hs IH]; simpl; [reflexivity|].
  now rewrite Hc, IH.
Qed.

Lemma re_match_numbered_ascii_db (line : str) :
  Forall is_ascii line ->
  @re_match_numbered U line = @re_match_numbered ascii_db line.
Proof.
  intros H. unfold re_match_numbered.
  rewrite (span_ext (@isdecimal U) (@isdecimal ascii_db)).
  2:{ eapply Forall_impl; [exact H|]. intros c Hc. now apply isdecimal_ascii. }
  pose proof (span_snd_ascii (@isdecimal ascii_db) line H) as Hr.
  destruct (span (@isdecimal ascii_db) line) as [ds r]. simpl in Hr.
  destruct ds; [reflexivity|]. destruct r as [|sep rest]; [reflexivity|].
  inversion Hr as [|? ? _ Hrest]; subst.
  rewrite (span_ext (@isspace U) (@isspace ascii_db)); [reflexivity|].
  eapply Forall_impl; [exact Hrest|]. intros c Hc. now apply isspace_ascii.
Qed.

Lemma parse_line_ascii_db (line : str) :
  Forall is_ascii line -> @parse_line U line = @parse_line ascii_db line.
Proof.
  intros H. unfold parse_line.
  rewrite (strip_ascii_db line H).
  rewrite re_match_numbered_ascii_db; [reflexivity|].
  now apply (@strip_is_ascii ascii_db).
Qed.

Lemma parse_lines_ascii_db (reply : str) :
  Forall is_ascii reply -> @parse_lines U reply = @parse_lines ascii_db reply.
Proof.
  intros H. unfold parse_lines.
  rewrite (strip_ascii_db reply H).
  pose proof (split_nl_is_ascii _ (@strip_is_ascii ascii_db reply H)) as Hl.
  induction Hl as [|l ls Hl _ IH]; simpl; [reflexivity|].
  now rewrite (parse_line_ascii_db l Hl), IH.
Qed.

(** [split('\n')] cuts at the line feeds and nowhere else. *)
Lemma split_nl_join (s : str) :
  join [nl] (split_nl s) = s /\ Forall (fun l => ~ In nl l) (split_nl s).
Proof.
  induction s as [|c s [IHj IHf]]; simpl.
  - split; [reflexivity|]. repeat constructor. easy.
  - pose proof (split_nl_nonempty s) as Hne.
    destruct (N.eqb_spec c nl) as [->|Hc].
    + split; [|constructor; [easy|assumption]].
      destruct (split_nl s); [contradiction|]. simpl in *. now rewrite IHj.
    + destruct (split_nl s) as [|l ls]; [contradiction|].
      apply Forall_cons in IHf as [Hl Hls]. split.
      * rewrite <- IHj. simpl. now destruct ls.
      * constructor; [|assumption]. simpl. intros [?|?]; congruence.
Qed.

Lemma parse_lines_example :
  parse_lines example_reply = [lit "Hello"; lit "World"; lit "Foo"].
Proof.
  rewrite parse_lines_ascii_db.
  - vm_compute. reflexivity.
  - apply List.Forall_forall. intros c Hc. apply N.ltb_lt.
    revert c Hc. apply forallb_forall. vm_compute. reflexivity.
Qed.

End Ascii.

(** ** One step of the batch translator *)

Section BatchStep.
Context {U : UnicodeDB}.
Variable remote : list Event -> Request -> Outcome.
Variable tc : TransConfig.
Variable dictionary : list (str * str).

(** The prompt [translate_batch] submits in state [st]. *)
Lemma translate_batch_nil uc rc st :
  translate_batch remote tc dictionary [] uc rc st = (Return [], st).
Proof. unfold translate_batch. now destruct (Z.to_nat _). Qed.

(** [translate_batch] unfolded once: the call, then either the fallback,
    the parsed reply, or the same batch again with the next count. *)
Lemma translate_batch_step texts uc rc st :
  texts <> [] ->
  let pre := map (preprocess_text dictionary) texts in
  let context := batch_context tc uc st in
  translate_batch remote tc dictionary texts uc rc st
  = match call_llm remote tc (batch_prompt context pre) [] 0 st with
    | (Return (Some ((_ :: _) as reply)), st1) =>
        let translations := parse_reply (length texts) pre reply in
        if retry_on_japanese_setting tc && (rc <? max_retries tc)%Z
           && existsb contains_japanese translations
        then
          match sleep (validation_delay tc) st1 with
          | (Return _, st2) =>
              translate_batch remote tc dictionary texts uc (rc + 1) st2
          | (Raise e, st2) => (Raise e, st2)
          end
        else (Return translations, st1)
    | (Return _, st1) => (Return pre, st1)
    | (Raise e, st1) => (Raise e, st1)
    end.
Proof.
  intros Hne pre context. subst pre context. unfold batch_context.
  unfold translate_batch at 1.
  destruct texts as [|t ts]; [contradiction|].
  destruct (Z.to_nat (max_retries tc - rc)) as [|fuel] eqn:Hfuel.
  - simpl. unfold bind at 1. unfold get_state. unfold bind at 1.
    destruct (call_llm _ _ _ _ _ st) as [[[[|c reply]|]|e] st1];
      try reflexivity.
    destruct (Z.ltb_spec rc (max_retries tc)) as [Hlt|Hge]; [lia|].
    rewrite andb_false_r. reflexivity.
  - simpl. unfold bind at 1. unfold get_state. unfold bind at 1.
    destruct (call_llm _ _ _ _ _ st) as [[[[|c reply]|]|e] st1];
      try reflexivity.
    destruct (retry_on_japanese_setting tc && (rc <? max_retries tc)%Z
              && existsb contains_japanese _) eqn:Hgate; [|reflexivity].
    unfold bind.
    destruct (sleep (validation_delay tc) st1) as [[[]|e] st2];
      [|reflexivity].
    unfold translate_batch. f_equal. lia.
Qed.

(** The reply is accepted when no retry is due. *)
Lemma translate_batch_accepts texts uc rc st reply st1 :
  texts <> [] -> reply <> [] ->
  let pre := map (preprocess_text dictionary) texts in
  call_llm remote tc (batch_prompt (batch_context tc uc st) pre) [] 0 st
  = (Return (Some reply), st1) ->
  retry_on_japanese_setting tc && (rc <? max_retries tc)%Z
  && existsb contains_japanese (parse_reply (length texts) pre reply) = false ->
  translate_batch remote tc dictionary texts uc rc st
  = (Return (parse_reply (length texts) pre reply), st1).
Proof.
  intros Hne Hreply pre Hcall Hgate.
  rewrite translate_batch_step by assumption. fold pre. rewrite Hcall.
  destruct reply; [contradiction|]. cbv beta iota zeta. now rewrite Hgate.
Qed.

(** The batch is submitted again when a retry is due. *)
Lemma translate_batch_retries texts uc rc st reply st1 :
  texts <> [] -> reply <> [] ->
  let pre := map (preprocess_text dictionary) texts in
  call_llm remote tc (batch_prompt (batch_context tc uc st) pre) [] 0 st
  = (Return (Some reply), st1) ->
  retry_on_japanese_setting tc && (rc <? max_retries tc)%Z
  && existsb contains_japanese (parse_reply (length texts) pre reply) = true ->
  translate_batch remote tc dictionary texts uc rc st
  = (let* _ := sleep (validation_delay tc) in
     translate_batch remote tc dictionary texts uc (rc + 1)) st1.
Proof.
  intros Hne Hreply pre Hcall Hgate.
  rewrite translate_batch_step by assumption. fold pre. rewrite Hcall.
  destruct reply; [contradiction|]. cbv beta iota zeta. now rewrite Hgate.
Qed.

End BatchStep.

(** ** Frame rules for the monad *)

Lemma bind_run {A B} (m : M A) (k : A -> M B) st :
  bind m k st
  = match m st with
    | (Return a, st') => k a st'
    | (Raise e, st') => (Raise e, st')
    end.
Proof. reflexivity. Qed.

Lemma write_target_run t v st :
  write_target t v st
  = (Return tt,
     mkState (llm_config st) (current_context st)
       (set_target t v (data st)) (trace st ++ [EvWrite t v])).
Proof. reflexivity. Qed.

Section Preserves.
Variable R : State -> State -> Prop.
Hypothesis R_refl : forall st, R st st.
Hypothesis R_trans : forall a b c, R a b -> R b c -> R a c.

Lemma preserves_ret {A} (a : A) : preserves R (ret a).
Proof using R_refl. intros st. apply R_refl. Qed.

Lemma preserves_raise {A} e : preserves R (@raise A e).
Proof using R_refl. intros st. apply R_refl. Qed.

Lemma preserves_get_state : preserves R get_state.
Proof using R_refl. intros st. apply R_refl. Qed.

Lemma preserves_lookup_key {A} key (f : option A) :
  preserves R (lookup_key key f).
Proof using R_refl. destruct f; intros st; apply R_refl. Qed.

Lemma preserves_bind {A B} (m : M A) (k : A -> M B) :
  preserves R m -> (forall a, preserves R (k a)) -> preserves R (bind m k).
Proof using R_trans.
  intros Hm Hk st. unfold bind. specialize (Hm st).
  destruct (m st) as [[a|e] st1]; simpl in *; [|assumption].
  eapply R_trans; [exact Hm|apply Hk].
Qed.

Lemma preserves_try_except {A} (m : M A) h :
  preserves R m -> (forall e, preserves R (h e)) ->
  preserves R (try_except m h).
Proof using R_trans.
  intros Hm Hh st. unfold try_except. specialize (Hm st).
  destruct (m st) as [[a|e] st1]; simpl in *; [assumption|].
  eapply R_trans; [exact Hm|apply Hh].
Qed.

Lemma preserves_for_each {A B} (body : B -> A -> M B) l acc :
  (forall b a, preserves R (body b a)) -> preserves R (for_each body l acc).
Proof using R_refl R_trans.
  intros Hb. revert acc. induction l as [|x l IH]; intros acc; simpl.
  - apply preserves_ret.
  - apply preserves_bind; [apply Hb|assumption].
Qed.

Lemma preserves_for_each_break {A B} (body : B -> A -> M (B + B)) l acc :
  (forall b a, preserves R (body b a)) ->
  preserves R (for_each_break body l acc).
Proof using R_refl R_trans.
  intros Hb. revert acc. induction l as [|x l IH]; intros acc; simpl.
  - apply preserves_ret.
  - apply preserves_bind; [apply Hb|].
    intros [b|b]; [apply preserves_ret|apply IH].
Qed.

End Preserves.

Section RaisesOnly.
Variable E : exn -> Prop.

Lemma raises_only_ret {A} (a : A) : raises_only E (ret a).
Proof. intros st e. discriminate. Qed.

Lemma raises_only_get_state : raises_only E get_state.
Proof. intros st e. discriminate. Qed.

Lemma raises_only_raise {A} e : E e -> raises_only E (@raise A e).
Proof. intros He st e' [= <-]. exact He. Qed.

Lemma raises_only_bind {A B} (m : M A) (k : A -> M B) :
  raises_only E m -> (forall a, raises_only E (k a)) ->
  raises_only E (bind m k).
Proof.
  intros Hm Hk st e. unfold bind. specialize (Hm st).
  destruct (m st) as [[a|e'] st1]; simpl in *.
  - apply Hk.
  - intros [= <-]. now apply Hm.
Qed.

Lemma raises_only_try_except {A} (m : M A) h :
  (forall e, raises_only E (h e)) -> raises_only E (try_except m h).
Proof.
  intros Hh st e. unfold try_except.
  destruct (m st) as [[a|e'] st1]; simpl; [discriminate|apply Hh].
Qed.

Lemma raises_only_for_each {A B} (body : B -> A -> M B) l acc :
  (forall b a, raises_only E (body b a)) ->
  raises_only E (for_each body l acc).
Proof.
  intros Hb. revert acc. induction l as [|x l IH]; intros acc; simpl.
  - apply raises_only_ret.
  - apply raises_only_bind; [apply Hb|assumption].
Qed.

Lemma raises_only_for_each_break {A B} (body : B -> A -> M (B + B)) l acc :
  (forall b a, raises_only E (body b a)) ->
  raises_only E (for_each_break body l acc).
Proof.
  intros Hb. revert acc. induction l as [|x l IH]; intros acc; simpl.
  - apply raises_only_ret.
  - apply raises_only_bind; [apply Hb|].
    intros [b|b]; [apply raises_only_ret|apply IH].
Qed.

End RaisesOnly.

Lemma quiet_refl st : quiet st st.
Proof. repeat split. exists []. now rewrite app_nil_r. Qed.

Lemma quiet_trans a b c : quiet a b -> quiet b c -> quiet a c.
Proof.
  intros (H1 & H2 & H3 & e1 & H4 & H5) (K1 & K2 & K3 & e2 & K4 & K5).
  repeat split; try congruence.
  exists (e1 ++ e2). split; [rewrite K4, H4; now rewrite app_assoc|].
  now apply Forall_app.
Qed.

Lemma same_llm_config_refl st : same_llm_config st st.
Proof. reflexivity. Qed.

Lemma same_llm_config_trans a b c :
  same_llm_config a b -> same_llm_config b c -> same_llm_config a c.
Proof. unfold same_llm_config. congruence. Qed.

Lemma quiet_same_llm_config {A} (m : M A) :
  preserves quiet m -> preserves same_llm_config m.
Proof. intros H st. apply H. Qed.

Lemma quiet_emit e : is_write e = false -> preserves quiet (emit e).
Proof.
  intros He st. repeat split. exists [e]. simpl. split; [reflexivity|].
  now repeat constructor.
Qed.

Lemma quiet_sleep d : preserves quiet (sleep d).
Proof.
  unfold sleep. destruct (Qle_bool 0 d).
  - now apply quiet_emit.
  - apply preserves_raise, quiet_refl.
Qed.

(** Apply the frame rules for a relation with the given reflexivity and
    transitivity proofs, case by case along the code. *)
Create HintDb frame discriminated.

Lemma quiet_emit_request rq : preserves quiet (emit (EvRequest rq)).
Proof. now apply quiet_emit. Qed.

#[export] Hint Resolve quiet_emit_request quiet_sleep : frame.

Ltac frame_rules Hrefl Htrans :=
  repeat first
    [ assumption
    | solve [auto 3 with frame nocore]
    | apply (preserves_ret _ Hrefl)
    | apply (preserves_raise _ Hrefl)
    | apply (preserves_get_state _ Hrefl)
    | apply (preserves_lookup_key _ Hrefl)
    | apply (preserves_bind _ Htrans); [|intros]
    | apply (preserves_try_except _ Htrans); [|intros]
    | apply (preserves_for_each _ Hrefl Htrans); intros
    | apply (preserves_for_each_break _ Hrefl Htrans); intros
    | match goal with
      | |- preserves _ (match ?x with _ => _ end) => destruct x
      end ].

Ltac raise_rules :=
  repeat first
    [ assumption
    | solve [auto 3 with frame nocore]
    | apply raises_only_ret
    | apply raises_only_get_state
    | apply raises_only_raise; exact I
    | apply raises_only_bind; [|intros]
    | apply raises_only_try_except; intros
    | apply raises_only_for_each; intros
    | apply raises_only_for_each_break; intros
    | match goal with
      | |- raises_only _ (match ?x with _ => _ end) => destruct x
      end ].

(** ** The remote client *)

Section Client.
Context {U : UnicodeDB}.
Variable remote : list Event -> Request -> Outcome.
Variable tc : TransConfig.

Lemma quiet_post rq : preserves quiet (post remote rq).
Proof.
  unfold post. frame_rules quiet_refl quiet_trans.
Qed.

#[local] Hint Resolve quiet_post : frame.

Lemma quiet_call_llm_rec fuel text context rc :
  preserves quiet (call_llm_rec remote tc fuel text context rc).
Proof.
  revert rc. induction fuel as [|fuel IH]; intros rc; simpl;
    frame_rules quiet_refl quiet_trans.
Qed.

Lemma quiet_call_llm text context rc :
  preserves quiet (call_llm remote tc text context rc).
Proof. apply quiet_call_llm_rec. Qed.

Lemma raises_only_sleep d : raises_only not_transport (sleep d).
Proof.
  unfold sleep. destruct (Qle_bool 0 d); [|raise_rules].
  intros st e; discriminate.
Qed.

Lemma raises_only_lookup_key {A} key (f : option A) :
  raises_only not_transport (lookup_key key f).
Proof. destruct f; raise_rules. Qed.

#[local] Hint Resolve raises_only_sleep raises_only_lookup_key : frame.

Lemma call_llm_rec_no_transport fuel text context rc :
  raises_only not_transport (call_llm_rec remote tc fuel text context rc).
Proof.
  revert rc. induction fuel as [|fuel IH]; intros rc; simpl;
    raise_rules.
Qed.

(** With every key it reads present and a non-negative delay,
    [call_llm] is the retry loop of the specification. *)
Lemma call_llm_rec_refines text context rq attempts delay :
  retry_attempts tc = Some attempts ->
  retry_delay tc = Some delay ->
  Qle_bool 0 delay = true ->
  forall fuel rc st,
    request_of (llm_config st) text context = Some rq ->
    fuel = Z.to_nat (attempts - rc) ->
    call_llm_rec remote tc fuel text context rc st
    = (Return (fst (retry_spec remote fuel rq delay (trace st))),
       with_trace st (snd (retry_spec remote fuel rq delay (trace st)))).
Proof.
  intros Hatt Hdel Hpos fuel.
  induction fuel as [|fuel IH]; intros rc [llm ctx d tr] Hrq Hfuel;
    unfold request_of in Hrq; simpl in Hrq;
    destruct llm as [[url|] [key|] [m|] [sys|] [temp|] [tok|] mp tp tk];
    try discriminate; simpl in Hrq; injection Hrq as <-.
  - cbn -[strip]. unfold try_except, bind, post, get_state, emit.
    cbn -[strip].
    destruct (remote tr _) as [content|e]; cbn -[strip]; [reflexivity|].
    rewrite Hatt. cbn.
    destruct (Z.ltb_spec rc attempts); [lia|reflexivity].
  - cbn -[strip retry_spec call_llm_rec].
    simpl call_llm_rec.
    unfold try_except, bind, post, get_state, emit, lookup_key, ret.
    cbn -[strip retry_spec call_llm_rec].
    simpl retry_spec.
    destruct (remote tr _) as [content|e]; cbn -[strip retry_spec call_llm_rec];
      [reflexivity|].
    rewrite Hatt, Hdel. cbn -[strip retry_spec call_llm_rec].
    destruct (Z.ltb_spec rc attempts); [|lia].
    unfold sleep. rewrite Hpos. cbn -[strip retry_spec call_llm_rec].
    rewrite (IH (rc + 1)%Z); [|reflexivity|lia].
    cbn -[strip retry_spec call_llm_rec].
    rewrite <- app_assoc. reflexivity.
Qed.

End Client.

#[export] Hint Resolve quiet_post quiet_call_llm raises_only_sleep
  raises_only_lookup_key : frame.

Lemma retry_spec_all_fail {U : UnicodeDB} remote rq delay :
  (forall tr, exists e, remote tr rq = Failed e) ->
  forall k tr,
    retry_spec remote k rq delay tr
    = (None,
       tr ++ EvRequest rq :: concat (replicate k [EvSleep delay; EvRequest rq])).
Proof.
  intros Hdown. induction k as [|k IH]; intros tr; simpl;
    destruct (Hdown tr) as [e ->].
  - reflexivity.
  - rewrite IH. f_equal. now rewrite <- app_assoc.
Qed.



(** ** Dictionary preprocessing and name units *)

Lemma starts_with_app (p s : str) :
  starts_with p s = true -> exists b, s = p ++ b.
Proof.
  revert s. induction p as [|a p IH]; intros s; simpl.
  - intros _. now exists s.
  - destruct s as [|c s]; [discriminate|].
    rewrite andb_true_iff, N.eqb_eq. intros [-> H].
    destruct (IH s H) as [b ->]. now exists b.
Qed.

Lemma occursb_occurs (old s : str) :
  occursb old s = true -> exists a b, s = a ++ old ++ b.
Proof.
  induction s as [|c s IH]; simpl; rewrite orb_true_iff.
  - intros [H|H]; [|discriminate].
    destruct (starts_with_app _ _ H) as [b ->]. now exists [], b.
  - intros [H|H].
    + destruct (starts_with_app _ _ H) as [b ->]. now exists [], b.
    + destruct (IH H) as (a & b & ->). now exists (c :: a), b.
Qed.

Lemma replace_absent (old new s : str) :
  occursb old s = false -> replace old new s = s.
Proof.
  destruct old as [|o old]; [now destruct s|].
  unfold replace. induction s as [|c s IH]; [reflexivity|].
  cbn [occursb]. rewrite orb_false_iff. intros [Hs Ho].
  cbn [replace_scan]. rewrite Hs. now rewrite IH.
Qed.

Lemma preprocess_changes (dictionary : list (str * str)) (text : str) :
  preprocess_text dictionary text <> text ->
  exists key, In key (map fst dictionary) /\ occursb key text = true.
Proof.
  unfold preprocess_text.
  induction dictionary as [|[jp en] d IH]; simpl; [congruence|].
  intros Hne. destruct (occursb jp text) eqn:Hocc.
  - exists jp. now split; [left|].
  - rewrite replace_absent in Hne by assumption.
    destruct (IH Hne) as (key & Hin & Hkey). exists key. now split; [right|].
Qed.

Lemma translate_text_name_changed {U : UnicodeDB} remote tc dictionary
  text uc rc st :
  preprocess_text dictionary text <> text ->
  translate_text remote tc dictionary text true uc rc st
  = (Return (preprocess_text dictionary text), st).
Proof.
  intros Hne. unfold translate_text.
  destruct (Z.to_nat _); simpl; unfold bind, get_state, str_eqb;
    rewrite bool_decide_eq_false_2 by assumption; reflexivity.
Qed.

(** C9: when the dictionary rewrites a name (which takes a key that
    occurs in it), [translate_text] returns the rewritten text at once
    and the state, trace included, is untouched; so a name for which a
    request is sent is one the dictionary leaves as it is. *)
Theorem name_dictionary_shortcut {U : UnicodeDB}
  (remote : list Event -> Request -> Outcome) (tc : TransConfig)
  (dictionary : list (str * str)) (text : str) (use_context : bool)
  (retry_count : Z) (st : State) :
  let preprocessed := preprocess_text dictionary text in
  let run := translate_text remote tc dictionary text true use_context
               retry_count st in
  (preprocessed <> text ->
     run = (Return preprocessed, st)
     /\ exists key, In key (map fst dictionary)
                    /\ exists a b, text = a ++ key ++ b)
  /\ (requests (trace (snd run)) <> requests (trace st) ->
      preprocessed = text).
Proof.
  intros preprocessed run. split.
  - intros Hne. split; [now apply translate_text_name_changed|].
    destruct (preprocess_changes _ _ Hne) as (key & Hin & Hocc).
    exists key. split; [assumption|]. now apply occursb_occurs.
  - intros Hreq. destruct (decide (preprocessed = text)) as [|Hne];
      [assumption|].
    exfalso. apply Hreq. subst run.
    now rewrite translate_text_name_changed.
Qed.

Lemma name_dictionary_shortcut_witness :
  translate_text Sample.down Sample.trans [(lit "Ta", lit "Tanaka")]
    (lit "Ta-san") true false 0 (Sample.state [])
  = (Return (lit "Tanaka-san"), Sample.state [])
  /\ preprocess_text [(lit "Ta", lit "Tanaka")] (lit "Sato") = lit "Sato".
Proof.
  split.
  - destruct (name_dictionary_shortcut (U := ascii_db) Sample.down
                Sample.trans [(lit "Ta", lit "Tanaka")] (lit "Ta-san")
                false 0 (Sample.state [])) as [H _].
    destruct H as [Hrun _]; [vm_compute; discriminate|].
    rewrite Hrun. vm_compute. reflexivity.
  - destruct (name_dictionary_shortcut (U := ascii_db) Sample.down
                Sample.trans [(lit "Ta", lit "Tanaka")] (lit "Sato")
                false 0 (Sample.state [])) as [_ H].
    apply H. vm_compute. discriminate.
Defined.

(** ** Reassembly of a batch reply *)

Lemma call_llm_success {U : UnicodeDB} remote tc text context st rq content :
  request_of (llm_config st) text context = Some rq ->
  remote (trace st) rq = Completion content ->
  call_llm remote tc text context 0 st
  = (Return (Some (strip content)),
     with_trace st (trace st ++ [EvRequest rq])).
Proof.
  intros Hrq Hremote. destruct st as [llm ctx d tr].
  unfold request_of in Hrq. cbn -[lit] in Hrq, Hremote.
  destruct llm as [[url|] [key|] [m|] [sys|] [temp|] [tok|] mp tp tk];
    try discriminate; cbn -[lit] in Hrq; apply (inj Some) in Hrq; subst rq.
  unfold call_llm.
  destruct (Z.to_nat _); cbn -[strip lit];
    unfold try_except, bind, post, get_state, emit; cbn -[strip lit];
    rewrite Hremote; reflexivity.
Qed.

Lemma parse_reply_lookup {U : UnicodeDB} (pre : list str) (reply : str) i :
  i < length pre ->
  parse_reply (length pre) pre reply !! i
  = if decide (i < length (parse_lines reply))
    then parse_lines reply !! i else pre !! i.
Proof.
  intros Hi. rewrite parse_reply_spec by reflexivity.
  rewrite lookup_take_lt by assumption.
  destruct (decide (i < length (parse_lines reply))) as [Hlt|Hge].
  - now rewrite lookup_app_l.
  - rewrite lookup_app_r by lia. rewrite lookup_drop. f_equal. lia.
Qed.

Lemma parse_line_empty {U : UnicodeDB} (line : str) :
  strip line = [] -> parse_line line = [].
Proof. unfold parse_line. now intros ->. Qed.

Lemma parse_line_numbered {U : UnicodeDB} (line ds : str) sep tail :
  numbered (strip line) ds sep tail ->
  parse_line line = [lstrip tail] /\ lstrip tail <> [].
Proof.
  intros Hnum.
  destruct (re_match_numbered_some _ _ _ _ Hnum (strip_last line))
    as [Hm Hne].
  split; [|assumption]. unfold parse_line. rewrite Hm.
  destruct Hnum as (-> & _). now destruct ds.
Qed.

Lemma parse_line_verbatim {U : UnicodeDB} (line : str) :
  strip line <> [] ->
  (forall ds sep tail, ~ numbered (strip line) ds sep tail) ->
  parse_line line = [strip line].
Proof.
  intros Hne Hnot. unfold parse_line.
  destruct (strip line) eqn:E; [contradiction|]. simpl.
  destruct (re_match_numbered _) eqn:Hm; [|reflexivity].
  destruct (re_match_numbered_inv _ _ Hm) as (ds & sep & tail & Hnum).
  now destruct (Hnot ds sep tail).
Qed.

Lemma strip_example_reply {U : UnicodeDB} : strip example_reply = example_reply.
Proof.
  rewrite strip_ascii_db; [vm_compute; reflexivity|].
  apply List.Forall_forall. intros c Hc. apply N.ltb_lt.
  revert c Hc. apply forallb_forall. vm_compute. reflexivity.
Qed.

Lemma parse_reply_example {U : UnicodeDB} (a b c : str) :
  parse_reply 3 [a; b; c] example_reply
  = [lit "Hello"; lit "World"; lit "Foo"].
Proof. unfold parse_reply. rewrite parse_lines_example. reflexivity. Qed.

(** C2: the reply is cut at its line feeds; a line that is blank once
    stripped gives nothing, a stripped line of digits, one of [.], [)],
    [:] and a remainder gives that remainder without its leading
    spaces, and any other line (a bare "1." included) is taken as it
    is, in order; the result has one entry per submitted unit, the
    recovered translations first and, past them, the preprocessed
    source of the same position; three units answered
    ["1. Hello\n2. World\n3. Foo"] come back as Hello, World, Foo, also
    through [translate_batch]. *)
Theorem batch_reply_reassembly {U : UnicodeDB}
  (remote : list Event -> Request -> Outcome) (tc : TransConfig)
  (dictionary : list (str * str)) (texts : list str) (reply : str) :
  let n := length texts in
  let preprocessed := map (preprocess_text dictionary) texts in
  let recovered := parse_lines reply in
  let result := parse_reply n preprocessed reply in
  join [nl] (split_nl (strip reply)) = strip reply
  /\ recovered = flat_map parse_line (split_nl (strip reply))
  /\ (forall line, strip line = [] -> parse_line line = [])
  /\ (forall line ds sep tail,
        numbered (strip line) ds sep tail ->
        parse_line line = [lstrip tail] /\ lstrip tail <> [])
  /\ (forall line,
        strip line <> [] ->
        (forall ds sep tail, ~ numbered (strip line) ds sep tail) ->
        parse_line line = [strip line])
  /\ length result = n
  /\ (forall i, i < n ->
        result !! i = if decide (i < length recovered)
                      then recovered !! i else preprocessed !! i)
  /\ (forall t1 t2 t3 use_context retry_count st rq,
        let units := [t1; t2; t3] in
        request_of (llm_config st)
          (batch_prompt (batch_context tc use_context st)
             (map (preprocess_text dictionary) units)) [] = Some rq ->
        remote (trace st) rq = Completion example_reply ->
        translate_batch remote tc dictionary units use_context retry_count st
        = (Return [lit "Hello"; lit "World"; lit "Foo"],
           with_trace st (trace st ++ [EvRequest rq]))).
Proof.
  intros n preprocessed recovered result.
  assert (Hlen : length preprocessed = n) by apply length_map.
  split; [apply split_nl_join|].
  split; [reflexivity|].
  split; [apply parse_line_empty|].
  split; [apply parse_line_numbered|].
  split; [apply parse_line_verbatim|].
  split; [now apply parse_reply_length|].
  split.
  - intros i Hi. subst result n. rewrite <- Hlen in *.
    now apply parse_reply_lookup.
  - intros t1 t2 t3 uc rc st rq units Hrq Hremote.
    pose proof (call_llm_success _ tc _ _ _ _ _ Hrq Hremote) as Hcall.
    rewrite strip_example_reply in Hcall.
    rewrite (translate_batch_accepts _ _ _ units _ _ _ example_reply _
               ltac:(subst units; discriminate)
               ltac:(vm_compute; discriminate) Hcall).
    + subst units. simpl length. simpl map. now rewrite parse_reply_example.
    + subst units. simpl length. simpl map. rewrite parse_reply_example.
      now rewrite andb_false_r.
Qed.

Lemma batch_reply_reassembly_witness :
  parse_line (lit "   ") = []
  /\ parse_line (lit " 2) World ") = [lit "World"]
  /\ parse_line (lit " World ") = [lit "World"]
  /\ parse_line (lit "1.") = [lit "1."]
  /\ parse_reply 3 [lit "a"; lit "b"; lit "c"]
       (lit "1. Hello" ++ [nl] ++ lit "2. World") !! 2 = Some (lit "c")
  /\ fst (translate_batch (Sample.constant example_reply) Sample.trans []
            [lit "a"; lit "b"; lit "c"] false 0 (Sample.state []))
     = Return [lit "Hello"; lit "World"; lit "Foo"].
Proof.
  destruct (batch_reply_reassembly (U := ascii_db)
              (Sample.constant example_reply) Sample.trans []
              [lit "a"; lit "b"; lit "c"]
              (lit "1. Hello" ++ [nl] ++ lit "2. World"))
    as (_ & _ & Hblank & Hnum & Hverb & _ & Hpad & Hrun).
  assert (Hnot : forall (line : str) c r,
            line = c :: r -> ascii_decimal c = false ->
            forall ds sep tail, ~ numbered line ds sep tail).
  { intros line c r -> Hc ds sep tail (Heq & Hds & Hdig & _).
    destruct ds as [|d ds]; [contradiction|].
    injection Heq as <- _. inversion Hdig; subst. simpl in *. congruence. }
  split; [apply Hblank; reflexivity|].
  split.
  { destruct (Hnum (lit " 2) World ") (lit "2") 41%N (lit " World"))
      as [H _]; [|exact H].
    repeat split; try discriminate. repeat constructor. }
  split.
  { apply Hverb; [discriminate|]. eapply Hnot; reflexivity. }
  split.
  { apply Hverb; [discriminate|].
    intros ds sep tail (Heq & Hds & Hdig & _ & Htail).
    destruct ds as [|d [|d' ds]]; [contradiction|..].
    - injection Heq as _ _ <-. contradiction.
    - injection Heq as _ <- _. inversion Hdig as [|? ? _ Hd]; subst.
      inversion Hd; subst. discriminate. }
  split.
  { change (parse_reply 3 [lit "a"; lit "b"; lit "c"])
      with (parse_reply (length [lit "a"; lit "b"; lit "c"])
              (map (preprocess_text []) [lit "a"; lit "b"; lit "c"])).
    rewrite (Hpad 2); [reflexivity|simpl; lia]. }
  erewrite Hrun; [reflexivity|reflexivity|reflexivity].
Defined.

(** ** Validation retries of a batch *)

Section BatchFrame.
Context {U : UnicodeDB}.
Variable remote : list Event -> Request -> Outcome.
Variable tc : TransConfig.
Variable dictionary : list (str * str).

Lemma quiet_translate_batch_rec fuel texts uc rc :
  preserves quiet (translate_batch_rec remote tc dictionary fuel texts uc rc).
Proof.
  revert rc. induction fuel as [|fuel IH]; intros rc;
    destruct texts; simpl; frame_rules quiet_refl quiet_trans.
Qed.

Lemma quiet_translate_batch texts uc rc :
  preserves quiet (translate_batch remote tc dictionary texts uc rc).
Proof. apply quiet_translate_batch_rec. Qed.

Lemma quiet_translate_text_rec fuel text is_name uc rc :
  preserves quiet
    (translate_text_rec remote tc dictionary fuel text is_name uc rc).
Proof.
  revert rc. induction fuel as [|fuel IH]; intros rc; simpl;
    frame_rules quiet_refl quiet_trans.
Qed.

Lemma quiet_translate_text text is_name uc rc :
  preserves quiet (translate_text remote tc dictionary text is_name uc rc).
Proof. apply quiet_translate_text_rec. Qed.

(** One translation per submitted text, whatever the service does. *)
Lemma translate_batch_rec_length fuel texts uc rc st ts :
  fst (translate_batch_rec remote tc dictionary fuel texts uc rc st)
  = Return ts ->
  length ts = length texts.
Proof.
  revert rc st. induction fuel as [|fuel IH]; intros rc st;
    destruct texts as [|t texts]; simpl;
    try (intros [= <-]; reflexivity).
  - unfold bind, get_state.
    destruct (call_llm _ _ _ _ _ st) as [[[[|c reply]|]|e] st1]; simpl;
      try discriminate;
      try (intros [= <-]; simpl; now rewrite length_map).
    destruct (_ && _ && _); simpl.
    + destruct (sleep _ st1) as [[[]|e] st2]; discriminate.
    + intros [= <-].
      change (S (length texts)) with (length (t :: texts)).
      apply parse_reply_length. simpl. now rewrite length_map.
  - unfold bind, get_state.
    destruct (call_llm _ _ _ _ _ st) as [[[[|c reply]|]|e] st1]; simpl;
      try discriminate;
      try (intros [= <-]; simpl; now rewrite length_map).
    destruct (_ && _ && _); simpl.
    + destruct (sleep _ st1) as [[[]|e] st2]; [|discriminate].
      apply IH.
    + intros [= <-].
      change (S (length texts)) with (length (t :: texts)).
      apply parse_reply_length. simpl. now rewrite length_map.
Qed.

Lemma translate_batch_length texts uc rc st ts :
  fst (translate_batch remote tc dictionary texts uc rc st) = Return ts ->
  length ts = length texts.
Proof. apply translate_batch_rec_length. Qed.

(** The writes of the first pass for one batch. *)
Lemma for_each_first_pass_item entries count failed st :
  for_each first_pass_item entries (count, failed) st
  = (Return ((count + Z.of_nat (length entries))%Z,
             failed ++ filter (fun e => contains_japanese (snd e) = true)
                              entries),
     mkState (llm_config st) (current_context st)
       (apply_writes entries (data st))
       (trace st ++ write_events entries)).
Proof.
  revert count failed st.
  induction entries as [|[item t] entries IH]; intros count failed st.
  - simpl. unfold ret. rewrite Z.add_0_r, !app_nil_r. now destruct st.
  - cbn [for_each]. rewrite bind_run. unfold first_pass_item at 1.
    rewrite bind_run, write_target_run. unfold ret.
    rewrite IH. simpl llm_config. simpl current_context. simpl data.
    simpl trace. f_equal.
    + f_equal. f_equal; [simpl length; lia|].
      rewrite filter_cons. simpl snd.
      destruct (contains_japanese t); simpl.
      * now rewrite <- app_assoc.
      * reflexivity.
    + f_equal. unfold write_events. simpl. now rewrite <- app_assoc.
Qed.

End BatchFrame.

#[export] Hint Resolve quiet_translate_batch quiet_translate_text : frame.

Lemma Qlt_bool_le d : Qlt_bool 0 d = true -> Qle_bool 0 d = true.
Proof.
  unfold Qlt_bool. rewrite negb_true_iff. intros H.
  apply Qle_bool_iff. apply Qlt_le_weak. apply Qnot_le_lt.
  intros Hle. apply Qle_bool_iff in Hle. congruence.
Qed.

Section FirstPass.
Context {U : UnicodeDB}.
Variable remote : list Event -> Request -> Outcome.
Variable tc : TransConfig.
Variable dictionary : list (str * str).

(** One batch of the first pass: after [translate_batch] has returned,
    every item of the batch is written once, in order; at most a pause
    follows. *)
Lemma first_pass_batch_run all_items bs nb count failed k st :
  let batch_items :=
    py_slice all_items (k * bs)
      (Z.min (k * bs + bs) (Z.of_nat (length all_items))) in
  match translate_batch remote tc dictionary
          (map original_text batch_items) false 0 st with
  | (Return translations, st1) =>
      let entries := zip batch_items translations in
      map (fun e => target (fst e)) entries = map target batch_items
      /\ exists pause,
           Forall (fun e => is_write e = false) pause
           /\ snd (first_pass_batch remote tc dictionary all_items bs nb
                     (count, failed) k st)
              = mkState (llm_config st1) (current_context st1)
                  (apply_writes entries (data st1))
                  (trace st1 ++ write_events entries ++ pause)
  | (Raise e, st1) =>
      first_pass_batch remote tc dictionary all_items bs nb (count, failed) k st
      = (Raise e, st1)
  end.
Proof.
  intros batch_items. unfold first_pass_batch. fold batch_items.
  rewrite bind_run.
  pose proof (translate_batch_length remote tc dictionary
                (map original_text batch_items) false 0 st) as Hlen.
  destruct (translate_batch _ _ _ _ _ _ st) as [[ts|e] st1]; [|reflexivity].
  specialize (Hlen ts eq_refl). rewrite length_map in Hlen.
  split.
  - rewrite <- (map_map fst target). f_equal. apply fst_zip. lia.
  - rewrite bind_run, for_each_first_pass_item.
    destruct (Qlt_bool 0 (default 0%Q (batch_delay tc))
              && (k <? nb - 1)%Z) eqn:Hpause.
    + apply andb_true_iff in Hpause as [Hd _].
      rewrite bind_run. unfold sleep. rewrite (Qlt_bool_le _ Hd).
      exists [EvSleep (default 0%Q (batch_delay tc))].
      split; [now repeat constructor|].
      simpl. now rewrite <- app_assoc.
    + exists []. split; [constructor|]. simpl. now rewrite !app_nil_r.
Qed.

End FirstPass.

(** C10, as the claim states it, fails: with [retry_on_japanese = false]
    a reply in Japanese is returned after a single request although the
    retry bound (2) is not exhausted; the batch is not submitted again. *)
Lemma validation_retry_counterexample :
  let tc := Sample.trans_unchecked in
  let remote := Sample.constant [0x3042%N] in
  let st := Sample.state [] in
  let run := translate_batch remote tc [] [lit "x"] false 0 st in
  (0 <? max_retries tc)%Z = true
  /\ contains_japanese [0x3042%N] = true
  /\ fst run = Return [[0x3042%N]]
  /\ length (requests (trace (snd run))) = 1
  /\ run <> (let* _ := sleep (validation_delay tc) in
             translate_batch remote tc [] [lit "x"] false 1)
            (snd (call_llm remote tc (batch_prompt [] [lit "x"]) [] 0 st)).
Proof.
  repeat split; try (vm_compute; reflexivity).
  intros H. apply (f_equal (fun r => length (requests (trace (snd r))))) in H.
  vm_compute in H. discriminate.
Qed.

(** C10, amended: when [retry_on_japanese] is enabled and the count is
    below the bound, a reply with a translation in Japanese makes
    [translate_batch] sleep and run again on the same texts with the
    next count, its result being that of the new run alone; with the
    check disabled or the bound reached the translations are returned as
    they are.  [translate_batch] itself writes no slot and leaves the
    record set alone; the first pass writes each item of a batch once,
    in order, after [translate_batch] has returned. *)
Theorem validation_retry_resubmits {U : UnicodeDB}
  (remote : list Event -> Request -> Outcome) (tc : TransConfig)
  (dictionary : list (str * str)) (texts : list str) (use_context : bool)
  (retry_count : Z) (st st1 : State) (reply : str) :
  let preprocessed := map (preprocess_text dictionary) texts in
  let translations := parse_reply (length texts) preprocessed reply in
  texts <> [] -> reply <> [] ->
  call_llm remote tc
    (batch_prompt (batch_context tc use_context st) preprocessed) [] 0 st
  = (Return (Some reply), st1) ->
  existsb contains_japanese translations = true ->
  (retry_on_japanese_setting tc = true ->
   (retry_count <? max_retries tc)%Z = true ->
   translate_batch remote tc dictionary texts use_context retry_count st
   = (let* _ := sleep (validation_delay tc) in
      translate_batch remote tc dictionary texts use_context
        (retry_count + 1)) st1)
  /\ (retry_on_japanese_setting tc = false
      \/ (retry_count <? max_retries tc)%Z = false ->
      translate_batch remote tc dictionary texts use_context retry_count st
      = (Return translations, st1))
  /\ preserves quiet
       (translate_batch remote tc dictionary texts use_context retry_count)
  /\ (forall all_items batch_size num_batches count failed batch_num st,
        let batch_items :=
          py_slice all_items (batch_num * batch_size)
            (Z.min (batch_num * batch_size + batch_size)
               (Z.of_nat (length all_items))) in
        match translate_batch remote tc dictionary
                (map original_text batch_items) false 0 st with
        | (Return translations, st1) =>
            let entries := zip batch_items translations in
            map (fun e => target (fst e)) entries = map target batch_items
            /\ exists pause,
                 Forall (fun e => is_write e = false) pause
                 /\ snd (first_pass_batch remote tc dictionary all_items
                           batch_size num_batches (count, failed)
                           batch_num st)
                    = mkState (llm_config st1) (current_context st1)
                        (apply_writes entries (data st1))
                        (trace st1 ++ write_events entries ++ pause)
        | (Raise e, st1) =>
            first_pass_batch remote tc dictionary all_items batch_size
              num_batches (count, failed) batch_num st
            = (Raise e, st1)
        end).
Proof.
  intros preprocessed translations Htexts Hreply Hcall Hjp.
  split; [|split; [|split]].
  - intros Hon Hlt. apply translate_batch_retries with (reply := reply);
      try assumption.
    all: fold preprocessed translations; now rewrite Hon, Hlt, Hjp.
  - intros Hoff. apply translate_batch_accepts; try assumption.
    all: destruct Hoff as [-> | ->]; [reflexivity|]; now rewrite andb_false_r.
  - apply quiet_translate_batch.
  - intros. apply first_pass_batch_run.
Qed.

Lemma validation_retry_resubmits_witness :
  let remote := Sample.constant [0x3042%N] in
  let st := Sample.state [] in
  let st1 := snd (call_llm remote Sample.trans
                    (batch_prompt [] [lit "x"]) [] 0 st) in
  translate_batch remote Sample.trans [] [lit "x"] false 0 st
  = (let* _ := sleep 1 in
     translate_batch remote Sample.trans [] [lit "x"] false 1) st1
  /\ translate_batch remote Sample.trans [] [lit "x"] false 2 st
     = (Return [[0x3042%N]], st1).
Proof.
  intros remote st st1.
  assert (Hcall : call_llm remote Sample.trans
                    (batch_prompt (batch_context Sample.trans false st)
                       (map (preprocess_text []) [lit "x"])) [] 0 st
                  = (Return (Some [0x3042%N]), st1))
    by (vm_compute; reflexivity).
  split.
  - refine (proj1 (validation_retry_resubmits (U := ascii_db) remote
                     Sample.trans [] [lit "x"] false 0 st st1 [0x3042%N]
                     _ _ Hcall _) _ _);
      solve [discriminate | reflexivity].
  - refine (proj1 (proj2 (validation_retry_resubmits (U := ascii_db) remote
                     Sample.trans [] [lit "x"] false 2 st st1 [0x3042%N]
                     _ _ Hcall _)) _);
      solve [discriminate | reflexivity | right; reflexivity].
Defined.

(** ** Targets in a record set *)

Lemma get_set_target t v blocks :
  valid_target t blocks -> get_target t (set_target t v blocks) = Some v.
Proof.
  destruct t as [i|i|i j]; simpl.
  - intros Hi. destruct (lookup_lt_is_Some_2 blocks i Hi) as [b Hb].
    rewrite list_lookup_alter_eq, Hb. reflexivity.
  - intros Hi. destruct (lookup_lt_is_Some_2 blocks i Hi) as [b Hb].
    rewrite list_lookup_alter_eq, Hb. reflexivity.
  - intros (b & cs & Hb & Hcs & Hj).
    rewrite list_lookup_alter_eq, Hb. simpl. rewrite Hcs. simpl.
    destruct (lookup_lt_is_Some_2 cs j Hj) as [c Hc].
    rewrite list_lookup_alter_eq, Hc. reflexivity.
Qed.

Lemma get_set_target_other t t' v blocks :
  t <> t' -> get_target t' (set_target t v blocks) = get_target t' blocks.
Proof.
  intros Hne.
  destruct t as [i|i|i j], t' as [i'|i'|i' j']; simpl;
    destruct (decide (i = i')) as [->|Hi];
    try (rewrite list_lookup_alter_ne by assumption; reflexivity);
    try congruence;
    rewrite list_lookup_alter_eq; destruct (blocks !! i') as [b|];
    try reflexivity; simpl.
  destruct (choices b) as [cs|]; [|reflexivity]. simpl.
  rewrite list_lookup_alter_ne by congruence. reflexivity.
Qed.

Lemma set_target_length t v blocks :
  length (set_target t v blocks) = length blocks.
Proof. destruct t; simpl; apply length_alter. Qed.

(** ** The second pass, item by item *)

Lemma second_pass_item_run count item old new st :
  second_pass_item count (item, old, new) st
  = if fixed_entry (item, old, new)
    then (Return (count + 1)%Z,
          mkState (llm_config st) (current_context st)
            (set_target (target item) new (data st))
            (trace st ++ [EvWrite (target item) new]))
    else (Return count, st).
Proof.
  unfold second_pass_item, fixed_entry. simpl.
  destruct (truthy new); [|reflexivity]. simpl.
  destruct (contains_japanese new); reflexivity.
Qed.

Lemma for_each_second_pass_item entries count st :
  let fixed := filter (fun e => fixed_entry e = true) entries in
  for_each second_pass_item entries count st
  = (Return (count + Z.of_nat (length fixed))%Z,
     mkState (llm_config st) (current_context st)
       (apply_writes (map (fun e => (fst (fst e), snd e)) fixed) (data st))
       (trace st
          ++ write_events (map (fun e => (fst (fst e), snd e)) fixed))).
Proof.
  revert count st.
  induction entries as [|[[item old] new] entries IH]; intros count st.
  - simpl. unfold ret. rewrite Z.add_0_r, app_nil_r. now destruct st.
  - cbn [for_each]. rewrite bind_run, second_pass_item_run.
    cbv zeta. rewrite filter_cons.
    destruct (fixed_entry (item, old, new)) eqn:Hfix; simpl decide;
      cbv iota; rewrite IH; cbv zeta.
    + simpl. f_equal; [f_equal; lia|]. f_equal.
      unfold write_events. simpl. now rewrite <- app_assoc.
    + reflexivity.
Qed.



(** ** The second pass and the configuration *)

Section SecondPass.
Context {U : UnicodeDB}.
Variable remote : list Event -> Request -> Outcome.
Variable tc : TransConfig.
Variable dictionary : list (str * str).

Lemma same_llm_write_target t v : preserves same_llm_config (write_target t v).
Proof. intros st. reflexivity. Qed.

Lemma same_llm_translate_batch texts uc rc :
  preserves same_llm_config (translate_batch remote tc dictionary texts uc rc).
Proof. apply quiet_same_llm_config, quiet_translate_batch. Qed.

Lemma same_llm_second_pass_batch failed bs count i :
  preserves same_llm_config
    (second_pass_batch remote tc dictionary failed bs count i).
Proof.
  unfold second_pass_batch.
  apply (preserves_bind _ same_llm_config_trans).
  - apply (preserves_try_except _ same_llm_config_trans).
    + apply (preserves_bind _ same_llm_config_trans);
        [apply same_llm_translate_batch|].
      intros a. apply (preserves_ret _ same_llm_config_refl).
    + intros e. apply (preserves_ret _ same_llm_config_refl).
  - intros [ts|]; [|apply (preserves_ret _ same_llm_config_refl)].
    destruct (forallb _ ts); [apply (preserves_ret _ same_llm_config_refl)|].
    apply (preserves_bind _ same_llm_config_trans).
    + intros st. rewrite for_each_second_pass_item. reflexivity.
    + intros a. apply (preserves_ret _ same_llm_config_refl).
Qed.

Lemma second_pass_batch_returns failed bs count i :
  raises_only (fun _ => False)
    (second_pass_batch remote tc dictionary failed bs count i).
Proof.
  unfold second_pass_batch.
  apply raises_only_bind.
  - apply raises_only_try_except. intros e st e'. discriminate.
  - intros [ts|]; [|apply raises_only_ret].
    destruct (forallb _ ts); [apply raises_only_ret|].
    apply raises_only_bind; [|intros; apply raises_only_ret].
    intros st e. rewrite for_each_second_pass_item. discriminate.
Qed.

(** The loop over the batches returns, with the configuration it was
    entered with. *)
Lemma second_pass_loop failed bs starts st :
  exists n,
    fst (for_each_break (second_pass_batch remote tc dictionary failed bs)
           starts 0%Z st) = Return n
    /\ llm_config
         (snd (for_each_break (second_pass_batch remote tc dictionary failed bs)
                 starts 0%Z st))
       = llm_config st.
Proof.
  pose proof (raises_only_for_each_break (fun _ => False)
                (second_pass_batch remote tc dictionary failed bs) starts 0%Z
                (second_pass_batch_returns failed bs) st) as Hraise.
  pose proof (preserves_for_each_break same_llm_config same_llm_config_refl
                same_llm_config_trans
                (second_pass_batch remote tc dictionary failed bs) starts 0%Z
                (same_llm_second_pass_batch failed bs) st) as Hllm.
  destruct (for_each_break _ starts 0%Z st) as [[n|e] st'] eqn:E.
  - exists n. split; [reflexivity|exact Hllm].
  - destruct (Hraise e eq_refl).
Qed.

End SecondPass.




(** ** Collection of the units to translate *)

Lemma fold_collect_choice idx (l : list (nat * Choice)) acc :
  fold_left (collect_choice idx) l acc = acc ++ flat_map (choice_unit idx) l.
Proof.
  revert acc. induction l as [|[j c] l IH]; intros acc; simpl.
  - now rewrite app_nil_r.
  - rewrite IH. destruct (_ && _); simpl; [|reflexivity].
    now rewrite <- app_assoc.
Qed.

Lemma fold_collect_block {U : UnicodeDB} (l : list (nat * Block)) a b c :
  fold_left collect_block l (a, b, c)
  = (a ++ flat_map name_unit l, b ++ flat_map text_unit l,
     c ++ flat_map choice_units l).
Proof.
  revert a b c. induction l as [|[idx block] l IH]; intros a b c.
  - simpl. now rewrite !app_nil_r.
  - cbn [fold_left flat_map]. unfold collect_block at 2. rewrite IH.
    unfold name_unit at 2, text_unit at 2, choice_units at 2.
    f_equal; [f_equal|].
    + destruct (_ && _ && _); [|reflexivity]. now rewrite <- app_assoc.
    + destruct (_ && _); [|reflexivity]. now rewrite <- app_assoc.
    + destruct (choices block) as [[|ch cs]|]; try reflexivity.
      rewrite fold_collect_choice. now rewrite <- app_assoc.
Qed.

(** The collected units: the names of all blocks, then the texts, then
    the choices, each kind in block order. *)
Lemma collect_items_spec {U : UnicodeDB} (blocks : list Block) :
  collect_items blocks
  = flat_map name_unit (enumerate blocks)
    ++ flat_map text_unit (enumerate blocks)
    ++ flat_map choice_units (enumerate blocks).
Proof. unfold collect_items. now rewrite fold_collect_block. Qed.

Lemma strip_space {U : UnicodeDB} : strip (lit " ") = [].
Proof.
  rewrite strip_ascii_db; [reflexivity|].
  repeat constructor.
Qed.

(** C3 at its failing input: of a block whose untranslated name, text
    and choice are one space each, the name is skipped but the text and
    the choice are collected. *)
Theorem collect_items_blank_text {U : UnicodeDB} :
  collect_items [Sample.blank_block]
  = [mkItem (TText 0) (lit " "); mkItem (TChoice 0 0) (lit " ")].
Proof.
  rewrite collect_items_spec. unfold enumerate. cbn [length seq zip zip_with].
  cbn [flat_map]. unfold name_unit, text_unit, choice_units.
  cbn [Sample.blank_block jpName enName jpText enText choices get_str
       default].
  rewrite strip_space. reflexivity.
Qed.

Lemma enumerate_lookup {A} (l : list A) i x :
  In (i, x) (enumerate l) -> l !! i = Some x.
Proof.
  unfold enumerate.
  assert (H : forall k, In (i, x) (zip (seq k (length l)) l) ->
                        k <= i /\ l !! (i - k) = Some x).
  { induction l as [|y l IH]; intros k; simpl; [easy|].
    intros [[= <- <-]|Hin].
    - split; [lia|]. now rewrite Nat.sub_diag.
    - destruct (IH (S k) Hin) as [Hk Hl]. split; [lia|].
      replace (i - k) with (S (i - S k)) by lia. exact Hl. }
  intros Hin. destruct (H 0 Hin) as [_ Hl]. now rewrite Nat.sub_0_r in Hl.
Qed.

(** Every collected unit refers to an object of the record set. *)
Lemma collect_items_valid {U : UnicodeDB} (blocks : list Block) :
  Forall (fun item => valid_target (target item) blocks)
         (collect_items blocks).
Proof.
  rewrite collect_items_spec. rewrite !Forall_app.
  repeat split; apply List.Forall_forall; intros item Hin;
    apply in_flat_map in Hin as [[idx b] [Hib Hin]];
    apply enumerate_lookup in Hib.
  - unfold name_unit in Hin. destruct (_ && _ && _); [|easy].
    destruct Hin as [<-|[]]. simpl. eapply lookup_lt_Some, Hib.
  - unfold text_unit in Hin. destruct (_ && _); [|easy].
    destruct Hin as [<-|[]]. simpl. eapply lookup_lt_Some, Hib.
  - unfold choice_units in Hin.
    destruct (choices b) as [cs|] eqn:Hcs; [|easy].
    apply in_flat_map in Hin as [[j c] [Hjc Hin]].
    apply enumerate_lookup in Hjc.
    unfold choice_unit in Hin. destruct (_ && _); [|easy].
    destruct Hin as [<-|[]]. simpl.
    exists b, cs. repeat split; try assumption.
    eapply lookup_lt_Some, Hjc.
Qed.

(** ** A record set that is already translated *)

Lemma str_eqb_nil_truthy (s : str) : truthy s = true -> str_eqb s [] = false.
Proof. destruct s; [discriminate|reflexivity]. Qed.

Lemma untranslated_false (jp en : str) :
  negb (truthy jp) || truthy en = true -> str_eqb en [] && truthy jp = false.
Proof.
  destruct (truthy jp); simpl; [|now rewrite andb_false_r].
  intros H. now rewrite str_eqb_nil_truthy.
Qed.

Section Populated.
Context {U : UnicodeDB}.
Variable remote : list Event -> Request -> Outcome.
Variable tc : TransConfig.
Variable dictionary : list (str * str).

Lemma populated_choice_unit idx (l : list (nat * Choice)) :
  Forall (fun jc => populated_choice (snd jc) = true) l ->
  flat_map (choice_unit idx) l = [].
Proof.
  induction 1 as [|[j c] l Hc _ IH]; simpl; [reflexivity|].
  unfold populated_choice in Hc. simpl in Hc.
  now rewrite (untranslated_false _ _ Hc).
Qed.

Lemma Forall_enumerate {A} (P : A -> Prop) (l : list A) :
  Forall P l -> Forall (fun ix => P (snd ix)) (enumerate l).
Proof.
  intros H. unfold enumerate. generalize 0.
  induction H as [|x l Hx _ IH]; intros k; simpl; constructor; auto.
Qed.

Lemma populated_units (l : list (nat * Block)) :
  Forall (fun ib => populated (snd ib) = true) l ->
  flat_map name_unit l = [] /\ flat_map text_unit l = []
  /\ flat_map choice_units l = [].
Proof.
  induction 1 as [|[idx b] l Hb _ (IHn & IHt & IHc)]; simpl; [easy|].
  unfold populated in Hb. simpl in Hb.
  apply andb_true_iff in Hb as [Hb Hch].
  apply andb_true_iff in Hb as [Hname Htext].
  rewrite IHn, IHt, IHc.
  rewrite (untranslated_false _ _ Hname), (untranslated_false _ _ Htext).
  repeat split. rewrite app_nil_r.
  destruct (choices b) as [cs|]; [|reflexivity]. simpl in Hch.
  apply populated_choice_unit.
  apply (Forall_enumerate (fun c => populated_choice c = true)).
  apply List.Forall_forall. now apply forallb_forall.
Qed.

Lemma populated_collect (blocks : list Block) :
  Forall (fun b => populated b = true) blocks -> collect_items blocks = [].
Proof.
  intros H. rewrite collect_items_spec.
  destruct (populated_units (enumerate blocks)) as (-> & -> & ->);
    [now apply (Forall_enumerate (fun b => populated b = true))|reflexivity].
Qed.

Lemma populated_batched st :
  Forall (fun b => populated b = true) (data st) ->
  _translate_json_batched remote tc dictionary st = (Return 0%Z, st).
Proof.
  intros H. unfold _translate_json_batched. rewrite bind_run.
  cbn [get_state]. now rewrite populated_collect.
Qed.

Lemma populated_sequential_choices idx (l : list (nat * Choice)) count st :
  Forall (fun jc => populated_choice (snd jc) = true) l ->
  for_each (sequential_choice remote tc dictionary idx) l count st
  = (Return count, st).
Proof.
  induction 1 as [|[j c] l Hc _ IH]; simpl; [reflexivity|].
  rewrite bind_run. unfold sequential_choice at 1.
  unfold populated_choice in Hc. simpl in Hc.
  rewrite (untranslated_false _ _ Hc). exact IH.
Qed.

Lemma populated_sequential_block count idx b st :
  populated b = true ->
  exists ctx,
    sequential_block remote tc dictionary count (idx, b) st
    = (Return count, mkState (llm_config st) ctx (data st) (trace st)).
Proof.
  intros Hb. unfold populated in Hb.
  apply andb_true_iff in Hb as [Hb Hch].
  apply andb_true_iff in Hb as [Hname Htext].
  unfold sequential_block.
  rewrite (untranslated_false _ _ Hname), (untranslated_false _ _ Htext).
  eexists.
  do 2 (rewrite bind_run; cbn [ret]). rewrite bind_run.
  unfold add_to_context. rewrite bind_run. cbn [get_state set_context].
  destruct (choices b) as [[|c cs]|]; try reflexivity.
  rewrite populated_sequential_choices; [reflexivity|].
  apply (Forall_enumerate (fun c => populated_choice c = true)).
  simpl in Hch. apply List.Forall_forall. now apply forallb_forall.
Qed.

Lemma populated_sequential_blocks (l : list (nat * Block)) count st :
  Forall (fun ib => populated (snd ib) = true) l ->
  exists ctx,
    for_each (sequential_block remote tc dictionary) l count st
    = (Return count, mkState (llm_config st) ctx (data st) (trace st)).
Proof.
  intros H. revert st. induction H as [|[idx b] l Hb _ IH]; intros st.
  - exists (current_context st). now destruct st.
  - cbn [for_each]. rewrite bind_run.
    destruct (populated_sequential_block count idx b st Hb) as [ctx ->].
    destruct (IH (mkState (llm_config st) ctx (data st) (trace st)))
      as [ctx' ->].
    now exists ctx'.
Qed.

Lemma populated_sequential st :
  Forall (fun b => populated b = true) (data st) ->
  exists ctx,
    _translate_json_sequential remote tc dictionary st
    = (Return 0%Z, mkState (llm_config st) ctx (data st) (trace st)).
Proof.
  intros H. unfold _translate_json_sequential. rewrite bind_run.
  cbn [get_state]. apply populated_sequential_blocks.
  now apply (Forall_enumerate (fun b => populated b = true)).
Qed.

(** The translation phase of [translate_json_file] on such a record set
    does nothing but reset and refill the context window. *)
Lemma populated_file input st :
  Forall (fun b => populated b = true) input ->
  exists ctx,
    translate_json_file remote tc dictionary input st
    = (Return (map clean_block input),
       mkState (llm_config st) ctx (map clean_block input) (trace st)).
Proof.
  intros H. unfold translate_json_file.
  rewrite bind_run. cbn [set_data]. rewrite bind_run.
  cbn [reset_context set_context llm_config current_context data trace].
  rewrite bind_run.
  destruct (default true (use_batch_translation tc)).
  - rewrite populated_batched by exact H.
    exists []. reflexivity.
  - destruct (populated_sequential
                (mkState (llm_config st) [] input (trace st)) H)
      as [ctx ->].
    exists ctx. reflexivity.
Qed.

End Populated.

Lemma clean_block_id {U : UnicodeDB} (b : Block) :
  no_placeholder b = true -> clean_block b = b.
Proof.
  unfold no_placeholder, clean_block.
  rewrite andb_true_iff, !negb_true_iff. intros [-> ->].
  now rewrite andb_false_r.
Qed.

Lemma clean_block_frame {U : UnicodeDB} (b : Block) :
  blockIdx (clean_block b) = blockIdx b
  /\ jpName (clean_block b) = jpName b
  /\ jpText (clean_block b) = jpText b
  /\ choices (clean_block b) = choices b
  /\ (enName (clean_block b) = enName b \/ enName (clean_block b) = Some [])
  /\ (enText (clean_block b) = enText b \/ enText (clean_block b) = Some []).
Proof.
  unfold clean_block.
  destruct (is_monologue (get_str (enName b)));
    destruct (_ && is_monologue _); simpl; auto 10.
Qed.

(** The cleanup pass blanks the name "Monologue" whatever the character
    database says outside ASCII. *)
Lemma clean_monologue_block {U : UnicodeDB} :
  clean_block Sample.monologue_block
  = mkBlock 1 (Some [0x72EC%N; 0x767D%N]) (Some [])
            (Some [0x3053%N; 0x3093%N]) (Some (lit "Hello")) None.
Proof.
  unfold clean_block, is_monologue. simpl get_str.
  rewrite !lower_ascii by (repeat constructor).
  replace (str_eqb (map ascii_lower (lit "Hello")) (lit "monologue"))
    with false by reflexivity.
  rewrite andb_false_r. reflexivity.
Qed.

Lemma populated_run_blanks_monologue {U : UnicodeDB} remote tc dictionary st :
  fst (translate_json_file remote tc dictionary [Sample.monologue_block] st)
  = Return [mkBlock 1 (Some [0x72EC%N; 0x767D%N]) (Some [])
              (Some [0x3053%N; 0x3093%N]) (Some (lit "Hello")) None].
Proof.
  destruct (populated_file remote tc dictionary [Sample.monologue_block] st)
    as [ctx ->]; [repeat constructor|].
  simpl. now rewrite clean_monologue_block.
Qed.

(** C1, as the claim states it, fails: a record set whose target fields
    are all filled, one of them with the name "Monologue", comes out of
    the run with that name blanked by the cleanup pass. *)
Lemma populated_run_counterexample :
  let input := [Sample.monologue_block] in
  let run := translate_json_file Sample.down Sample.trans [] input
               (Sample.state []) in
  forallb populated input = true
  /\ enName Sample.monologue_block = Some (lit "Monologue")
  /\ trace (snd run) = []
  /\ fst run
     = Return [mkBlock 1 (Some [0x72EC%N; 0x767D%N]) (Some [])
                 (Some [0x3053%N; 0x3093%N]) (Some (lit "Hello")) None]
  /\ fst run <> Return input.
Proof.
  repeat split; try (vm_compute; reflexivity).
  vm_compute. discriminate.
Qed.

(** C1, amended: on a record set in which every unit with a source text
    has a target text, a run of [translate_json_file], batched or
    sequential, adds no event at all (no request, no sleep, no write),
    leaves the configuration alone and returns the record set as the
    cleanup pass maps it: source fields, block indices and choices are
    untouched, and a target name or text is either kept or blanked; a
    record set without the "Monologue" placeholder is returned
    unchanged. *)
Theorem populated_run_idempotent {U : UnicodeDB}
  (remote : list Event -> Request -> Outcome) (tc : TransConfig)
  (dictionary : list (str * str)) (input : list Block) (st : State) :
  Forall (fun b => populated b = true) input ->
  let run := translate_json_file remote tc dictionary input st in
  fst run = Return (map clean_block input)
  /\ trace (snd run) = trace st
  /\ llm_config (snd run) = llm_config st
  /\ (forall b,
        blockIdx (clean_block b) = blockIdx b
        /\ jpName (clean_block b) = jpName b
        /\ jpText (clean_block b) = jpText b
        /\ choices (clean_block b) = choices b
        /\ (enName (clean_block b) = enName b
            \/ enName (clean_block b) = Some [])
        /\ (enText (clean_block b) = enText b
            \/ enText (clean_block b) = Some []))
  /\ (Forall (fun b => no_placeholder b = true) input ->
      fst run = Return input).
Proof.
  intros Hpop run. subst run.
  destruct (populated_file remote tc dictionary input st Hpop) as [ctx ->].
  cbn [fst snd trace llm_config].
  repeat split; try apply clean_block_frame.
  intros Hclean. f_equal. clear Hpop.
  induction Hclean as [|b l Hb _ IH]; simpl; [reflexivity|].
  now rewrite clean_block_id, IH.
Qed.

Lemma populated_run_idempotent_witness :
  let run := translate_json_file Sample.down Sample.trans []
               [Sample.translated_block] (Sample.state []) in
  fst run = Return [Sample.translated_block] /\ trace (snd run) = [].
Proof.
  intros run.
  assert (Hpop : Forall (fun b => populated b = true)
                   [Sample.translated_block]) by (repeat constructor).
  destruct (populated_run_idempotent (U := ascii_db) Sample.down
              Sample.trans [] [Sample.translated_block] (Sample.state [])
              Hpop) as (_ & Htrace & _ & _ & Hsame).
  split; [|exact Htrace].
  apply Hsame. repeat constructor.
Defined.

(** ** The recursion bounds of the model are never reached *)

Section Fuel.
Context {U : UnicodeDB}.
Variable remote : list Event -> Request -> Outcome.
Variable tc : TransConfig.
Variable dictionary : list (str * str).

Lemma lookup_key_no_recursion_error {A} key (f : option A) :
  raises_only no_recursion_error (lookup_key key f).
Proof.
  destruct f; [apply raises_only_ret|].
  apply raises_only_raise. discriminate.
Qed.

Lemma sleep_no_recursion_error d : raises_only no_recursion_error (sleep d).
Proof.
  unfold sleep. destruct (Qle_bool 0 d).
  - intros st e. discriminate.
  - apply raises_only_raise. discriminate.
Qed.

Lemma call_llm_rec_fuel fuel text context rc :
  Z.to_nat (default 0%Z (retry_attempts tc) - rc) <= fuel ->
  raises_only no_recursion_error
    (call_llm_rec remote tc fuel text context rc).
Proof.
  revert rc. induction fuel as [|fuel IH]; intros rc Hfuel; simpl;
    (apply raises_only_bind; [apply raises_only_get_state|intros st]);
    do 5 (apply raises_only_bind;
          [apply lookup_key_no_recursion_error|intros ?]);
    apply raises_only_try_except; intros e;
    destruct (retry_attempts tc) as [attempts|]; simpl in *;
    try (apply raises_only_raise; discriminate);
    unfold bind at 1; unfold ret at 1;
    destruct (Z.ltb_spec rc attempts); try apply raises_only_ret;
    (apply raises_only_bind;
     [apply lookup_key_no_recursion_error|intros ?]);
    (apply raises_only_bind; [apply sleep_no_recursion_error|intros ?]).
  - lia.
  - apply IH. lia.
Qed.

Lemma call_llm_fuel text context rc :
  raises_only no_recursion_error (call_llm remote tc text context rc).
Proof. apply call_llm_rec_fuel. reflexivity. Qed.

Lemma translate_batch_rec_fuel fuel texts uc rc :
  Z.to_nat (max_retries tc - rc) <= fuel ->
  raises_only no_recursion_error
    (translate_batch_rec remote tc dictionary fuel texts uc rc).
Proof.
  revert rc. induction fuel as [|fuel IH]; intros rc Hfuel;
    destruct texts as [|t texts]; simpl; try apply raises_only_ret;
    (apply raises_only_bind; [apply raises_only_get_state|intros st]);
    (apply raises_only_bind; [apply call_llm_fuel|intros [[|c reply]|]]);
    try apply raises_only_ret;
    destruct (Z.ltb_spec rc (max_retries tc));
    rewrite ?andb_false_r; simpl; try apply raises_only_ret;
    destruct (retry_on_japanese_setting tc && true && _);
    try apply raises_only_ret;
    (apply raises_only_bind; [apply sleep_no_recursion_error|intros ?]).
  - lia.
  - apply IH. lia.
Qed.

Lemma translate_batch_fuel texts uc rc :
  raises_only no_recursion_error
    (translate_batch remote tc dictionary texts uc rc).
Proof. apply translate_batch_rec_fuel. reflexivity. Qed.

Lemma translate_text_rec_fuel fuel text is_name uc rc :
  Z.to_nat (max_retries tc - rc) <= fuel ->
  raises_only no_recursion_error
    (translate_text_rec remote tc dictionary fuel text is_name uc rc).
Proof.
  revert rc. induction fuel as [|fuel IH]; intros rc Hfuel; simpl;
    (apply raises_only_bind; [apply raises_only_get_state|intros st]);
    destruct (is_name && _); try apply raises_only_ret;
    (apply raises_only_bind; [apply call_llm_fuel|intros [[|c reply]|]]);
    try apply raises_only_ret;
    destruct (Z.ltb_spec rc (max_retries tc));
    rewrite ?andb_false_r; simpl; try apply raises_only_ret;
    destruct (retry_on_japanese_setting tc && true && _);
    try apply raises_only_ret;
    (apply raises_only_bind; [apply sleep_no_recursion_error|intros ?]).
  - lia.
  - apply IH. lia.
Qed.

Lemma translate_text_fuel text is_name uc rc :
  raises_only no_recursion_error
    (translate_text remote tc dictionary text is_name uc rc).
Proof. apply translate_text_rec_fuel. reflexivity. Qed.

End Fuel.

(** ** A service that keeps answering in Japanese *)

Section Persistent.
Context {U : UnicodeDB}.
Variable remote : list Event -> Request -> Outcome.
Variable tc : TransConfig.
Variable dictionary : list (str * str).

(** When every reply to the batch prompt parses to translations with
    Japanese in them, [translate_batch] submits the batch once and then
    once more per allowed retry, sleeping in between, and returns the
    translations of the last reply. *)
Lemma translate_batch_exhausts texts uc st rq content :
  let pre := map (preprocess_text dictionary) texts in
  let translations := parse_reply (length texts) pre (strip content) in
  texts <> [] -> strip content <> [] ->
  request_of (llm_config st) (batch_prompt (batch_context tc uc st) pre) []
  = Some rq ->
  (forall tr, remote tr rq = Completion content) ->
  retry_on_japanese_setting tc = true ->
  Qle_bool 0 (validation_delay tc) = true ->
  existsb contains_japanese translations = true ->
  forall k rc,
    k = Z.to_nat (max_retries tc - rc) ->
    translate_batch remote tc dictionary texts uc rc st
    = (Return translations,
       with_trace st
         (trace st ++ EvRequest rq
            :: concat (replicate k [EvSleep (validation_delay tc);
                                    EvRequest rq]))).
Proof.
  intros pre translations Htexts Hreply Hrq Hremote Hon Hdelay Hjp.
  assert (Hcall : forall tr,
            call_llm remote tc (batch_prompt (batch_context tc uc st) pre)
              [] 0 (with_trace st tr)
            = (Return (Some (strip content)),
               with_trace st (tr ++ [EvRequest rq]))).
  { intros tr. apply (call_llm_success remote tc _ _ (with_trace st tr));
      [exact Hrq|apply Hremote]. }
  assert (Hgen : forall k rc tr,
            k = Z.to_nat (max_retries tc - rc) ->
            translate_batch remote tc dictionary texts uc rc (with_trace st tr)
            = (Return translations,
               with_trace st
                 (tr ++ EvRequest rq
                    :: concat (replicate k [EvSleep (validation_delay tc);
                                            EvRequest rq])))).
  { induction k as [|k IH]; intros rc tr Hk.
    - rewrite (translate_batch_accepts remote tc dictionary texts uc rc
                 (with_trace st tr) (strip content)
                 (with_trace st (tr ++ [EvRequest rq])) Htexts Hreply).
      + reflexivity.
      + apply Hcall.
      + destruct (Z.ltb_spec rc (max_retries tc)); [lia|].
        now rewrite andb_false_r.
    - rewrite (translate_batch_retries remote tc dictionary texts uc rc
                 (with_trace st tr) (strip content)
                 (with_trace st (tr ++ [EvRequest rq])) Htexts Hreply).
      + rewrite bind_run. unfold sleep. rewrite Hdelay.
        cbn [emit with_trace llm_config current_context data trace].
        change (mkState (llm_config st) (current_context st) (data st)
                  ((tr ++ [EvRequest rq]) ++ [EvSleep (validation_delay tc)]))
          with (with_trace st
                  ((tr ++ [EvRequest rq]) ++ [EvSleep (validation_delay tc)])).
        rewrite (IH (rc + 1)%Z) by lia.
        do 2 f_equal. simpl. now rewrite <- !app_assoc.
      + apply Hcall.
      + fold pre translations. rewrite Hon, Hjp.
        destruct (Z.ltb_spec rc (max_retries tc)); [reflexivity|lia]. }
  intros k rc Hk. specialize (Hgen k rc (trace st) Hk).
  now destruct st.
Qed.

End Persistent.

(** ** The count returned by the second pass *)

Lemma count_writes_app tr1 tr2 :
  count_writes (tr1 ++ tr2) = (count_writes tr1 + count_writes tr2)%Z.
Proof. unfold count_writes. rewrite filter_app, length_app. lia. Qed.

Lemma count_writes_quiet st st' :
  quiet st st' -> count_writes (trace st') = count_writes (trace st).
Proof.
  intros (_ & _ & _ & evs & -> & Hevs). rewrite count_writes_app.
  assert (count_writes evs = 0%Z) as ->; [|lia].
  unfold count_writes. induction Hevs as [|e evs He _ IH]; [reflexivity|].
  rewrite filter_cons. destruct (decide (is_write e = true)); [congruence|].
  exact IH.
Qed.

Lemma count_writes_events (entries : list (Item * str)) :
  count_writes (write_events entries) = Z.of_nat (length entries).
Proof.
  unfold count_writes, write_events. f_equal.
  induction entries as [|e entries IH]; [reflexivity|].
  simpl. now rewrite <- IH.
Qed.

Section SecondPassCount.
Context {U : UnicodeDB}.
Variable remote : list Event -> Request -> Outcome.
Variable tc : TransConfig.
Variable dictionary : list (str * str).

Lemma second_pass_batch_count failed bs count i st :
  match second_pass_batch remote tc dictionary failed bs count i st with
  | (Return (inl n), st') | (Return (inr n), st') =>
      (n - count = count_writes (trace st') - count_writes (trace st))%Z
  | (Raise _, _) => False
  end.
Proof.
  unfold second_pass_batch. rewrite bind_run. unfold try_except.
  rewrite bind_run.
  pose proof (quiet_translate_batch remote tc dictionary
                (map (fun e => original_text (fst e))
                   (py_slice failed i (i + bs))) false 0 st) as Hq.
  destruct (translate_batch _ _ _ _ _ _ st) as [[ts|e] st1]; simpl in Hq;
    apply count_writes_quiet in Hq; cbn [ret];
    [|lia].
  destruct (forallb _ ts); cbn [ret]; [lia|].
  rewrite bind_run, for_each_second_pass_item. cbn [ret trace].
  rewrite count_writes_app, count_writes_events, length_map. lia.
Qed.

Lemma second_pass_loop_count failed bs starts count st :
  match for_each_break (second_pass_batch remote tc dictionary failed bs)
          starts count st with
  | (Return n, st') =>
      (n - count = count_writes (trace st') - count_writes (trace st))%Z
  | (Raise _, _) => False
  end.
Proof.
  revert count st. induction starts as [|i starts IH]; intros count st.
  - simpl. lia.
  - cbn [for_each_break]. rewrite bind_run.
    pose proof (second_pass_batch_count failed bs count i st) as Hb.
    destruct (second_pass_batch _ _ _ _ _ _ _ st) as [[[n|n]|e] st1];
      [cbn [ret]; exact Hb| |contradiction].
    specialize (IH n st1).
    destruct (for_each_break _ starts n st1) as [[m|e] st2];
      [lia|contradiction].
Qed.

(** Whenever the second pass returns, the count it returns is the
    number of slots it has assigned. *)
Lemma second_pass_count failed st n :
  fst (_second_pass_translation remote tc dictionary failed st) = Return n ->
  n = (count_writes
         (trace (snd (_second_pass_translation remote tc dictionary failed st)))
       - count_writes (trace st))%Z.
Proof.
  destruct (_second_pass_translation remote tc dictionary failed st)
    as [r st'] eqn:Hrun.
  cbn [fst snd]. intros ->. unfold _second_pass_translation in Hrun.
  destruct failed as [|f failed]; [injection Hrun as <- <-; lia|].
  set (items := f :: failed) in *. clearbody items.
  rewrite bind_run in Hrun. cbn [get_state] in Hrun.
  destruct (model (llm_config st)) as [m|]; [|discriminate].
  destruct (temperature (llm_config st)) as [temp|]; [|discriminate].
  do 2 (rewrite bind_run in Hrun; cbn [lookup_key ret] in Hrun).
  destruct (str_eqb _ m); [injection Hrun as <- <-; lia|].
  rewrite bind_run in Hrun. unfold set_model_temperature at 1 in Hrun.
  rewrite bind_run in Hrun. cbn [get_state set_llm_config] in Hrun.
  rewrite bind_run in Hrun. unfold py_range_step in Hrun.
  destruct (default 25%Z (batch_size tc) =? 0)%Z; [discriminate|].
  assert (Hstarts : exists l,
            (if (default 25%Z (batch_size tc) <? 0)%Z
             then ret []
             else ret (map (fun k => (k * default 25%Z (batch_size tc))%Z)
                         (py_range ((Z.of_nat (length items)
                                     + default 25%Z (batch_size tc) - 1)
                                    / default 25%Z (batch_size tc)))))
            = ret l).
  { destruct (_ <? 0)%Z; eauto. }
  destruct Hstarts as [l Hl]. rewrite Hl in Hrun. cbn [ret] in Hrun.
  rewrite bind_run in Hrun.
  match type of Hrun with
  | context [for_each_break ?body l 0%Z ?s] =>
      pose proof (second_pass_loop_count items
                    (default 25%Z (batch_size tc)) l 0%Z s) as Hcount;
      destruct (for_each_break body l 0%Z s) as [[k|e] st''] eqn:Hloop
  end; [|contradiction].
  cbn [trace] in Hcount.
  rewrite bind_run in Hrun. unfold set_model_temperature in Hrun.
  rewrite bind_run in Hrun. cbn [get_state set_llm_config ret] in Hrun.
  injection Hrun as <- <-. cbn [trace]. lia.
Qed.

End SecondPassCount.

(** * Further properties of the code *)

(** ** The Japanese-script check *)

Lemma is_ascii_not_japanese c : is_ascii c -> japanese_char c = false.
Proof.
  unfold is_ascii, japanese_char. intros H.
  destruct (N.leb_spec 0x3040 c); [lia|].
  destruct (N.leb_spec 0x30A0 c); [lia|].
  destruct (N.leb_spec 0x4E00 c); [lia|]. reflexivity.
Qed.

Lemma contains_japanese_existsb (s : str) :
  contains_japanese s = existsb japanese_char s.
Proof. now destruct s. Qed.



(** ** [str.replace] and the dictionary *)

Lemma starts_with_prefix (p b : str) : starts_with p (p ++ b) = true.
Proof. induction p as [|a p IH]; simpl; [reflexivity|]. now rewrite N.eqb_refl. Qed.

Lemma replace_scan_skip (old new x b : str) :
  replace_scan old new (length x) (x ++ b) = replace_scan old new 0 b.
Proof.
  induction x as [|c x IH]; simpl; [|exact IH].
  destruct b; reflexivity.
Qed.

Lemma replace_scan_head (old new b : str) :
  old <> [] ->
  replace_scan old new 0 (old ++ b) = new ++ replace_scan old new 0 b.
Proof.
  destruct old as [|o old]; [contradiction|]. intros _.
  change ((o :: old) ++ b) with (o :: (old ++ b)).
  cbn [replace_scan].
  change (o :: old ++ b) with ((o :: old) ++ b).
  rewrite starts_with_prefix.
  replace (length (o :: old) - 1) with (length old) by (simpl; lia).
  now rewrite replace_scan_skip.
Qed.

Lemma replace_scan_same (old : str) n :
  old <> [] -> forall s, length s <= n -> replace_scan old old 0 s = s.
Proof.
  intros Hold. induction n as [|n IH]; intros s Hlen.
  - destruct s; [reflexivity|simpl in Hlen; lia].
  - destruct s as [|c s]; [reflexivity|].
    destruct (starts_with old (c :: s)) eqn:Hs.
    + destruct (starts_with_app _ _ Hs) as [b Hb]. rewrite Hb.
      rewrite replace_scan_head by assumption. f_equal. apply IH.
      apply (f_equal (@length N)) in Hb. rewrite length_app in Hb.
      simpl in Hb, Hlen. destruct old; [contradiction|]. simpl in Hb. lia.
    + cbn [replace_scan]. rewrite Hs. f_equal. apply IH. simpl in Hlen. lia.
Qed.

Lemma replace_empty_same (new s : str) :
  length (replace [] new s) = length s + (length s + 1) * length new.
Proof.
  unfold replace. rewrite length_app.
  induction s as [|c s IH]; simpl; [lia|].
  rewrite length_app in *. lia.
Qed.

(** [str.replace] as the dictionary uses it: a pattern that does not
    occur changes nothing; replacing a pattern by itself changes
    nothing; an occurrence at the start of the text is replaced and the
    scan goes on behind it; an empty pattern puts the replacement before
    every character and at the end. *)
Theorem replace_laws (old new s : str) :
  (occursb old s = false -> replace old new s = s)
  /\ replace old old s = s
  /\ (old <> [] -> replace old new (old ++ s) = new ++ replace old new s)
  /\ length (replace [] new s) = length s + (length s + 1) * length new.
Proof.
  split; [apply replace_absent|]. split; [|split].
  - destruct old as [|o old].
    + unfold replace. simpl. induction s as [|c s IH]; [reflexivity|].
      simpl. now rewrite IH.
    + unfold replace. now apply (replace_scan_same _ (length s)).
  - intros Hold. destruct old as [|o old]; [contradiction|].
    unfold replace. now apply replace_scan_head.
  - apply replace_empty_same.
Qed.

Lemma replace_laws_witness :
  replace (lit "san") (lit "-san") (lit "Tanaka") = lit "Tanaka"
  /\ replace (lit "Ta") (lit "Da") (lit "Tanaka-Ta")
     = lit "Da" ++ replace (lit "Ta") (lit "Da") (lit "naka-Ta").
Proof.
  split.
  - exact (proj1 (replace_laws (lit "san") (lit "-san") (lit "Tanaka"))
             eq_refl).
  - refine (proj1 (proj2 (proj2 (replace_laws (lit "Ta") (lit "Da")
                                   (lit "naka-Ta")))) _).
    discriminate.
Defined.

(** [preprocess_text]: the entries of the dictionary apply one after the
    other, each to the output of those before it; entries that map a
    term to itself, or whose terms do not occur in the text, leave it as
    it is; an empty text stays empty unless some entry has the empty
    term. *)
Theorem preprocess_text_laws (d1 d2 : list (str * str)) (text : str) :
  preprocess_text (d1 ++ d2) text
  = preprocess_text d2 (preprocess_text d1 text)
  /\ (Forall (fun kv => fst kv = snd kv) d1 ->
      preprocess_text d1 text = text)
  /\ (Forall (fun kv => occursb (fst kv) text = false) d1 ->
      preprocess_text d1 text = text)
  /\ (Forall (fun kv => fst kv <> []) d1 -> preprocess_text d1 [] = []).
Proof.
  unfold preprocess_text. split; [apply fold_left_app|].
  split; [|split]; intros H; induction H as [|[k v] d Hkv _ IH];
    simpl in *; try reflexivity.
  - subst v. destruct (replace_laws k k text) as (_ & -> & _). exact IH.
  - now rewrite replace_absent.
  - destruct k; [contradiction|]. exact IH.
Qed.

Lemma preprocess_text_laws_witness :
  preprocess_text [(lit "DVD", lit "DVD")] (lit "DVD-san") = lit "DVD-san"
  /\ preprocess_text [(lit "Ta", lit "Tanaka")] (lit "Sato") = lit "Sato"
  /\ preprocess_text [(lit "Ta", lit "Tanaka")] [] = [].
Proof.
  split; [|split].
  - refine (proj1 (proj2 (preprocess_text_laws [(lit "DVD", lit "DVD")] []
                            (lit "DVD-san"))) _).
    repeat constructor.
  - refine (proj1 (proj2 (proj2 (preprocess_text_laws
                                   [(lit "Ta", lit "Tanaka")] []
                                   (lit "Sato")))) _).
    repeat constructor.
  - refine (proj2 (proj2 (proj2 (preprocess_text_laws
                                   [(lit "Ta", lit "Tanaka")] [] []))) _).
    repeat constructor. discriminate.
Defined.

(** ** Stripping *)

Section StripFacts.
Context {U : UnicodeDB}.

Lemma lstrip_idem (s : str) : lstrip (lstrip s) = lstrip s.
Proof.
  induction s as [|c s IH]; simpl; [reflexivity|].
  destruct (isspace c) eqn:Hc; [exact IH|]. simpl. now rewrite Hc.
Qed.

Lemma lstrip_app_keep (l r : str) c :
  isspace c = false -> lstrip (l ++ c :: r) = lstrip l ++ c :: r.
Proof.
  intros Hc. induction l as [|d l IH]; simpl.
  - now rewrite Hc.
  - destruct (isspace d); [exact IH|reflexivity].
Qed.

Lemma rstrip_idem (s : str) : rstrip (rstrip s) = rstrip s.
Proof. unfold rstrip. now rewrite rev_involutive, lstrip_idem. Qed.

Lemma rstrip_cons_keep c (r : str) :
  isspace c = false -> rstrip (c :: r) = c :: rstrip r.
Proof.
  intros Hc. unfold rstrip. simpl rev.
  rewrite lstrip_app_keep by assumption.
  rewrite rev_app_distr. reflexivity.
Qed.

Lemma lstrip_strip (s : str) : lstrip (strip s) = strip s.
Proof.
  unfold strip. destruct (lstrip s) as [|c r] eqn:E; [reflexivity|].
  pose proof (lstrip_head _ _ _ E) as Hc.
  rewrite rstrip_cons_keep by assumption. simpl. now rewrite Hc.
Qed.

(** [strip] leaves nothing more to strip. *)
Lemma strip_idem (s : str) : strip (strip s) = strip s.
Proof.
  unfold strip at 1. rewrite lstrip_strip.
  unfold strip. apply rstrip_idem.
Qed.

End StripFacts.

(** ** Rules for [ensures] *)

Section Ensures.
Variable R : State -> State -> Prop.
Hypothesis R_refl : forall st, R st st.
Hypothesis R_trans : forall a b c, R a b -> R b c -> R a c.

Lemma ensures_ret {A} (Q : A -> Prop) a : Q a -> ensures R Q (ret a).
Proof using R_refl. intros Ha st. split; [apply R_refl|]. now intros ? [= <-]. Qed.

Lemma ensures_raise {A} (Q : A -> Prop) e : ensures R Q (raise e).
Proof using R_refl. intros st. split; [apply R_refl|discriminate]. Qed.

Lemma ensures_get_state (Q : State -> Prop) :
  (forall st, Q st) -> ensures R Q get_state.
Proof using R_refl. intros HQ st. split; [apply R_refl|]. now intros ? [= <-]. Qed.

Lemma ensures_lookup_key {A} (Q : A -> Prop) key (f : option A) :
  (forall a, f = Some a -> Q a) -> ensures R Q (lookup_key key f).
Proof using R_refl.
  intros HQ. destruct f; [apply ensures_ret; auto|apply ensures_raise].
Qed.

Lemma ensures_bind {A B} (Q1 : A -> Prop) (Q2 : B -> Prop) (m : M A)
  (k : A -> M B) :
  ensures R Q1 m -> (forall a, Q1 a -> ensures R Q2 (k a)) ->
  ensures R Q2 (bind m k).
Proof using R_trans.
  intros Hm Hk st. unfold bind. destruct (Hm st) as [HR HQ].
  destruct (m st) as [[a|e] st1]; simpl in *; [|split; [assumption|discriminate]].
  destruct (Hk a (HQ a eq_refl) st1) as [HR' HQ'].
  split; [eapply R_trans; eassumption|assumption].
Qed.

Lemma ensures_try_except {A} (Q : A -> Prop) (m : M A) h :
  ensures R Q m -> (forall e, ensures R Q (h e)) ->
  ensures R Q (try_except m h).
Proof using R_trans.
  intros Hm Hh st. unfold try_except. destruct (Hm st) as [HR HQ].
  destruct (m st) as [[a|e] st1]; simpl in *; [now split|].
  destruct (Hh e st1) as [HR' HQ'].
  split; [eapply R_trans; eassumption|assumption].
Qed.

Lemma ensures_weaken {A} (Q Q' : A -> Prop) (m : M A) :
  (forall a, Q a -> Q' a) -> ensures R Q m -> ensures R Q' m.
Proof.
  intros HQ Hm st. destruct (Hm st) as [HR H]. split; [assumption|].
  intros a Ha. now apply HQ, H.
Qed.

Lemma ensures_preserves {A} (m : M A) :
  preserves R m -> ensures R (fun _ => True) m.
Proof. intros H st. split; [apply H|easy]. Qed.

Lemma ensures_for_each {A B} (I : B -> Prop) (body : B -> A -> M B) l acc :
  I acc ->
  (forall b x, I b -> In x l -> ensures R I (body b x)) ->
  ensures R I (for_each body l acc).
Proof using R_refl R_trans.
  revert acc. induction l as [|x l IH]; intros acc Hacc Hbody; simpl.
  - now apply ensures_ret.
  - eapply ensures_bind; [apply Hbody; [assumption|now left]|].
    intros b Hb. apply IH; [assumption|]. intros. apply Hbody; auto.
    now right.
Qed.

Lemma ensures_for_each_break {A B} (I : B -> Prop)
  (body : B -> A -> M (B + B)) l acc :
  I acc ->
  (forall b x, I b -> In x l ->
     ensures R (fun r => match r with inl c | inr c => I c end) (body b x)) ->
  ensures R I (for_each_break body l acc).
Proof using R_refl R_trans.
  revert acc. induction l as [|x l IH]; intros acc Hacc Hbody; simpl.
  - now apply ensures_ret.
  - eapply ensures_bind; [apply Hbody; [assumption|now left]|].
    intros [b|b] Hb; [now apply ensures_ret|].
    apply IH; [assumption|]. intros. apply Hbody; auto. now right.
Qed.

End Ensures.

Lemma ensures_relation {A} (R R' : State -> State -> Prop) (Q : A -> Prop)
  (m : M A) :
  (forall st st', R st st' -> R' st st') -> ensures R Q m -> ensures R' Q m.
Proof. intros HR Hm st. destruct (Hm st). split; auto. Qed.

Lemma ensures_returns {A} (R : State -> State -> Prop) (Q : A -> Prop)
  (m : M A) st a :
  ensures R Q m -> fst (m st) = Return a -> Q a.
Proof. intros Hm. apply Hm. Qed.

Lemma ensures_state {A} (R : State -> State -> Prop) (Q : A -> Prop)
  (m : M A) st :
  ensures R Q m -> R st (snd (m st)).
Proof. intros Hm. apply Hm. Qed.

(** ** What the client and the translators return *)

Ltac ensures_step Hr Ht :=
  eapply (ensures_bind _ Ht);
  [apply ensures_preserves; frame_rules Hr Ht|intros ? _].

Section Returns.
Context {U : UnicodeDB}.
Variable remote : list Event -> Request -> Outcome.
Variable tc : TransConfig.
Variable dictionary : list (str * str).

Lemma call_llm_rec_stripped fuel text context rc :
  ensures quiet stripped (call_llm_rec remote tc fuel text context rc).
Proof.
  revert rc. induction fuel as [|fuel IH]; intros rc; simpl;
    do 6 ensures_step quiet_refl quiet_trans;
    (apply (ensures_try_except _ quiet_trans);
     [do 2 ensures_step quiet_refl quiet_trans;
      apply (ensures_ret _ quiet_refl); intros t [= <-]; apply strip_idem
     |intros e; ensures_step quiet_refl quiet_trans;
      match goal with |- ensures _ _ (if ?b then _ else _) => destruct b end;
      [do 2 ensures_step quiet_refl quiet_trans
      |apply (ensures_ret _ quiet_refl); intros t; discriminate]]).
  - apply (ensures_raise _ quiet_refl).
  - apply IH.
Qed.

Lemma call_llm_stripped text context rc :
  ensures quiet stripped (call_llm remote tc text context rc).
Proof. apply call_llm_rec_stripped. Qed.

Lemma translate_text_rec_result fuel text is_name uc rc :
  ensures quiet (text_result dictionary text)
    (translate_text_rec remote tc dictionary fuel text is_name uc rc).
Proof.
  revert rc. induction fuel as [|fuel IH]; intros rc; simpl;
    ensures_step quiet_refl quiet_trans;
    (destruct (is_name && _);
     [apply (ensures_ret _ quiet_refl); now left|]);
    (eapply (ensures_bind _ quiet_trans); [apply call_llm_stripped|]);
    intros [[|c t]|] Hs; try (apply (ensures_ret _ quiet_refl); now left);
    (destruct (_ && _ && _);
     [ensures_step quiet_refl quiet_trans
     |apply (ensures_ret _ quiet_refl); right; split;
      [discriminate|now apply Hs]]).
  - apply (ensures_raise _ quiet_refl).
  - apply IH.
Qed.

End Returns.

(** What [call_llm] returns has no space at either end: the reply goes
    through [strip] and stripping it again changes nothing. *)
Theorem call_llm_returns_stripped {U : UnicodeDB}
  (remote : list Event -> Request -> Outcome) (tc : TransConfig)
  (text context : str) (retry_count : Z) (st : State) (t : str) :
  fst (call_llm remote tc text context retry_count st) = Return (Some t) ->
  strip t = t.
Proof.
  intros H.
  exact (ensures_returns _ _ _ _ _
           (call_llm_stripped remote tc text context retry_count) H t eq_refl).
Qed.

Lemma call_llm_returns_stripped_witness :
  strip (lit "Hello") = lit "Hello".
Proof.
  apply (call_llm_returns_stripped (U := ascii_db)
           (Sample.constant (lit "  Hello  ")) Sample.trans (lit "text") [] 0
           (Sample.state [])).
  vm_compute. reflexivity.
Defined.



(** ** Requests and missing settings of the client *)

Lemma requests_app tr1 tr2 : requests (tr1 ++ tr2) = requests tr1 ++ requests tr2.
Proof. apply omap_app. Qed.

Section ClientBounds.
Context {U : UnicodeDB}.
Variable remote : list Event -> Request -> Outcome.
Variable tc : TransConfig.

Lemma call_llm_rec_requests fuel text context :
  forall rc st,
    length (requests (trace (snd (call_llm_rec remote tc fuel text context
                                    rc st))))
    <= length (requests (trace st)) + S fuel.
Proof.
  assert (Hreq : forall tr rq,
            length (requests (tr ++ [EvRequest rq]))
            = S (length (requests tr))).
  { intros. rewrite requests_app, length_app. simpl. lia. }
  assert (Hsleep : forall tr q,
            length (requests (tr ++ [EvSleep q])) = length (requests tr)).
  { intros. rewrite requests_app, length_app. simpl. lia. }
  induction fuel as [|fuel IH]; intros rc [llm ctx d tr];
    destruct llm as [url [key|] [m|] [sys|] [temp|] [tok|] mp tp tk];
    cbn -[strip requests]; try lia;
    unfold try_except, bind, post, get_state, emit, lookup_key, ret, raise;
    cbn -[strip requests];
    (destruct url as [url|]; cbn -[strip requests];
     [destruct (remote tr _); cbn -[strip requests];
      [rewrite Hreq; lia|]|]);
    destruct (retry_attempts tc) as [attempts|]; cbn -[strip requests];
    rewrite ?Hreq; try lia;
    destruct (rc <? attempts)%Z; cbn -[strip requests];
    rewrite ?Hreq; try lia;
    destruct (retry_delay tc) as [delay|]; cbn -[strip requests];
    rewrite ?Hreq; try lia;
    unfold sleep, emit, raise; destruct (Qle_bool 0 delay);
    cbn -[strip requests]; rewrite ?Hreq; try lia.
  all: try (match goal with
       | |- context [call_llm_rec _ _ _ _ _ ?r ?s] =>
           pose proof (IH r s) as Hrec;
           destruct (call_llm_rec remote tc fuel text context r s)
             as [res st'] eqn:E
       end;
       cbn -[strip requests] in *; rewrite ?Hsleep, ?Hreq in Hrec; lia).
  all: rewrite ?Hsleep, ?Hreq; lia.
Qed.

End ClientBounds.

(** One call of [call_llm] sends at most [retry_attempts] + 1 requests,
    whatever the service answers and whatever else is configured. *)
Theorem call_llm_request_bound {U : UnicodeDB}
  (remote : list Event -> Request -> Outcome) (tc : TransConfig)
  (text context : str) (st : State) :
  length (requests (trace (snd (call_llm remote tc text context 0 st))))
  <= length (requests (trace st))
     + S (Z.to_nat (default 0%Z (retry_attempts tc))).
Proof.
  unfold call_llm. rewrite Z.sub_0_r. apply call_llm_rec_requests.
Qed.

Section MissingSettings.
Context {U : UnicodeDB}.
Variable remote : list Event -> Request -> Outcome.
Variable tc : TransConfig.

Lemma call_llm_rec_key_error fuel text context rc st :
  api_key (llm_config st) = None \/ model (llm_config st) = None
  \/ system_prompt (llm_config st) = None
  \/ temperature (llm_config st) = None
  \/ max_tokens (llm_config st) = None ->
  exists key,
    call_llm_rec remote tc fuel text context rc st = (Raise (KeyError key), st).
Proof.
  intros H. destruct st as [llm ctx d tr].
  destruct llm as [url [key|] [m|] [sys|] [temp|] [tok|] mp tp tk];
    simpl in H; try (exfalso; intuition discriminate);
    destruct fuel; eexists; reflexivity.
Qed.

Lemma call_llm_rec_no_url text context attempts delay :
  retry_attempts tc = Some attempts ->
  retry_delay tc = Some delay ->
  Qle_bool 0 delay = true ->
  forall fuel rc st,
    api_url (llm_config st) = None ->
    api_key (llm_config st) <> None -> model (llm_config st) <> None ->
    system_prompt (llm_config st) <> None ->
    temperature (llm_config st) <> None ->
    max_tokens (llm_config st) <> None ->
    fuel = Z.to_nat (attempts - rc) ->
    call_llm_rec remote tc fuel text context rc st
    = (Return None,
       with_trace st (trace st ++ replicate fuel (EvSleep delay))).
Proof.
  intros Hatt Hdel Hpos fuel.
  induction fuel as [|fuel IH]; intros rc [llm ctx d tr];
    destruct llm as [[url|] [key|] [m|] [sys|] [temp|] [tok|] mp tp tk];
    simpl; intros Hurl Hkey Hm Hsys Htemp Htok Hfuel;
    try discriminate; try contradiction;
    unfold try_except, bind, get_state, lookup_key, ret, raise; simpl;
    rewrite Hatt; simpl.
  - destruct (Z.ltb_spec rc attempts); [lia|].
    unfold with_trace. simpl. now rewrite app_nil_r.
  - destruct (Z.ltb_spec rc attempts); [|lia].
    rewrite Hdel. simpl. unfold sleep. rewrite Hpos.
    unfold emit. simpl.
    rewrite (IH (rc + 1)%Z); simpl; try easy; [|lia].
    unfold with_trace. simpl. now rewrite <- app_assoc.
Qed.

End MissingSettings.

(** Settings [call_llm] cannot do without: when [api_key], [model],
    [system_prompt], [temperature] or [max_tokens] is missing the call
    raises [KeyError] before anything is sent or slept; a missing
    [api_url] is caught like a transport failure instead, so the call
    sleeps [retry_attempts] times, sends nothing and answers [None]. *)
Theorem call_llm_missing_setting {U : UnicodeDB}
  (remote : list Event -> Request -> Outcome) (tc : TransConfig)
  (text context : str) (st : State) :
  (api_key (llm_config st) = None \/ model (llm_config st) = None
   \/ system_prompt (llm_config st) = None
   \/ temperature (llm_config st) = None
   \/ max_tokens (llm_config st) = None ->
   exists key,
     call_llm remote tc text context 0 st = (Raise (KeyError key), st))
  /\ (forall attempts delay,
        api_url (llm_config st) = None ->
        api_key (llm_config st) <> None -> model (llm_config st) <> None ->
        system_prompt (llm_config st) <> None ->
        temperature (llm_config st) <> None ->
        max_tokens (llm_config st) <> None ->
        retry_attempts tc = Some attempts ->
        retry_delay tc = Some delay ->
        Qle_bool 0 delay = true ->
        call_llm remote tc text context 0 st
        = (Return None,
           with_trace st
             (trace st ++ replicate (Z.to_nat attempts) (EvSleep delay)))).
Proof.
  split.
  - apply call_llm_rec_key_error.
  - intros attempts delay Hurl Hkey Hm Hsys Htemp Htok Hatt Hdel Hpos.
    unfold call_llm. rewrite Hatt. simpl. rewrite Z.sub_0_r.
    apply call_llm_rec_no_url with (attempts := attempts);
      try assumption. lia.
Qed.

Lemma call_llm_missing_setting_witness :
  (exists key,
     call_llm Sample.down Sample.trans (lit "text") [] 0
       (mkState Sample.llm_no_key [] [] [])
     = (Raise (KeyError key), mkState Sample.llm_no_key [] [] []))
  /\ call_llm Sample.down Sample.trans (lit "text") [] 0
       (mkState Sample.llm_no_url [] [] [])
     = (Return None,
        mkState Sample.llm_no_url [] [] [EvSleep 1; EvSleep 1]).
Proof.
  split.
  - apply (proj1 (call_llm_missing_setting (U := ascii_db) Sample.down
                    Sample.trans (lit "text") []
                    (mkState Sample.llm_no_key [] [] []))).
    left. reflexivity.
  - apply (proj2 (call_llm_missing_setting (U := ascii_db) Sample.down
                    Sample.trans (lit "text") []
                    (mkState Sample.llm_no_url [] [] [])) 2%Z 1%Q);
      solve [reflexivity | discriminate].
Defined.

(** ** The translations of a batch *)

Section ReplyEntries.
Context {U : UnicodeDB}.

Lemma lstrip_In (s : str) c : In c (lstrip s) -> In c s.
Proof.
  induction s as [|d s IH]; simpl; [easy|].
  destruct (isspace d); [auto|]. simpl. tauto.
Qed.

Lemma strip_In (s : str) c : In c (strip s) -> In c s.
Proof.
  unfold strip, rstrip. intros H.
  apply in_rev, lstrip_In in H. apply in_rev in H. now apply lstrip_In.
Qed.

Lemma span_In (p : N -> bool) (s : str) c :
  In c (fst (span p s)) \/ In c (snd (span p s)) -> In c s.
Proof.
  destruct (span_split p s) as [Hs _]. rewrite Hs at 3.
  rewrite in_app_iff. tauto.
Qed.

Lemma split_nl_In (s l : str) c : In l (split_nl s) -> In c l -> In c s.
Proof.
  revert l. induction s as [|d s IH]; intros l; simpl.
  - intros [<-|[]]. easy.
  - destruct (d =? nl)%N.
    + intros [<-|Hl]; [easy|]. right. eauto.
    + destruct (split_nl s) as [|l' ls].
      * intros [<-|[]]. simpl. tauto.
      * intros [<-|Hl] Hc.
        -- destruct Hc as [->|Hc]; [now left|]. right.
           apply (IH l'); [now left|assumption].
        -- right. apply (IH l); [now right|assumption].
Qed.

Lemma split_nl_no_nl (s l : str) : In l (split_nl s) -> ~ In nl l.
Proof.
  revert l. induction s as [|d s IH]; intros l; simpl.
  - intros [<-|[]]. easy.
  - destruct (N.eqb_spec d nl) as [->|Hd].
    + intros [<-|Hl]; [easy|]. auto.
    + destruct (split_nl s) as [|l' ls].
      * intros [<-|[]] [Hc|[]]. congruence.
      * intros [<-|Hl].
        -- intros [Hc|Hc]; [congruence|].
           apply (IH l'); [now left|assumption].
        -- apply IH. now right.
Qed.

Lemma re_match_numbered_group (line g : str) :
  re_match_numbered line = Some g ->
  g <> [] /\ forall c, In c g -> In c line.
Proof.
  unfold re_match_numbered.
  pose proof (span_In isdecimal line) as Hline.
  destruct (span isdecimal line) as [[|d ds] [|sep rest]]; try discriminate.
  destruct (is_sep sep); [|discriminate].
  pose proof (span_In isspace rest) as Hrest.
  destruct (span isspace rest) as [ws [|x g']].
  - destruct (rev ws) as [|w r] eqn:Hw; [discriminate|].
    intros [= <-]. split; [easy|].
    intros c [<-|[]]. apply Hline. right. right. apply Hrest. left.
    simpl. apply in_rev. rewrite Hw. now left.
  - intros [= <-]. split; [easy|].
    intros c Hc. apply Hline. right. right. apply Hrest. now right.
Qed.

Lemma parse_line_entry (line t : str) :
  In t (parse_line line) -> t <> [] /\ forall c, In c t -> In c line.
Proof.
  unfold parse_line.
  destruct (strip line) as [|x l] eqn:Hl; [easy|]. simpl truthy. cbv iota.
  destruct (re_match_numbered (x :: l)) as [g|] eqn:Hg.
  - intros [<-|[]]. apply re_match_numbered_group in Hg as [Hne Hin].
    split; [assumption|]. intros c Hc. apply strip_In. rewrite Hl. auto.
  - intros [<-|[]]. split; [easy|].
    intros c Hc. apply strip_In. now rewrite Hl.
Qed.

(** What the parser extracts from a reply is never empty and never
    holds a line feed. *)
Lemma parse_lines_entry (reply t : str) :
  In t (parse_lines reply) -> t <> [] /\ ~ In nl t.
Proof.
  unfold parse_lines. intros H.
  apply in_flat_map in H as (line & Hline & Ht).
  apply parse_line_entry in Ht as [Hne Hin].
  split; [assumption|]. intros Hnl.
  apply (split_nl_no_nl _ _ Hline). auto.
Qed.

Lemma parse_reply_entry n (pre : list str) (reply : str) i t :
  length pre = n ->
  parse_reply n pre reply !! i = Some t ->
  pre !! i = Some t \/ (t <> [] /\ ~ In nl t).
Proof.
  intros Hn. rewrite parse_reply_spec by assumption.
  intros H. apply lookup_take_Some in H as [H _].
  apply lookup_app_Some in H as [H|[Hi H]].
  - right. apply parse_lines_entry with (reply := reply).
    apply list_elem_of_In. eapply list_elem_of_lookup_2, H.
  - left. rewrite lookup_drop in H. rewrite <- H. f_equal. lia.
Qed.

Variable remote : list Event -> Request -> Outcome.
Variable tc : TransConfig.
Variable dictionary : list (str * str).

Lemma translate_batch_rec_entry fuel texts uc rc st ts i t :
  fst (translate_batch_rec remote tc dictionary fuel texts uc rc st)
  = Return ts ->
  ts !! i = Some t ->
  (preprocess_text dictionary <$> texts) !! i = Some t
  \/ (t <> [] /\ ~ In nl t).
Proof.
  revert rc st. induction fuel as [|fuel IH]; intros rc st;
    destruct texts as [|x texts]; simpl;
    try (intros [= <-]; discriminate).
  - unfold bind, get_state.
    destruct (call_llm _ _ _ _ _ st) as [[[[|c reply]|]|e] st1]; simpl;
      try discriminate; try (intros [= <-]; now left).
    destruct (_ && _ && _); simpl.
    + destruct (sleep _ st1) as [[[]|e] st2]; discriminate.
    + intros [= <-].
      change (S (length texts)) with (length (x :: texts)).
      apply parse_reply_entry. simpl. now rewrite length_map.
  - unfold bind, get_state.
    destruct (call_llm _ _ _ _ _ st) as [[[[|c reply]|]|e] st1]; simpl;
      try discriminate; try (intros [= <-]; now left).
    destruct (_ && _ && _); simpl.
    + destruct (sleep _ st1) as [[[]|e] st2]; [|discriminate].
      apply IH.
    + intros [= <-].
      change (S (length texts)) with (length (x :: texts)).
      apply parse_reply_entry. simpl. now rewrite length_map.
Qed.

End ReplyEntries.



(** ** The batches of the first pass *)

Lemma py_range_seq n : py_range (Z.of_nat n) = map Z.of_nat (seq 0 n).
Proof. unfold py_range. now rewrite Nat2Z.id. Qed.

Lemma py_range_nonpos n : (n <= 0)%Z -> py_range n = [].
Proof.
  intros H. unfold py_range. now replace (Z.to_nat n) with 0 by lia.
Qed.

Lemma py_range_In n k : In k (py_range n) <-> (0 <= k < n)%Z.
Proof.
  unfold py_range. rewrite in_map_iff. split.
  - intros (i & <- & Hi). apply in_seq in Hi. lia.
  - intros Hk. exists (Z.to_nat k). split; [lia|]. apply in_seq. lia.
Qed.

Section Slices.
Context {A : Type}.
Implicit Types items : list A.

Lemma chunks_concat (b : nat) items : forall m,
  length items <= m * b ->
  concat (map (fun k => take b (drop (k * b) items)) (seq 0 m)) = items.
Proof.
  intros m. revert items.
  induction m as [|m IH]; intros items Hlen.
  - destruct items; [reflexivity|simpl in Hlen; lia].
  - cbn [seq map concat]. rewrite <- seq_shift, map_map.
    transitivity (take b items ++ drop b items); [|apply take_drop].
    f_equal.
    etransitivity; [|apply (IH (drop b items)); rewrite length_drop; lia].
    apply (f_equal (@concat A)), map_ext. intros k.
    rewrite drop_drop. reflexivity.
Qed.

(** The number of batches, and where batch [k] starts. *)
Lemma num_batches_bounds items (bs : Z) :
  (0 < bs)%Z ->
  let n := Z.of_nat (length items) in
  let nb := ((n + bs - 1) / bs)%Z in
  (0 <= nb /\ n <= nb * bs /\ (n = 0 \/ (nb - 1) * bs < n))%Z.
Proof.
  intros Hbs n nb.
  pose proof (Z.div_mod (n + bs - 1) bs ltac:(lia)) as Hdm.
  pose proof (Z.mod_pos_bound (n + bs - 1) bs Hbs) as Hmod.
  fold nb in Hdm.
  assert (0 <= n)%Z by (unfold n; lia).
  assert (0 <= nb)%Z by (apply Z.div_pos; lia).
  repeat split; lia.
Qed.

Lemma batch_slice_take items (bs k : Z) :
  (0 < bs)%Z -> (0 <= k)%Z -> (k * bs <= Z.of_nat (length items))%Z ->
  batch_slice items bs k
  = take (Z.to_nat bs) (drop (Z.to_nat k * Z.to_nat bs) items).
Proof.
  intros Hbs Hk Hle. unfold batch_slice, py_slice, slice_bound.
  assert (0 <= k * bs)%Z by nia.
  destruct (Z.ltb_spec (k * bs) 0); [lia|].
  destruct (Z.ltb_spec (Z.min (k * bs + bs) (Z.of_nat (length items))) 0);
    [lia|].
  replace (Z.to_nat (Z.max 0 (Z.min (Z.of_nat (length items)) (k * bs))))
    with (Z.to_nat k * Z.to_nat bs) by nia.
  set (d := drop _ items).
  assert (Hd : Z.of_nat (length d) = (Z.of_nat (length items) - k * bs)%Z).
  { unfold d. rewrite length_drop. nia. }
  destruct (Z.le_gt_cases (k * bs + bs) (Z.of_nat (length items))).
  - f_equal. lia.
  - rewrite !take_ge; [reflexivity|lia|lia].
Qed.

Lemma batch_slices_chunks items (bs : Z) :
  (0 < bs)%Z ->
  batch_slices items bs
  = map (fun k => take (Z.to_nat bs) (drop (k * Z.to_nat bs) items))
      (seq 0 (Z.to_nat ((Z.of_nat (length items) + bs - 1) / bs))).
Proof.
  intros Hbs. unfold batch_slices, py_range. rewrite map_map.
  apply map_ext_in. intros k Hk. apply in_seq in Hk.
  destruct (num_batches_bounds items bs Hbs) as (Hnb & Hle & Hlast).
  rewrite batch_slice_take; [now rewrite Nat2Z.id|lia|lia|].
  destruct Hlast as [Hn|Hlast]; [|nia].
  rewrite Hn in Hk. rewrite Z.div_small in Hk by lia. simpl in Hk. lia.
Qed.

End Slices.

(** With a positive [batch_size] the batches of
    [_translate_json_batched] cut the collected items into consecutive
    pieces: put together again they are the items, in order and each
    once; no batch is empty or longer than [batch_size], and every batch
    but the last is full. *)
Theorem batch_slices_partition {A} (items : list A) (batch_size : Z) :
  (0 < batch_size)%Z ->
  concat (batch_slices items batch_size) = items
  /\ Forall (fun batch => 0 < length batch
                          /\ (Z.of_nat (length batch) <= batch_size)%Z)
       (batch_slices items batch_size)
  /\ forall k batch,
       batch_slices items batch_size !! k = Some batch ->
       S k < length (batch_slices items batch_size) ->
       Z.of_nat (length batch) = batch_size.
Proof.
  intros Hbs.
  destruct (num_batches_bounds items batch_size Hbs) as (Hnb & Hle & Hlast).
  rewrite batch_slices_chunks by assumption.
  set (q := ((Z.of_nat (length items) + batch_size - 1) / batch_size)%Z) in *.
  set (nb := Z.to_nat q).
  assert (Hq : Z.of_nat nb = q) by (unfold nb; lia).
  assert (Hb : Z.of_nat (Z.to_nat batch_size) = batch_size) by lia.
  assert (Hcover : length items <= nb * Z.to_nat batch_size).
  { apply Nat2Z.inj_le. rewrite Nat2Z.inj_mul, Hq, Hb. lia. }
  assert (Hstart : forall k, k < nb ->
            k * Z.to_nat batch_size < length items).
  { intros k Hk. apply Nat2Z.inj_lt. rewrite Nat2Z.inj_mul, Hb.
    destruct Hlast as [Hn|Hlast]; [|nia].
    subst q. rewrite Hn in Hq. rewrite Z.div_small in Hq by lia. lia. }
  split; [|split].
  - now apply chunks_concat.
  - apply List.Forall_forall. intros batch Hin.
    apply in_map_iff in Hin as (k & <- & Hk). apply in_seq in Hk.
    rewrite length_take, length_drop.
    specialize (Hstart k ltac:(lia)). lia.
  - intros k batch Hk Hnext. rewrite length_map, length_seq in Hnext.
    rewrite list_lookup_fmap in Hk.
    rewrite lookup_seq_lt in Hk by lia. simpl in Hk.
    injection Hk as <-. rewrite length_take, length_drop.
    specialize (Hstart (S k) Hnext). lia.
Qed.

Lemma batch_slices_partition_witness :
  concat (batch_slices [1; 2; 3; 4; 5] 2) = [1; 2; 3; 4; 5]
  /\ batch_slices [1; 2; 3; 4; 5] 2 = [[1; 2]; [3; 4]; [5]].
Proof.
  split.
  - apply (batch_slices_partition [1; 2; 3; 4; 5] 2). lia.
  - reflexivity.
Defined.

(** ** Batch sizes that are not positive *)

Section DegenerateBatches.
Context {U : UnicodeDB}.
Variable remote : list Event -> Request -> Outcome.
Variable tc : TransConfig.
Variable dictionary : list (str * str).

Lemma negative_batch_count (n bs : Z) :
  (1 <= n)%Z -> (bs < 0)%Z ->
  ((n + bs - 1) / bs <= 0 \/ ((n + bs - 1) / bs = 1 /\ n = 1))%Z.
Proof.
  intros Hn Hbs.
  pose proof (Z.div_mod (n + bs - 1) bs ltac:(lia)) as Hdm.
  pose proof (Z.mod_neg_bound (n + bs - 1) bs Hbs) as Hmod.
  set (q := ((n + bs - 1) / bs)%Z) in *.
  assert (q <= 1)%Z by nia.
  destruct (Z.eq_dec q 1%Z) as [Hq|Hq]; [|lia]. right. lia.
Qed.

Lemma first_pass_batch_empty all_items bs acc st :
  (bs < 0)%Z -> length all_items = 1 ->
  first_pass_batch remote tc dictionary all_items bs 1 acc 0 st
  = (Return acc, st).
Proof.
  intros Hbs Hlen. unfold first_pass_batch.
  replace (py_slice all_items (0 * bs)
             (Z.min (0 * bs + bs) (Z.of_nat (length all_items))))
    with (@nil Item).
  - simpl map. rewrite bind_run, translate_batch_nil.
    rewrite bind_run. cbn [zip zip_with for_each ret].
    rewrite andb_false_r. rewrite bind_run. reflexivity.
  - unfold py_slice, slice_bound. rewrite Hlen.
    destruct (Z.ltb_spec (Z.min (0 * bs + bs) (Z.of_nat 1)) 0); [|lia].
    replace (Z.to_nat _) with 0 by lia. reflexivity.
Qed.

Lemma batched_negative_batch_size bs st :
  batch_size tc = Some bs -> (bs < 0)%Z ->
  _translate_json_batched remote tc dictionary st = (Return 0%Z, st).
Proof.
  intros Hsize Hbs. unfold _translate_json_batched.
  rewrite bind_run. cbn [get_state]. rewrite Hsize.
  change (default 25%Z (Some bs)) with bs.
  destruct (collect_items (data st)) as [|item items] eqn:Hitems;
    [reflexivity|].
  rewrite bind_run. unfold floordiv.
  destruct (Z.eqb_spec bs 0); [lia|]. cbn [ret].
  destruct (negative_batch_count (Z.of_nat (length (item :: items))) bs)
    as [Hnb|[Hnb Hone]]; [simpl; lia|assumption|..].
  - rewrite (py_range_nonpos _ Hnb). rewrite bind_run. reflexivity.
  - rewrite Hnb. change (py_range 1) with [0%Z]. cbn [for_each].
    rewrite !bind_run.
    rewrite first_pass_batch_empty by (assumption || lia).
    reflexivity.
Qed.

Lemma batched_zero_batch_size st :
  batch_size tc = Some 0%Z -> collect_items (data st) <> [] ->
  _translate_json_batched remote tc dictionary st
  = (Raise ZeroDivisionError, st).
Proof.
  intros Hsize Hitems. unfold _translate_json_batched.
  rewrite bind_run. cbn [get_state]. rewrite Hsize. cbn [default].
  destruct (collect_items (data st)); [contradiction|reflexivity].
Qed.

End DegenerateBatches.

(** [_translate_json_batched] does not check [batch_size].  With a
    batch size of zero and something to translate it stops with
    [ZeroDivisionError] before any request or assignment; with a
    negative batch size it reports zero translated items and likewise
    sends and assigns nothing, whatever there was to translate. *)
Theorem batched_degenerate_batch_size {U : UnicodeDB}
  (remote : list Event -> Request -> Outcome) (tc : TransConfig)
  (dictionary : list (str * str)) (st : State) :
  (batch_size tc = Some 0%Z -> collect_items (data st) <> [] ->
   _translate_json_batched remote tc dictionary st
   = (Raise ZeroDivisionError, st))
  /\ (forall bs, batch_size tc = Some bs -> (bs < 0)%Z ->
        _translate_json_batched remote tc dictionary st = (Return 0%Z, st)).
Proof.
  split.
  - apply batched_zero_batch_size.
  - intros bs. apply batched_negative_batch_size.
Qed.

Lemma batched_degenerate_batch_size_witness :
  _translate_json_batched (Sample.constant (lit "1. Hello"))
    Sample.trans_zero_batch [] (Sample.state [Sample.block])
  = (Raise ZeroDivisionError, Sample.state [Sample.block])
  /\ _translate_json_batched (Sample.constant (lit "1. Hello"))
       Sample.trans_negative_batch [] (Sample.state [Sample.block])
     = (Return 0%Z, Sample.state [Sample.block]).
Proof.
  split.
  - apply (proj1 (batched_degenerate_batch_size (U := ascii_db)
                    (Sample.constant (lit "1. Hello"))
                    Sample.trans_zero_batch [] (Sample.state [Sample.block])));
      [reflexivity|discriminate].
  - apply (proj2 (batched_degenerate_batch_size (U := ascii_db)
                    (Sample.constant (lit "1. Hello"))
                    Sample.trans_negative_batch []
                    (Sample.state [Sample.block])) (-2)%Z);
      [reflexivity|lia].
Defined.

(** ** What a run leaves alone *)

Lemma map_alter_same {A B} (f : A -> B) (g : A -> A) i (l : list A) :
  (forall x, f (g x) = f x) -> map f (alter g i l) = map f l.
Proof.
  intros Hg. revert i. induction l as [|x l IH]; intros [|i]; simpl;
    try reflexivity.
  - now rewrite Hg.
  - f_equal. apply IH.
Qed.

Lemma set_target_sources t v blocks :
  map source_fields (set_target t v blocks) = map source_fields blocks.
Proof.
  destruct t as [i|i|i j]; simpl; apply map_alter_same; intros b;
    try reflexivity.
  unfold source_fields. simpl. f_equal.
  destruct (choices b) as [cs|]; [|reflexivity]. simpl. f_equal.
  now apply map_alter_same.
Qed.

Lemma same_sources_refl st : same_sources st st.
Proof. reflexivity. Qed.

Lemma same_sources_trans a b c :
  same_sources a b -> same_sources b c -> same_sources a c.
Proof. unfold same_sources. congruence. Qed.

Lemma quiet_same_sources {A} (m : M A) :
  preserves quiet m -> preserves same_sources m.
Proof.
  intros H st. destruct (H st) as (_ & _ & Hd & _).
  unfold same_sources. now rewrite Hd.
Qed.

Lemma sources_write_target t v : preserves same_sources (write_target t v).
Proof. intros st. apply set_target_sources. Qed.

Lemma sources_sleep d : preserves same_sources (sleep d).
Proof. apply quiet_same_sources, quiet_sleep. Qed.

Lemma sources_set_model_temperature m t :
  preserves same_sources (set_model_temperature m t).
Proof. intros st. reflexivity. Qed.

#[export] Hint Resolve sources_write_target sources_sleep
  sources_set_model_temperature : frame.

Section Sources.
Context {U : UnicodeDB}.
Variable remote : list Event -> Request -> Outcome.
Variable tc : TransConfig.
Variable dictionary : list (str * str).

Lemma sources_translate_batch texts uc rc :
  preserves same_sources (translate_batch remote tc dictionary texts uc rc).
Proof. apply quiet_same_sources, quiet_translate_batch. Qed.

Lemma sources_translate_text text is_name uc rc :
  preserves same_sources
    (translate_text remote tc dictionary text is_name uc rc).
Proof. apply quiet_same_sources, quiet_translate_text. Qed.

Lemma sources_add_to_context a b c d :
  preserves same_sources (add_to_context tc a b c d).
Proof. intros st. reflexivity. Qed.

Lemma sources_py_range_step stop step :
  preserves same_sources (py_range_step stop step).
Proof.
  unfold py_range_step. frame_rules same_sources_refl same_sources_trans.
Qed.

Lemma sources_floordiv a b : preserves same_sources (floordiv a b).
Proof.
  unfold floordiv. frame_rules same_sources_refl same_sources_trans.
Qed.

#[local] Hint Resolve sources_translate_batch sources_translate_text
  sources_add_to_context sources_py_range_step sources_floordiv : frame.

Lemma sources_second_pass failed :
  preserves same_sources (_second_pass_translation remote tc dictionary failed).
Proof.
  unfold _second_pass_translation, second_pass_batch, second_pass_item.
  frame_rules same_sources_refl same_sources_trans.
Qed.

#[local] Hint Resolve sources_second_pass : frame.

Lemma sources_batched :
  preserves same_sources (_translate_json_batched remote tc dictionary).
Proof.
  unfold _translate_json_batched, first_pass_batch, first_pass_item.
  frame_rules same_sources_refl same_sources_trans.
Qed.

Lemma sources_sequential :
  preserves same_sources (_translate_json_sequential remote tc dictionary).
Proof.
  unfold _translate_json_sequential, sequential_block, sequential_choice.
  frame_rules same_sources_refl same_sources_trans.
Qed.

Lemma sources_clean : preserves same_sources _clean_monologue_names.
Proof.
  intros st. unfold same_sources. simpl. rewrite map_map.
  apply map_ext. intros b. unfold source_fields.
  destruct (clean_block_frame b) as (-> & -> & -> & -> & _). reflexivity.
Qed.

Lemma sources_file input st :
  let run := translate_json_file remote tc dictionary input st in
  map source_fields (data (snd run)) = map source_fields input
  /\ forall output, fst run = Return output -> output = data (snd run).
Proof.
  unfold translate_json_file. rewrite bind_run. cbn [set_data].
  rewrite bind_run.
  cbn [reset_context set_context llm_config current_context data trace].
  set (st0 := mkState (llm_config st) [] input (trace st)).
  rewrite bind_run.
  set (pass := if default true (use_batch_translation tc)
               then _translate_json_batched remote tc dictionary
               else _translate_json_sequential remote tc dictionary).
  assert (Hpass : preserves same_sources pass).
  { unfold pass.
    destruct (default true _); [apply sources_batched|apply sources_sequential]. }
  specialize (Hpass st0).
  destruct (pass st0) as [[n|e] st1]; simpl in Hpass.
  - rewrite bind_run.
    pose proof (sources_clean st1) as Hclean.
    destruct (_clean_monologue_names st1) as [[k|e] st2] eqn:E.
    + simpl in Hclean. cbn. split.
      * unfold same_sources in *. simpl in *. congruence.
      * now intros ? [= <-].
    + discriminate.
  - simpl. split; [exact Hpass|discriminate].
Qed.

End Sources.

(** A run over a file, batched or sequential, with or without a second
    pass, and whatever the service answers, assigns translations only:
    the record set it leaves, and the one it hands over for writing, has
    the blocks of the input in the same order, each with its index, its
    source name and text, and the source texts of its choices as they
    were read. *)
Theorem translate_json_file_keeps_sources {U : UnicodeDB}
  (remote : list Event -> Request -> Outcome) (tc : TransConfig)
  (dictionary : list (str * str)) (input : list Block) (st : State) :
  map source_fields
    (data (snd (translate_json_file remote tc dictionary input st)))
  = map source_fields input
  /\ forall output,
       fst (translate_json_file remote tc dictionary input st)
       = Return output ->
       map source_fields output = map source_fields input
       /\ length output = length input.
Proof.
  destruct (sources_file remote tc dictionary input st) as [Hdata Hout].
  split; [exact Hdata|].
  intros output Hrun. rewrite (Hout output Hrun). split; [exact Hdata|].
  rewrite <- (length_map source_fields), Hdata. apply length_map.
Qed.

Lemma translate_json_file_keeps_sources_witness :
  map source_fields
    [mkBlock 7 (Some (lit "Tanaka")) (Some (lit "Tanaka"))
       (Some [0x3053%N; 0x3093%N]) (Some [0x3053%N; 0x3093%N]) None]
  = map source_fields [Sample.block].
Proof.
  apply (proj2 (translate_json_file_keeps_sources (U := ascii_db)
                  Sample.down Sample.trans [] [Sample.block]
                  (Sample.state []))).
  vm_compute. reflexivity.
Defined.

(** ** Where a batched run assigns *)

Lemma write_targets_app tr1 tr2 :
  write_targets (tr1 ++ tr2) = write_targets tr1 ++ write_targets tr2.
Proof. apply omap_app. Qed.

Lemma write_targets_quiet (evs : list Event) :
  Forall (fun e => is_write e = false) evs -> write_targets evs = [].
Proof.
  induction 1 as [|e evs He _ IH]; [reflexivity|].
  destruct e; try discriminate; exact IH.
Qed.

Lemma In_zip_l {A B} (l : list A) (k : list B) x y :
  In (x, y) (zip l k) -> In x l.
Proof.
  revert k. induction l as [|a l IH]; intros [|b k]; simpl; try easy.
  intros [[= <- <-]|H]; [now left|right; eauto].
Qed.

Lemma take_In {A} n (l : list A) x : In x (take n l) -> In x l.
Proof.
  revert n. induction l as [|a l IH]; intros [|n]; simpl; try easy.
  intros [->|H]; [now left|right; eauto].
Qed.

Lemma drop_In {A} n (l : list A) x : In x (drop n l) -> In x l.
Proof.
  revert n. induction l as [|a l IH]; intros [|n]; simpl; try easy.
  right. eauto.
Qed.

Lemma py_slice_In {A} (l : list A) start stop x :
  In x (py_slice l start stop) -> In x l.
Proof. unfold py_slice. intros H. eapply drop_In, take_In, H. Qed.

Section Confined.
Variable targets : list Target.

Lemma confined_refl st : confined targets st st.
Proof.
  split; [easy|]. exists []. split; [now rewrite app_nil_r|constructor].
Qed.

Lemma confined_trans a b c :
  confined targets a b -> confined targets b c -> confined targets a c.
Proof.
  intros [Hu (e1 & Ht & Hw)] [Ku (e2 & Kt & Kw)]. split.
  - intros t Ht'. rewrite (Ku t Ht'). now apply Hu.
  - exists (e1 ++ e2). split; [rewrite Kt, Ht; now rewrite app_assoc|].
    rewrite write_targets_app. now apply Forall_app.
Qed.

Lemma quiet_confined {A} (m : M A) :
  preserves quiet m -> preserves (confined targets) m.
Proof.
  intros H st. destruct (H st) as (_ & _ & Hd & evs & Ht & Hw). split.
  - intros t _. now rewrite Hd.
  - exists evs. split; [assumption|].
    rewrite write_targets_quiet by assumption. constructor.
Qed.

Lemma confined_write_target t v :
  In t targets -> preserves (confined targets) (write_target t v).
Proof.
  intros Hin st. split.
  - intros t' Ht'. simpl. apply get_set_target_other. congruence.
  - exists [EvWrite t v]. split; [reflexivity|]. now repeat constructor.
Qed.

Lemma confined_sleep d : preserves (confined targets) (sleep d).
Proof. apply quiet_confined, quiet_sleep. Qed.

Lemma confined_set_model_temperature m t :
  preserves (confined targets) (set_model_temperature m t).
Proof.
  intros st. split; [easy|].
  exists []. split; [simpl; now rewrite app_nil_r|constructor].
Qed.

Lemma confined_py_range_step stop step :
  preserves (confined targets) (py_range_step stop step).
Proof.
  unfold py_range_step. frame_rules confined_refl confined_trans.
Qed.

Lemma confined_floordiv a b : preserves (confined targets) (floordiv a b).
Proof. unfold floordiv. frame_rules confined_refl confined_trans. Qed.

Context {U : UnicodeDB}.
Variable remote : list Event -> Request -> Outcome.
Variable tc : TransConfig.
Variable dictionary : list (str * str).

Lemma confined_translate_batch texts uc rc :
  preserves (confined targets)
    (translate_batch remote tc dictionary texts uc rc).
Proof. apply quiet_confined, quiet_translate_batch. Qed.

#[local] Hint Resolve confined_write_target confined_sleep
  confined_set_model_temperature confined_py_range_step confined_floordiv
  confined_translate_batch : frame.

Lemma confined_first_pass_item acc entry :
  In (target (fst entry)) targets -> entries_within targets (snd acc) ->
  ensures (confined targets)
    (fun acc' => entries_within targets (snd acc'))
    (first_pass_item acc entry).
Proof.
  destruct acc as [count failed], entry as [item translation].
  simpl. intros Hin Hfailed. unfold first_pass_item.
  ensures_step confined_refl confined_trans.
  apply (ensures_ret _ confined_refl). simpl.
  destruct (contains_japanese translation); [|assumption].
  apply Forall_app. split; [assumption|now repeat constructor].
Qed.

Lemma confined_first_pass_batch all_items bs nb acc k :
  Forall (fun item => In (target item) targets) all_items ->
  entries_within targets (snd acc) ->
  ensures (confined targets)
    (fun acc' => entries_within targets (snd acc'))
    (first_pass_batch remote tc dictionary all_items bs nb acc k).
Proof.
  intros Hitems Hacc. unfold first_pass_batch.
  ensures_step confined_refl confined_trans.
  eapply (ensures_bind _ confined_trans).
  - apply (ensures_for_each _ confined_refl confined_trans
             (fun acc' => entries_within targets (snd acc')));
      [assumption|].
    intros b [item t] Hb Hin. apply confined_first_pass_item; [|assumption].
    apply In_zip_l in Hin. apply py_slice_In in Hin. simpl.
    apply (proj1 (List.Forall_forall _ _) Hitems _ Hin).
  - intros acc' Hacc'.
    ensures_step confined_refl confined_trans.
    now apply (ensures_ret _ confined_refl).
Qed.

Lemma confined_second_pass_batch failed bs count i :
  entries_within targets failed ->
  preserves (confined targets)
    (second_pass_batch remote tc dictionary failed bs count i).
Proof.
  intros Hfailed. unfold second_pass_batch.
  apply (preserves_bind _ confined_trans);
    [frame_rules confined_refl confined_trans|].
  intros [ts|]; [|apply (preserves_ret _ confined_refl)].
  destruct (forallb _ ts); [apply (preserves_ret _ confined_refl)|].
  apply (preserves_bind _ confined_trans);
    [|intros; apply (preserves_ret _ confined_refl)].
  intros st.
  apply (ensures_state (confined targets) (fun _ => True)).
  apply (ensures_for_each _ confined_refl confined_trans); [exact I|].
  intros b [[item old] new] _ Hin. apply ensures_preserves.
  unfold second_pass_item.
  assert (In (target item) targets).
  { apply In_zip_l in Hin. apply py_slice_In in Hin.
    apply (proj1 (List.Forall_forall _ _) Hfailed _ Hin). }
  frame_rules confined_refl confined_trans.
Qed.

Lemma confined_second_pass failed :
  entries_within targets failed ->
  preserves (confined targets)
    (_second_pass_translation remote tc dictionary failed).
Proof.
  intros Hfailed. unfold _second_pass_translation.
  pose proof (fun bs count i =>
                confined_second_pass_batch failed bs count i Hfailed).
  frame_rules confined_refl confined_trans.
Qed.

Lemma confined_batched st :
  targets = map target (collect_items (data st)) ->
  confined targets st (snd (_translate_json_batched remote tc dictionary st)).
Proof.
  intros Htargets. unfold _translate_json_batched.
  rewrite bind_run. cbn [get_state].
  set (all_items := collect_items (data st)) in *.
  assert (Hitems : Forall (fun item => In (target item) targets) all_items).
  { apply List.Forall_forall. intros item Hin. subst targets.
    now apply in_map. }
  clearbody all_items.
  apply (ensures_state (confined targets) (fun _ => True)).
  destruct all_items as [|item items]; [now apply (ensures_ret _ confined_refl)|].
  ensures_step confined_refl confined_trans.
  eapply (ensures_bind _ confined_trans).
  - apply (ensures_for_each _ confined_refl confined_trans
             (fun acc' => entries_within targets (snd acc')));
      [constructor|].
    intros b k Hb _. now apply confined_first_pass_batch.
  - intros [count failed] Hfailed. simpl in Hfailed.
    apply ensures_preserves.
    pose proof (confined_second_pass failed Hfailed).
    frame_rules confined_refl confined_trans.
Qed.

End Confined.

(** A batched run assigns to the slots of the units it has collected and
    to no others, second pass included: every assignment it makes has
    the target of a collected unit, and a slot that was not collected
    holds at the end what it held at the start; this is so whatever the
    service answers and also when the run stops with an exception. *)
Theorem batched_run_confined {U : UnicodeDB}
  (remote : list Event -> Request -> Outcome) (tc : TransConfig)
  (dictionary : list (str * str)) (st : State) :
  let targets := map target (collect_items (data st)) in
  let st' := snd (_translate_json_batched remote tc dictionary st) in
  (forall t, ~ In t targets ->
             get_target t (data st') = get_target t (data st))
  /\ exists evs, trace st' = trace st ++ evs
                 /\ Forall (fun t => In t targets) (write_targets evs).
Proof.
  intros targets st'.
  exact (confined_batched targets remote tc dictionary st eq_refl).
Qed.

(** ** The assignments of the first pass *)

Lemma batch_slices_concat {A} (items : list A) (bs : Z) :
  (0 < bs)%Z -> concat (batch_slices items bs) = items.
Proof.
  intros Hbs.
  destruct (num_batches_bounds items bs Hbs) as (Hnb & Hle & _).
  rewrite batch_slices_chunks by assumption.
  apply chunks_concat. apply Nat2Z.inj_le. rewrite Nat2Z.inj_mul. lia.
Qed.

Lemma count_writes_targets tr :
  count_writes tr = Z.of_nat (length (write_targets tr)).
Proof.
  unfold count_writes, write_targets. f_equal.
  induction tr as [|e tr IH]; [reflexivity|].
  rewrite filter_cons.
  destruct e; simpl; try exact IH. now f_equal.
Qed.

Lemma write_targets_events (entries : list (Item * str)) :
  write_targets (write_events entries)
  = map (fun e => target (fst e)) entries.
Proof.
  unfold write_targets, write_events.
  induction entries as [|e entries IH]; [reflexivity|].
  simpl. now rewrite <- IH.
Qed.

Section FirstPassWrites.
Context {U : UnicodeDB}.
Variable remote : list Event -> Request -> Outcome.
Variable tc : TransConfig.
Variable dictionary : list (str * str).

Lemma first_pass_batch_value all_items bs nb count failed k st r st' :
  first_pass_batch remote tc dictionary all_items bs nb (count, failed) k st
  = (Return r, st') ->
  exists evs,
    trace st' = trace st ++ evs
    /\ write_targets evs = map target (batch_slice all_items bs k)
    /\ fst r = (count + Z.of_nat (length (batch_slice all_items bs k)))%Z.
Proof.
  unfold first_pass_batch. fold (batch_slice all_items bs k).
  set (batch_items := batch_slice all_items bs k).
  rewrite bind_run.
  pose proof (quiet_translate_batch remote tc dictionary
                (map original_text batch_items) false 0 st) as Hq.
  pose proof (translate_batch_length remote tc dictionary
                (map original_text batch_items) false 0 st) as Hlen.
  destruct (translate_batch _ _ _ _ _ _ st) as [[ts|e] st1];
    [|discriminate].
  specialize (Hlen ts eq_refl). rewrite length_map in Hlen.
  destruct Hq as (_ & _ & _ & evs & Htr & Hevs). simpl in Htr.
  rewrite bind_run, for_each_first_pass_item.
  assert (Hentries : map (fun e : Item * str => target (fst e))
                       (zip batch_items ts) = map target batch_items).
  { rewrite <- (map_map fst target). f_equal. apply fst_zip. lia. }
  assert (Hcount : length (zip batch_items ts) = length batch_items).
  { rewrite <- (length_map (fun e : Item * str => target (fst e))), Hentries.
    apply length_map. }
  destruct (Qlt_bool 0 (default 0%Q (batch_delay tc)) && (k <? nb - 1)%Z)
    eqn:Hpause.
  - apply andb_true_iff in Hpause as [Hd _].
    rewrite bind_run. unfold sleep. rewrite (Qlt_bool_le _ Hd).
    cbn [emit ret trace]. intros [= <- <-]. cbn [trace fst].
    exists (evs ++ write_events (zip batch_items ts)
              ++ [EvSleep (default 0%Q (batch_delay tc))]).
    split; [rewrite Htr; now rewrite <- !app_assoc|].
    split; [|lia].
    rewrite !write_targets_app, write_targets_quiet by assumption.
    rewrite write_targets_events, Hentries. simpl. now rewrite app_nil_r.
  - rewrite bind_run. cbn [ret]. intros [= <- <-]. cbn [trace fst].
    exists (evs ++ write_events (zip batch_items ts)).
    split; [rewrite Htr; now rewrite <- app_assoc|].
    split; [|lia].
    rewrite write_targets_app, write_targets_quiet by assumption.
    now rewrite write_targets_events, Hentries.
Qed.

Lemma first_pass_loop_value all_items bs nb ks : forall acc st r st',
  for_each (first_pass_batch remote tc dictionary all_items bs nb) ks acc st
  = (Return r, st') ->
  exists evs,
    trace st' = trace st ++ evs
    /\ write_targets evs
       = map target (concat (map (batch_slice all_items bs) ks))
    /\ fst r
       = (fst acc
          + Z.of_nat (length (concat (map (batch_slice all_items bs) ks))))%Z.
Proof.
  induction ks as [|k ks IH]; intros [count failed] st r st'.
  - simpl. intros [= <- <-]. exists []. simpl.
    split; [now rewrite app_nil_r|]. split; [reflexivity|lia].
  - cbn [for_each]. rewrite bind_run.
    destruct (first_pass_batch _ _ _ _ _ _ _ k st) as [[acc1|e] st1] eqn:Hb;
      [|discriminate].
    apply first_pass_batch_value in Hb as (e1 & Ht1 & Hw1 & Hc1).
    intros Hrest. apply IH in Hrest as (e2 & Ht2 & Hw2 & Hc2).
    exists (e1 ++ e2). split; [rewrite Ht2, Ht1; now rewrite app_assoc|].
    cbn [map concat]. rewrite write_targets_app, Hw1, Hw2, map_app.
    split; [reflexivity|]. rewrite length_app. simpl in *. lia.
Qed.

Lemma batched_writes st n :
  (0 < default 25%Z (batch_size tc))%Z ->
  fst (_translate_json_batched remote tc dictionary st) = Return n ->
  exists first second,
    trace (snd (_translate_json_batched remote tc dictionary st))
    = trace st ++ first ++ second
    /\ write_targets first = map target (collect_items (data st))
    /\ (default false (enable_two_pass tc) = false -> second = [])
    /\ n = (Z.of_nat (length (collect_items (data st)))
            + count_writes second)%Z.
Proof.
  intros Hbs. unfold _translate_json_batched.
  rewrite bind_run. cbn [get_state].
  set (bs := default 25%Z (batch_size tc)) in *.
  set (all_items := collect_items (data st)).
  destruct all_items as [|item items] eqn:Hitems.
  { intros [= <-]. exists [], []. simpl. now rewrite app_nil_r. }
  rewrite <- Hitems. clear Hitems.
  rewrite bind_run. unfold floordiv.
  destruct (Z.eqb_spec bs 0); [lia|]. cbn [ret].
  rewrite bind_run.
  destruct (for_each _ (py_range _) (0%Z, []) st) as [[[count failed]|e] st1]
    eqn:Hloop; [|discriminate].
  apply first_pass_loop_value in Hloop as (first & Ht1 & Hw1 & Hc1).
  fold (batch_slices all_items bs) in Hw1, Hc1.
  rewrite batch_slices_concat in Hw1, Hc1 by assumption.
  simpl in Hc1.
  destruct (truthy_list failed && default false (enable_two_pass tc))
    eqn:Htwo.
  - rewrite bind_run.
    pose proof (second_pass_count remote tc dictionary failed st1) as Hcount.
    assert (Hconf : confined (map (fun e => target (fst e)) failed) st1
              (snd (_second_pass_translation remote tc dictionary failed
                      st1))).
    { apply confined_second_pass. apply List.Forall_forall. intros e He.
      now apply (in_map (fun e => target (fst e))). }
    destruct (_second_pass_translation remote tc dictionary failed st1)
      as [[fixed|e] st2]; [|discriminate].
    specialize (Hcount fixed eq_refl).
    destruct Hconf as [_ (second & Ht2 & _)].
    simpl in Ht2, Hcount. cbn [ret fst snd]. intros [= <-].
    exists first, second.
    split; [rewrite Ht2, Ht1; now rewrite app_assoc|].
    split; [assumption|]. split.
    + intros Hoff. rewrite Hoff, andb_false_r in Htwo. discriminate.
    + rewrite Ht2, count_writes_app in Hcount.
      rewrite Hcount, Hc1. ring.
  - cbn [ret fst snd]. intros [= <-]. exists first, [].
    rewrite app_nil_r. repeat split; try assumption.
    rewrite Hc1. change (count_writes []) with 0%Z. ring.
Qed.

End FirstPassWrites.

(** With a positive batch size, a batched run that returns has assigned
    every collected unit exactly once in its first pass, in the order of
    collection (names, then texts, then choices).  Only the second pass
    assigns after that, and not at all when two-pass translation is off;
    the count returned is the number of collected units plus the number
    of assignments of the second pass. *)
Theorem batched_writes_each_once {U : UnicodeDB}
  (remote : list Event -> Request -> Outcome) (tc : TransConfig)
  (dictionary : list (str * str)) (st : State) (n : Z) :
  (0 < default 25%Z (batch_size tc))%Z ->
  fst (_translate_json_batched remote tc dictionary st) = Return n ->
  exists first second,
    trace (snd (_translate_json_batched remote tc dictionary st))
    = trace st ++ first ++ second
    /\ write_targets first = map target (collect_items (data st))
    /\ (default false (enable_two_pass tc) = false -> second = [])
    /\ n = (Z.of_nat (length (collect_items (data st)))
            + count_writes second)%Z.
Proof. apply batched_writes. Qed.

Lemma batched_writes_each_once_witness :
  exists first second,
    trace (snd (_translate_json_batched Sample.down Sample.trans []
                  (Sample.state [Sample.block])))
    = trace (Sample.state [Sample.block]) ++ first ++ second
    /\ write_targets first
       = map target (collect_items (data (Sample.state [Sample.block])))
    /\ (default false (enable_two_pass Sample.trans) = false -> second = [])
    /\ 1%Z = (Z.of_nat (length (collect_items
                                  (data (Sample.state [Sample.block]))))
              + count_writes second)%Z.
Proof.
  apply (batched_writes_each_once (U := ascii_db) Sample.down Sample.trans []
           (Sample.state [Sample.block]) 1%Z).
  - reflexivity.
  - vm_compute. reflexivity.
Defined.

(** ** Runs that cannot fail *)

Section Total.
Variable P : State -> Prop.

Lemma total_ret {A} (Q : A -> Prop) a : Q a -> total P Q (ret a).
Proof. intros Ha st Hst. split; [assumption|]. now exists a. Qed.

Lemma total_get_state : total P P get_state.
Proof. intros st Hst. split; [assumption|]. now exists st. Qed.

Lemma total_lookup_key {A} key (f : option A) :
  f <> None -> total P (fun _ => True) (lookup_key key f).
Proof. destruct f; [intros _|easy]. now apply total_ret. Qed.

Lemma total_bind {A B} (Q1 : A -> Prop) (Q2 : B -> Prop) (m : M A)
  (k : A -> M B) :
  total P Q1 m -> (forall a, Q1 a -> total P Q2 (k a)) ->
  total P Q2 (bind m k).
Proof.
  intros Hm Hk st Hst. unfold bind.
  destruct (Hm st Hst) as [Hst1 (a & Ha & Hq)].
  destruct (m st) as [r st1]. simpl in *. subst r.
  now apply Hk.
Qed.

Lemma total_try_except {A} (m : M A) h :
  keeps P m -> (forall e, total P (fun _ => True) (h e)) ->
  total P (fun _ => True) (try_except m h).
Proof.
  intros Hm Hh st Hst. unfold try_except. specialize (Hm st Hst).
  destruct (m st) as [[a|e] st1]; simpl in *.
  - split; [assumption|]. now exists a.
  - now apply Hh.
Qed.

Lemma total_weaken {A} (Q Q' : A -> Prop) (m : M A) :
  (forall a, Q a -> Q' a) -> total P Q m -> total P Q' m.
Proof.
  intros HQ Hm st Hst. destruct (Hm st Hst) as [H1 (a & Ha & Hq)].
  split; [assumption|]. exists a. auto.
Qed.

Lemma total_keeps {A} (Q : A -> Prop) (m : M A) : total P Q m -> keeps P m.
Proof. intros Hm st Hst. apply Hm, Hst. Qed.

Lemma total_for_each {A B} (body : B -> A -> M B) l acc :
  (forall b x, total P (fun _ => True) (body b x)) ->
  total P (fun _ => True) (for_each body l acc).
Proof.
  intros Hb. revert acc. induction l as [|x l IH]; intros acc; simpl.
  - now apply total_ret.
  - eapply total_bind; [apply Hb|]. intros b _. apply IH.
Qed.

Lemma total_for_each_break {A B} (body : B -> A -> M (B + B)) l acc :
  (forall b x, total P (fun _ => True) (body b x)) ->
  total P (fun _ => True) (for_each_break body l acc).
Proof.
  intros Hb. revert acc. induction l as [|x l IH]; intros acc; simpl.
  - now apply total_ret.
  - eapply total_bind; [apply Hb|].
    intros [b|b] _; [now apply total_ret|apply IH].
Qed.

End Total.

Lemma ready_same_llm_config st st' :
  same_llm_config st st' -> ready st -> ready st'.
Proof. unfold same_llm_config, ready. now intros ->. Qed.

Lemma keeps_ready_quiet {A} (m : M A) : preserves quiet m -> keeps ready m.
Proof.
  intros H st. apply ready_same_llm_config.
  apply quiet_same_llm_config; assumption.
Qed.

Lemma total_sleep d : Qle_bool 0 d = true -> total ready (fun _ => True) (sleep d).
Proof.
  intros Hd st Hst. unfold sleep. rewrite Hd. split; [exact Hst|].
  now exists tt.
Qed.

Lemma total_write_target t v : total ready (fun _ => True) (write_target t v).
Proof. intros st Hst. split; [exact Hst|]. now exists tt. Qed.

Lemma total_set_model_temperature m t :
  total ready (fun _ => True) (set_model_temperature m t).
Proof.
  intros st Hst. split; [|now exists tt].
  unfold ready, complete in *. simpl.
  destruct (api_key (llm_config st)), (system_prompt (llm_config st)),
    (max_tokens (llm_config st)), (model (llm_config st)),
    (temperature (llm_config st));
    try discriminate; reflexivity.
Qed.

Section NeverFails.
Context {U : UnicodeDB}.
Variable remote : list Event -> Request -> Outcome.
Variable tc : TransConfig.
Variable dictionary : list (str * str).
Hypothesis Hretry : retry_configured tc.

Lemma call_llm_rec_returns fuel : forall text context rc st,
  ready st ->
  (default 0%Z (retry_attempts tc) - rc <= Z.of_nat fuel)%Z ->
  exists r, fst (call_llm_rec remote tc fuel text context rc st) = Return r.
Proof using Hretry.
  destruct Hretry as (attempts & delay & Hatt & Hdel & Hpos).
  rewrite Hatt. cbn [default from_option id].
  induction fuel as [|fuel IH]; intros text context rc [llm ctx d tr];
    unfold ready; destruct llm as [url [key|] [m|] [sys|] [temp|] [tok|] mp tp tk];
    cbn -[strip lit]; try discriminate; intros _ Hfuel;
    unfold try_except, bind, post, get_state, emit, lookup_key, ret, raise;
    cbn -[strip lit];
    (destruct url as [url|]; cbn -[strip lit];
     [destruct (remote tr _); cbn -[strip lit]; [eauto|]|]);
    rewrite Hatt; cbn -[strip lit];
    (destruct (Z.ltb_spec rc attempts); [|eauto]);
    rewrite Hdel; cbn -[strip lit]; unfold sleep; rewrite Hpos;
    unfold emit; cbn -[strip lit];
    try lia;
    (apply IH; [reflexivity|lia]).
Qed.

Lemma total_call_llm text context rc :
  total ready (fun _ => True) (call_llm remote tc text context rc).
Proof using Hretry.
  intros st Hst. split.
  - revert Hst. apply keeps_ready_quiet, quiet_call_llm.
  - destruct (call_llm_rec_returns
                (Z.to_nat (default 0%Z (retry_attempts tc) - rc))
                text context rc st Hst) as [r Hr]; [lia|].
    now exists r.
Qed.

Lemma validation_delay_slept : Qle_bool 0 (validation_delay tc) = true.
Proof using Hretry.
  destruct Hretry as (attempts & delay & _ & Hdel & Hpos).
  unfold validation_delay. now rewrite Hdel.
Qed.

Lemma translate_batch_rec_returns fuel : forall texts uc rc st,
  ready st ->
  (max_retries tc - rc <= Z.of_nat fuel)%Z ->
  exists ts,
    fst (translate_batch_rec remote tc dictionary fuel texts uc rc st)
    = Return ts.
Proof using Hretry.
  pose proof validation_delay_slept as Hdelay.
  induction fuel as [|fuel IH]; intros texts uc rc st Hst Hfuel;
    (destruct texts as [|x texts]; simpl; [eauto|]);
    unfold bind, get_state;
    match goal with
    | |- context [call_llm remote tc ?t ?c 0 st] =>
        destruct (total_call_llm t c 0 st Hst) as [Hst1 (r & Hr & _)];
        destruct (call_llm remote tc t c 0 st) as [r' st1]
    end; simpl in Hr, Hst1; subst r'; simpl;
    destruct r as [[|c reply]|]; simpl; eauto;
    (destruct (Z.ltb_spec rc (max_retries tc));
     [|rewrite andb_false_r; simpl; eauto]);
    (destruct (_ && _ && _); simpl; [|eauto]);
    unfold sleep; rewrite Hdelay; simpl.
  - lia.
  - apply IH; [exact Hst1|lia].
Qed.

Lemma total_translate_batch texts uc rc :
  total ready (fun _ => True)
    (translate_batch remote tc dictionary texts uc rc).
Proof using Hretry.
  intros st Hst. split.
  - revert Hst. apply keeps_ready_quiet, quiet_translate_batch.
  - destruct (translate_batch_rec_returns
                (Z.to_nat (max_retries tc - rc)) texts uc rc st Hst)
      as [ts Hts]; [lia|].
    now exists ts.
Qed.

Lemma translate_text_rec_returns fuel : forall text is_name uc rc st,
  ready st ->
  (max_retries tc - rc <= Z.of_nat fuel)%Z ->
  exists t,
    fst (translate_text_rec remote tc dictionary fuel text is_name uc rc st)
    = Return t.
Proof using Hretry.
  pose proof validation_delay_slept as Hdelay.
  induction fuel as [|fuel IH]; intros text is_name uc rc st Hst Hfuel;
    simpl; unfold bind, get_state;
    (destruct (is_name && _); simpl; [eauto|]);
    match goal with
    | |- context [call_llm remote tc ?t ?c 0 st] =>
        destruct (total_call_llm t c 0 st Hst) as [Hst1 (r & Hr & _)];
        destruct (call_llm remote tc t c 0 st) as [r' st1]
    end; simpl in Hr, Hst1; subst r'; simpl;
    destruct r as [[|c reply]|]; simpl; eauto;
    (destruct (Z.ltb_spec rc (max_retries tc));
     [|rewrite andb_false_r; simpl; eauto]);
    (destruct (_ && _ && _); simpl; [|eauto]);
    unfold sleep; rewrite Hdelay; simpl.
  - lia.
  - apply IH; [exact Hst1|lia].
Qed.

Lemma total_translate_text text is_name uc rc :
  total ready (fun _ => True)
    (translate_text remote tc dictionary text is_name uc rc).
Proof using Hretry.
  intros st Hst. split.
  - revert Hst. apply keeps_ready_quiet, quiet_translate_text.
  - destruct (translate_text_rec_returns
                (Z.to_nat (max_retries tc - rc)) text is_name uc rc st Hst)
      as [t Ht]; [lia|].
    now exists t.
Qed.

End NeverFails.

Lemma ready_model st :
  ready st ->
  model (llm_config st) <> None /\ temperature (llm_config st) <> None.
Proof.
  unfold ready, complete.
  destruct (api_key (llm_config st)), (model (llm_config st)),
    (system_prompt (llm_config st)), (temperature (llm_config st));
    easy.
Qed.

Section FileNeverFails.
Context {U : UnicodeDB}.
Variable remote : list Event -> Request -> Outcome.
Variable tc : TransConfig.
Variable dictionary : list (str * str).
Hypothesis Hretry : retry_configured tc.

Lemma total_first_pass_item acc entry :
  total ready (fun _ => True) (first_pass_item acc entry).
Proof.
  destruct acc as [count failed], entry as [item translation].
  unfold first_pass_item.
  eapply total_bind; [apply total_write_target|].
  intros _ _. now apply total_ret.
Qed.

Lemma total_first_pass_batch all_items bs nb acc k :
  total ready (fun _ => True)
    (first_pass_batch remote tc dictionary all_items bs nb acc k).
Proof using Hretry.
  unfold first_pass_batch.
  eapply total_bind; [now apply total_translate_batch|]. intros ts _.
  eapply total_bind;
    [apply total_for_each; intros ? ?; apply total_first_pass_item|].
  intros acc' _.
  eapply total_bind with (Q1 := fun _ => True);
    [|intros ? ?; now apply total_ret].
  destruct (Qlt_bool 0 (default 0%Q (batch_delay tc)) && (k <? nb - 1)%Z)
    eqn:Hpause; [|now apply total_ret].
  apply andb_true_iff in Hpause as [Hd _].
  apply total_sleep, Qlt_bool_le, Hd.
Qed.

Lemma total_second_pass_item count entry :
  total ready (fun _ => True) (second_pass_item count entry).
Proof.
  destruct entry as [[item old] new]. unfold second_pass_item.
  destruct (negb (truthy new)); [now apply total_ret|].
  destruct (negb (contains_japanese new)); [|now apply total_ret].
  eapply total_bind; [apply total_write_target|].
  intros _ _. now apply total_ret.
Qed.

Lemma total_second_pass_batch failed bs count i :
  total ready (fun _ => True)
    (second_pass_batch remote tc dictionary failed bs count i).
Proof using Hretry.
  unfold second_pass_batch.
  eapply total_bind.
  - apply total_try_except; [|intros ? ?; now apply total_ret].
    eapply total_keeps, total_bind;
      [now apply total_translate_batch|].
    intros ts _. now apply (total_ret _ (fun _ => True)).
  - intros [ts|] _; [|now apply total_ret].
    destruct (forallb _ ts); [now apply total_ret|].
    eapply total_bind;
      [apply total_for_each; intros ? ?; apply total_second_pass_item|].
    intros ? ?; now apply total_ret.
Qed.

Lemma total_second_pass failed :
  default 25%Z (batch_size tc) <> 0%Z ->
  total ready (fun _ => True)
    (_second_pass_translation remote tc dictionary failed).
Proof using Hretry.
  intros Hbs. unfold _second_pass_translation.
  destruct failed as [|f failed]; [now apply total_ret|].
  set (items := f :: failed). clearbody items.
  eapply total_bind; [apply total_get_state|]. intros st Hst.
  apply ready_model in Hst as [Hm Ht].
  eapply total_bind; [now apply total_lookup_key|]. intros m _.
  eapply total_bind; [now apply total_lookup_key|]. intros t _.
  destruct (str_eqb _ m); [now apply total_ret|].
  eapply total_bind; [apply total_set_model_temperature|]. intros _ _.
  eapply total_bind.
  - unfold py_range_step.
    destruct (Z.eqb_spec (default 25%Z (batch_size tc)) 0);
      [contradiction|].
    destruct (_ <? 0)%Z; now apply (total_ret _ (fun _ => True)).
  - intros starts _.
    eapply total_bind;
      [apply total_for_each_break; intros ? ?; apply total_second_pass_batch|].
    intros n _.
    eapply total_bind; [apply total_set_model_temperature|].
    intros ? ?; now apply total_ret.
Qed.

Lemma total_batched :
  default 25%Z (batch_size tc) <> 0%Z ->
  total ready (fun _ => True) (_translate_json_batched remote tc dictionary).
Proof using Hretry.
  intros Hbs. unfold _translate_json_batched.
  eapply total_bind; [apply total_get_state|]. intros st _.
  destruct (collect_items (data st)) as [|item items];
    [now apply total_ret|].
  eapply total_bind.
  - unfold floordiv.
    destruct (Z.eqb_spec (default 25%Z (batch_size tc)) 0);
      [contradiction|].
    now apply (total_ret _ (fun _ => True)).
  - intros nb _.
    eapply total_bind;
      [apply total_for_each; intros ? ?; apply total_first_pass_batch|].
    intros [count failed] _.
    destruct (_ && _); [|now apply total_ret].
    eapply total_bind; [now apply total_second_pass|].
    intros ? ?; now apply total_ret.
Qed.

Lemma total_half_second : total ready (fun _ => True) (sleep 0.5).
Proof. now apply total_sleep. Qed.

Lemma total_sequential_choice idx count jc :
  total ready (fun _ => True)
    (sequential_choice remote tc dictionary idx count jc).
Proof using Hretry.
  destruct jc as [j choice]. unfold sequential_choice.
  destruct (_ && _); [|now apply total_ret].
  eapply total_bind; [now apply total_translate_text|]. intros t _.
  eapply total_bind; [apply total_write_target|]. intros _ _.
  eapply total_bind; [apply total_half_second|].
  intros ? ?; now apply total_ret.
Qed.

Lemma total_sequential_block count ib :
  total ready (fun _ => True)
    (sequential_block remote tc dictionary count ib).
Proof using Hretry.
  destruct ib as [idx block]. unfold sequential_block.
  eapply total_bind with (Q1 := fun _ => True).
  { destruct (_ && _); [|now apply total_ret].
    eapply total_bind; [now apply total_translate_text|]. intros t _.
    eapply total_bind; [apply total_write_target|]. intros _ _.
    eapply total_bind; [apply total_half_second|].
    intros ? ?; now apply total_ret. }
  intros [en_name count1] _.
  eapply total_bind with (Q1 := fun _ => True).
  { destruct (_ && _); [|now apply total_ret].
    eapply total_bind; [now apply total_translate_text|]. intros t _.
    eapply total_bind; [apply total_write_target|]. intros _ _.
    eapply total_bind; [apply total_half_second|].
    intros ? ?; now apply total_ret. }
  intros [en_text count2] _.
  eapply total_bind with (Q1 := fun _ => True).
  { intros st Hst. split; [exact Hst|]. now exists tt. }
  intros _ _.
  destruct (choices block) as [[|c cs]|]; try now apply total_ret.
  apply total_for_each. intros ? ?. apply total_sequential_choice.
Qed.

Lemma total_sequential :
  total ready (fun _ => True)
    (_translate_json_sequential remote tc dictionary).
Proof using Hretry.
  unfold _translate_json_sequential.
  eapply total_bind; [apply total_get_state|]. intros st _.
  apply total_for_each. intros ? ?. apply total_sequential_block.
Qed.

Lemma file_returns input st :
  ready st ->
  (default true (use_batch_translation tc) = true ->
   default 25%Z (batch_size tc) <> 0%Z) ->
  exists output,
    fst (translate_json_file remote tc dictionary input st) = Return output.
Proof using Hretry.
  intros Hst Hbs.
  assert (Hfile : total ready (fun _ => True)
                    (translate_json_file remote tc dictionary input)).
  { unfold translate_json_file.
    eapply total_bind with (Q1 := fun _ => True).
    { intros s Hs. split; [exact Hs|]. now exists tt. }
    intros _ _.
    eapply total_bind with (Q1 := fun _ => True).
    { intros s Hs. split; [exact Hs|]. now exists tt. }
    intros _ _.
    eapply total_bind with (Q1 := fun _ => True).
    { destruct (default true (use_batch_translation tc));
        [now apply total_batched, Hbs|apply total_sequential]. }
    intros n _.
    eapply total_bind with (Q1 := fun _ => True).
    { intros s Hs. split; [exact Hs|]. now eexists. }
    intros _ _.
    eapply total_bind; [apply total_get_state|].
    intros s _. now apply total_ret. }
  destruct (Hfile st Hst) as [_ (output & Hout & _)]. now exists output.
Qed.

End FileNeverFails.



(** ** The cleanup pass *)

Lemma fold_left_add (l : list Z) (a : Z) :
  fold_left Z.add l a = (a + fold_right Z.add 0%Z l)%Z.
Proof.
  revert a. induction l as [|x l IH]; intros a; simpl; [lia|].
  rewrite IH. lia.
Qed.

Section Cleanup.
Context {U : UnicodeDB}.

Lemma is_monologue_nil : is_monologue [] = false.
Proof.
  unfold is_monologue. now rewrite lower_ascii by constructor.
Qed.

Lemma is_monologue_field (f : option str) :
  is_monologue (get_str f) = true -> f <> Some [] /\ f <> None.
Proof.
  destruct f as [[|c s]|]; simpl; rewrite ?is_monologue_nil; easy.
Qed.

Lemma cleaned_fields_bounds b : (0 <= cleaned_fields b <= 2)%Z.
Proof.
  unfold cleaned_fields.
  destruct (is_monologue _), (_ && is_monologue _); lia.
Qed.

Lemma cleaned_fields_zero b : cleaned_fields b = 0%Z <-> clean_block b = b.
Proof.
  unfold cleaned_fields, clean_block.
  destruct (is_monologue (get_str (enName b))) eqn:Hname;
    destruct (_ && is_monologue (get_str (enText b))) eqn:Htext;
    (split; [try lia; try reflexivity|try reflexivity]).
  - intros H. apply (f_equal enName) in H. simpl in H.
    apply is_monologue_field in Hname. destruct Hname; congruence.
  - intros H. apply (f_equal enName) in H. simpl in H.
    apply is_monologue_field in Hname. destruct Hname; congruence.
  - intros H. apply (f_equal enText) in H. simpl in H.
    apply andb_true_iff in Htext as [_ Htext].
    apply is_monologue_field in Htext. destruct Htext; congruence.
Qed.

Lemma clean_block_cleaned b : cleaned_fields (clean_block b) = 0%Z.
Proof.
  unfold cleaned_fields, clean_block.
  destruct (is_monologue (get_str (enName b))) eqn:Hname;
    destruct (_ && is_monologue (get_str (enText b))) eqn:Htext;
    simpl; rewrite ?is_monologue_nil, ?Hname, ?Htext, ?andb_false_r;
    reflexivity.
Qed.

Lemma clean_block_name b :
  is_monologue (get_str (enName (clean_block b))) = false.
Proof.
  unfold clean_block.
  destruct (is_monologue (get_str (enName b))) eqn:Hname;
    destruct (_ && is_monologue (get_str (enText b)));
    simpl; rewrite ?is_monologue_nil; easy.
Qed.

Lemma cleaned_total_bounds (blocks : list Block) :
  (0 <= fold_right Z.add 0%Z (map cleaned_fields blocks)
   <= 2 * Z.of_nat (length blocks))%Z.
Proof.
  induction blocks as [|b blocks IH]; simpl; [lia|].
  pose proof (cleaned_fields_bounds b). lia.
Qed.

Lemma cleaned_total_zero (blocks : list Block) :
  fold_right Z.add 0%Z (map cleaned_fields blocks) = 0%Z
  <-> map clean_block blocks = blocks.
Proof.
  induction blocks as [|b blocks IH]; simpl; [easy|].
  pose proof (cleaned_fields_bounds b).
  pose proof (cleaned_total_bounds blocks).
  split.
  - intros Hsum. f_equal; [apply cleaned_fields_zero; lia|apply IH; lia].
  - intros [= Hb Hrest].
    apply cleaned_fields_zero in Hb. apply IH in Hrest. lia.
Qed.

Lemma cleaned_total_clean (blocks : list Block) :
  fold_right Z.add 0%Z (map cleaned_fields (map clean_block blocks)) = 0%Z.
Proof.
  induction blocks as [|b blocks IH]; simpl; [reflexivity|].
  rewrite clean_block_cleaned, IH. reflexivity.
Qed.

End Cleanup.

(** [_clean_monologue_names] always returns.  The count it returns lies
    between zero and twice the number of blocks, and is zero exactly
    when the pass has changed nothing; afterwards no target name is
    "monologue" in any letter case, and a second run of the pass
    changes nothing and returns zero. *)
Theorem clean_monologue_names_laws {U : UnicodeDB} (st : State) :
  exists n,
    _clean_monologue_names st
    = (Return n, mkState (llm_config st) (current_context st)
                   (map clean_block (data st)) (trace st))
    /\ (0 <= n <= 2 * Z.of_nat (length (data st)))%Z
    /\ (n = 0%Z <-> map clean_block (data st) = data st)
    /\ Forall (fun b => is_monologue (get_str (enName b)) = false)
         (map clean_block (data st))
    /\ _clean_monologue_names (snd (_clean_monologue_names st))
       = (Return 0%Z, snd (_clean_monologue_names st)).
Proof.
  exists (fold_left Z.add (map cleaned_fields (data st)) 0%Z).
  split; [reflexivity|]. rewrite fold_left_add, Z.add_0_l.
  split; [apply cleaned_total_bounds|].
  split; [apply cleaned_total_zero|]. split.
  - apply List.Forall_forall. intros b Hb.
    apply in_map_iff in Hb as (b0 & <- & _). apply clean_block_name.
  - unfold _clean_monologue_names. rewrite !bind_run. cbn.
    rewrite fold_left_add, cleaned_total_clean.
    pose proof (cleaned_total_zero (map clean_block (data st))) as Hz.
    rewrite (proj1 Hz) by apply cleaned_total_clean. reflexivity.
Qed.

(** ** The settings a request is built from *)

Section Carries.
Variable c : LlmConfig.

Lemma requests_with_refl st : requests_with c st st.
Proof.
  intros Hc. split; [assumption|]. exists []. split; [now rewrite app_nil_r|constructor].
Qed.

Lemma requests_with_trans a b d :
  requests_with c a b -> requests_with c b d -> requests_with c a d.
Proof.
  intros Hab Hbd Ha. destruct (Hab Ha) as [Hb (e1 & Ht1 & He1)].
  destruct (Hbd Hb) as [Hd (e2 & Ht2 & He2)]. split; [assumption|].
  exists (e1 ++ e2). split; [rewrite Ht2, Ht1; now rewrite app_assoc|].
  now apply Forall_app.
Qed.

Lemma requests_with_intro st st' :
  (llm_config st = c -> requests_with c st st') -> requests_with c st st'.
Proof. intros H Hc. exact (H Hc Hc). Qed.

Lemma carries_emit e : carries c e -> preserves (requests_with c) (emit e).
Proof.
  intros He st Hc. split; [assumption|]. exists [e]. split; [reflexivity|].
  now repeat constructor.
Qed.

Lemma carries_sleep d : preserves (requests_with c) (sleep d).
Proof.
  unfold sleep. destruct (Qle_bool 0 d).
  - now apply carries_emit.
  - apply preserves_raise, requests_with_refl.
Qed.

Lemma carries_write_target t v : preserves (requests_with c) (write_target t v).
Proof.
  intros st Hc. split; [assumption|]. exists [EvWrite t v].
  split; [reflexivity|]. now repeat constructor.
Qed.

Context {U : UnicodeDB}.
Variable remote : list Event -> Request -> Outcome.
Variable tc : TransConfig.
Variable dictionary : list (str * str).

Lemma carries_post rq :
  carries c (EvRequest rq) -> preserves (requests_with c) (post remote rq).
Proof.
  intros Hrq. unfold post.
  pose proof (carries_emit _ Hrq).
  frame_rules requests_with_refl requests_with_trans.
Qed.

Lemma carries_call_llm_rec fuel text context : forall rc,
  preserves (requests_with c) (call_llm_rec remote tc fuel text context rc).
Proof.
  pose proof carries_sleep as Hsleep.
  induction fuel as [|fuel IH]; intros rc st;
    apply requests_with_intro; intros Hc;
    cbn [call_llm_rec]; rewrite bind_run; cbn [get_state]; rewrite Hc;
    (destruct (api_key c) as [key|] eqn:Hkey;
     [|apply requests_with_refl]);
    rewrite bind_run; cbn [lookup_key ret];
    (destruct (model c) as [m|] eqn:Hm; [|apply requests_with_refl]);
    rewrite bind_run; cbn [lookup_key ret];
    (destruct (system_prompt c) as [sys|] eqn:Hsys;
     [|apply requests_with_refl]);
    rewrite bind_run; cbn [lookup_key ret];
    (destruct (temperature c) as [temp|] eqn:Htemp;
     [|apply requests_with_refl]);
    rewrite bind_run; cbn [lookup_key ret];
    (destruct (max_tokens c) as [tok|] eqn:Htok;
     [|apply requests_with_refl]);
    rewrite bind_run; cbn [lookup_key ret];
    (apply (preserves_try_except _ requests_with_trans);
     [destruct (api_url c) as [url|] eqn:Hurl;
      [|frame_rules requests_with_refl requests_with_trans];
      intros st'; rewrite bind_run; cbn [lookup_key ret];
      apply (preserves_bind _ requests_with_trans);
      [apply carries_post; eexists; unfold request_of;
       rewrite Hurl, Hkey, Hm, Hsys, Htemp, Htok; reflexivity
      |intros; apply (preserves_ret _ requests_with_refl)]
     |intros e; frame_rules requests_with_refl requests_with_trans]).
Qed.

Lemma carries_call_llm text context rc :
  preserves (requests_with c) (call_llm remote tc text context rc).
Proof. apply carries_call_llm_rec. Qed.

#[local] Hint Resolve carries_call_llm carries_sleep carries_write_target : frame.

Lemma carries_translate_batch_rec fuel texts uc : forall rc,
  preserves (requests_with c)
    (translate_batch_rec remote tc dictionary fuel texts uc rc).
Proof.
  induction fuel as [|fuel IH]; intros rc;
    destruct texts; simpl; frame_rules requests_with_refl requests_with_trans.
Qed.

Lemma carries_translate_batch texts uc rc :
  preserves (requests_with c)
    (translate_batch remote tc dictionary texts uc rc).
Proof. apply carries_translate_batch_rec. Qed.

Lemma carries_translate_text_rec fuel text is_name uc : forall rc,
  preserves (requests_with c)
    (translate_text_rec remote tc dictionary fuel text is_name uc rc).
Proof.
  induction fuel as [|fuel IH]; intros rc; simpl;
    frame_rules requests_with_refl requests_with_trans.
Qed.

Lemma carries_translate_text text is_name uc rc :
  preserves (requests_with c)
    (translate_text remote tc dictionary text is_name uc rc).
Proof. apply carries_translate_text_rec. Qed.

Lemma carries_add_to_context a b d e :
  preserves (requests_with c) (add_to_context tc a b d e).
Proof.
  intros st Hc. split; [assumption|]. exists [].
  split; [simpl; now rewrite app_nil_r|constructor].
Qed.

#[local] Hint Resolve carries_translate_batch carries_translate_text
  carries_add_to_context : frame.

Lemma carries_second_pass_loop failed bs starts count :
  preserves (requests_with c)
    (for_each_break (second_pass_batch remote tc dictionary failed bs)
       starts count).
Proof.
  unfold second_pass_batch, second_pass_item.
  frame_rules requests_with_refl requests_with_trans.
Qed.

Lemma carries_first_pass_loop all_items bs nb ks acc :
  preserves (requests_with c)
    (for_each (first_pass_batch remote tc dictionary all_items bs nb) ks acc).
Proof.
  unfold first_pass_batch, first_pass_item.
  frame_rules requests_with_refl requests_with_trans.
Qed.

Lemma carries_sequential :
  preserves (requests_with c)
    (_translate_json_sequential remote tc dictionary).
Proof.
  unfold _translate_json_sequential, sequential_block, sequential_choice.
  frame_rules requests_with_refl requests_with_trans.
Qed.

End Carries.

Section SecondPassSettings.
Context {U : UnicodeDB}.
Variable remote : list Event -> Request -> Outcome.
Variable tc : TransConfig.
Variable dictionary : list (str * str).

Lemma second_pass_carries failed st :
  exists evs,
    trace (snd (_second_pass_translation remote tc dictionary failed st))
    = trace st ++ evs
    /\ Forall (carries (second_pass_config tc (llm_config st))) evs.
Proof.
  assert (Hnone : exists evs : list Event,
            trace st = trace st ++ evs
            /\ Forall (carries (second_pass_config tc (llm_config st))) evs).
  { exists []. split; [now rewrite app_nil_r|constructor]. }
  unfold _second_pass_translation.
  destruct failed as [|f failed]; [exact Hnone|].
  set (items := f :: failed). clearbody items.
  rewrite bind_run. cbn [get_state].
  destruct (model (llm_config st)) as [m|] eqn:Hm; [|exact Hnone].
  rewrite bind_run. cbn [lookup_key ret].
  destruct (temperature (llm_config st)) as [t|] eqn:Ht; [|exact Hnone].
  rewrite bind_run. cbn [lookup_key ret].
  destruct (str_eqb _ m); [exact Hnone|].
  rewrite bind_run. unfold set_model_temperature at 1.
  rewrite bind_run. cbn [get_state set_llm_config].
  match goal with
  | |- context [bind _ _ ?s] => set (st2 := s)
  end.
  assert (Hc2 : llm_config st2 = second_pass_config tc (llm_config st)).
  { unfold st2, second_pass_config. simpl. now rewrite Hm. }
  rewrite bind_run.
  assert (Hstarts : exists l,
            py_range_step (Z.of_nat (length items))
              (default 25%Z (batch_size tc)) st2 = (Return l, st2)
            \/ exists e,
                 py_range_step (Z.of_nat (length items))
                   (default 25%Z (batch_size tc)) st2 = (Raise e, st2)).
  { unfold py_range_step. destruct (_ =? 0)%Z; [exists []; right; eauto|].
    destruct (_ <? 0)%Z; eexists; left; reflexivity. }
  destruct Hstarts as [starts [-> |[e ->]]]; [|exact Hnone].
  rewrite bind_run.
  destruct (carries_second_pass_loop _ remote tc dictionary items
              (default 25%Z (batch_size tc)) starts 0%Z st2 Hc2)
    as [_ (evs & Htr & Hevs)].
  destruct (for_each_break _ starts 0%Z st2) as [[n|e] st3];
    simpl in Htr; [|now exists evs].
  exists evs. split; [exact Htr|exact Hevs].
Qed.

Lemma batched_carries st :
  exists first second,
    trace (snd (_translate_json_batched remote tc dictionary st))
    = trace st ++ first ++ second
    /\ Forall (carries (llm_config st)) first
    /\ Forall (carries (second_pass_config tc (llm_config st))) second.
Proof.
  assert (Hnone : exists first second : list Event,
            trace st = trace st ++ first ++ second
            /\ Forall (carries (llm_config st)) first
            /\ Forall (carries (second_pass_config tc (llm_config st)))
                 second).
  { exists [], []. split; [now rewrite app_nil_r|]. split; constructor. }
  unfold _translate_json_batched. rewrite bind_run. cbn [get_state].
  destruct (collect_items (data st)) as [|item items]; [exact Hnone|].
  set (all_items := item :: items). clearbody all_items.
  rewrite bind_run. unfold floordiv.
  destruct (_ =? 0)%Z; [exact Hnone|]. cbn [ret].
  rewrite bind_run.
  match goal with
  | |- context [for_each ?body ?ks ?acc st] =>
      destruct (carries_first_pass_loop (llm_config st) remote tc dictionary
                  all_items (default 25%Z (batch_size tc))
                  ((Z.of_nat (length all_items)
                    + default 25%Z (batch_size tc) - 1)
                   / default 25%Z (batch_size tc))
                  ks acc st eq_refl) as [Hc1 (first & Ht1 & Hfirst)];
      destruct (for_each body ks acc st) as [[[count failed]|e] st1]
  end; simpl in Hc1, Ht1.
  - destruct (_ && _).
    + rewrite bind_run.
      destruct (second_pass_carries failed st1) as (second & Ht2 & Hsecond).
      rewrite Hc1 in Hsecond.
      exists first, second. split; [|now split].
      destruct (_second_pass_translation _ _ _ failed st1) as [[n|e] st2];
        simpl in *; rewrite Ht2, Ht1; now rewrite app_assoc.
    + exists first, []. rewrite app_nil_r. repeat split; try assumption.
      constructor.
  - exists first, []. rewrite app_nil_r. repeat split; try assumption.
    constructor.
Qed.

Lemma sequential_carries st :
  exists evs,
    trace (snd (_translate_json_sequential remote tc dictionary st))
    = trace st ++ evs
    /\ Forall (carries (llm_config st)) evs.
Proof.
  now destruct (carries_sequential (llm_config st) remote tc dictionary st
                  eq_refl) as [_ H].
Qed.

End SecondPassSettings.

(** Every request of a pass is built from the client settings in force:
    a sequential pass and the first pass of a batched run send the
    address, key, model, system prompt, temperature, token limit and
    sampling parameters the pipeline holds when the pass starts; the
    second pass sends the same except for the model and temperature,
    which are [second_pass_model] and [second_pass_temperature] (0.3
    when not set). *)
Theorem pass_requests_carry_settings {U : UnicodeDB}
  (remote : list Event -> Request -> Outcome) (tc : TransConfig)
  (dictionary : list (str * str)) (st : State) :
  (exists evs,
     trace (snd (_translate_json_sequential remote tc dictionary st))
     = trace st ++ evs
     /\ Forall (carries (llm_config st)) evs)
  /\ (exists first second,
        trace (snd (_translate_json_batched remote tc dictionary st))
        = trace st ++ first ++ second
        /\ Forall (carries (llm_config st)) first
        /\ Forall (carries (second_pass_config tc (llm_config st))) second)
  /\ forall failed,
       exists evs,
         trace (snd (_second_pass_translation remote tc dictionary failed st))
         = trace st ++ evs
         /\ Forall (carries (second_pass_config tc (llm_config st))) evs.
Proof.
  split; [apply sequential_carries|].
  split; [apply batched_carries|].
  intros failed. apply second_pass_carries.
Qed.

(** ** The assignments of the sequential pass *)

Section SequentialWrites.
Context {U : UnicodeDB}.
Variable remote : list Event -> Request -> Outcome.
Variable tc : TransConfig.
Variable dictionary : list (str * str).

(** One translated unit of the sequential pass: the call, the
    assignment and the pause. *)
Lemma sequential_unit_value text is_name uc t count st r st' :
  (let* en := translate_text remote tc dictionary text is_name uc 0 in
   let* _ := write_target t en in
   let* _ := sleep 0.5 in
   ret (en, (count + 1)%Z)) st = (Return r, st') ->
  exists evs,
    trace st' = trace st ++ evs /\ write_targets evs = [t]
    /\ snd r = (count + 1)%Z.
Proof.
  rewrite bind_run.
  pose proof (quiet_translate_text remote tc dictionary text is_name uc 0 st)
    as Hq.
  destruct (translate_text _ _ _ _ _ _ _ st) as [[en|e] st1]; [|discriminate].
  destruct Hq as (_ & _ & _ & evs & Htr & Hevs). simpl in Htr.
  rewrite bind_run, write_target_run. rewrite bind_run.
  cbn. intros [= <- <-]. cbn [trace snd].
  exists (evs ++ [EvWrite t en; EvSleep 0.5]).
  split; [rewrite Htr; now rewrite <- !app_assoc|].
  split; [|reflexivity].
  rewrite write_targets_app, write_targets_quiet by assumption.
  reflexivity.
Qed.

Lemma sequential_choice_value idx count jc st r st' :
  sequential_choice remote tc dictionary idx count jc st = (Return r, st') ->
  exists evs,
    trace st' = trace st ++ evs
    /\ write_targets evs = sequential_choice_unit idx jc
    /\ r = (count + Z.of_nat (length (sequential_choice_unit idx jc)))%Z.
Proof.
  destruct jc as [j choice]. unfold sequential_choice, sequential_choice_unit.
  destruct (_ && _).
  - rewrite bind_run.
    pose proof (quiet_translate_text remote tc dictionary
                  (get_str (c_jpText choice)) false true 0 st) as Hq.
    destruct (translate_text _ _ _ _ _ _ _ st) as [[en|e] st1];
      [|discriminate].
    destruct Hq as (_ & _ & _ & evs & Htr & Hevs). simpl in Htr.
    rewrite bind_run, write_target_run. rewrite bind_run.
    cbn. intros [= <- <-]. cbn [trace].
    exists (evs ++ [EvWrite (TChoice idx j) en; EvSleep 0.5]).
    split; [rewrite Htr; now rewrite <- !app_assoc|].
    split; [|reflexivity].
    rewrite write_targets_app, write_targets_quiet by assumption.
    reflexivity.
  - intros [= <- <-]. exists []. rewrite app_nil_r. simpl.
    repeat split. lia.
Qed.

Lemma sequential_choices_value idx (l : list (nat * Choice)) :
  forall count st r st',
    for_each (sequential_choice remote tc dictionary idx) l count st
    = (Return r, st') ->
    exists evs,
      trace st' = trace st ++ evs
      /\ write_targets evs = flat_map (sequential_choice_unit idx) l
      /\ r = (count
              + Z.of_nat (length (flat_map (sequential_choice_unit idx) l)))%Z.
Proof.
  induction l as [|jc l IH]; intros count st r st'.
  - simpl. intros [= <- <-]. exists []. rewrite app_nil_r.
    repeat split. lia.
  - cbn [for_each]. rewrite bind_run.
    destruct (sequential_choice _ _ _ idx count jc st) as [[c1|e] st1] eqn:Hc;
      [|discriminate].
    apply sequential_choice_value in Hc as (e1 & Ht1 & Hw1 & Hc1).
    intros Hrest. apply IH in Hrest as (e2 & Ht2 & Hw2 & Hc2).
    exists (e1 ++ e2). split; [rewrite Ht2, Ht1; now rewrite app_assoc|].
    cbn [flat_map]. rewrite write_targets_app, Hw1, Hw2.
    split; [reflexivity|]. rewrite length_app. lia.
Qed.

Lemma sequential_block_value count ib st r st' :
  sequential_block remote tc dictionary count ib st = (Return r, st') ->
  exists evs,
    trace st' = trace st ++ evs
    /\ write_targets evs = sequential_units ib
    /\ r = (count + Z.of_nat (length (sequential_units ib)))%Z.
Proof.
  destruct ib as [idx block]. unfold sequential_block, sequential_units.
  rewrite bind_run.
  set (name_step := if str_eqb (get_str (enName block)) []
                       && truthy (get_str (jpName block))
                    then _ else _).
  assert (Hname : forall r1 st1, name_step st = (Return r1, st1) ->
            exists evs,
              trace st1 = trace st ++ evs
              /\ write_targets evs
                 = (if str_eqb (get_str (enName block)) []
                       && truthy (get_str (jpName block))
                    then [TName idx] else [])
              /\ snd r1 = (count + Z.of_nat (length (write_targets evs)))%Z).
  { intros r1 st1. unfold name_step.
    destruct (str_eqb (get_str (enName block)) []
              && truthy (get_str (jpName block))).
    - intros H. apply sequential_unit_value in H as (evs & Ht & Hw & Hc).
      exists evs. rewrite Hw. repeat split; assumption.
    - intros [= <- <-]. exists []. rewrite app_nil_r. simpl.
      repeat split. lia. }
  destruct (name_step st) as [[[en_name c1]|e] st1]; [|discriminate].
  destruct (Hname _ _ eq_refl) as (e1 & Ht1 & Hw1 & Hc1). clear Hname.
  simpl in Hc1. rewrite bind_run.
  set (text_step := if str_eqb (get_str (enText block)) []
                       && truthy (get_str (jpText block))
                    then _ else _).
  assert (Htext : forall r2 st2, text_step st1 = (Return r2, st2) ->
            exists evs,
              trace st2 = trace st1 ++ evs
              /\ write_targets evs
                 = (if str_eqb (get_str (enText block)) []
                       && truthy (get_str (jpText block))
                    then [TText idx] else [])
              /\ snd r2 = (c1 + Z.of_nat (length (write_targets evs)))%Z).
  { intros r2 st2. unfold text_step.
    destruct (str_eqb (get_str (enText block)) []
              && truthy (get_str (jpText block))).
    - intros H. apply sequential_unit_value in H as (evs & Ht & Hw & Hc).
      exists evs. rewrite Hw. repeat split; assumption.
    - intros [= <- <-]. exists []. rewrite app_nil_r. simpl.
      repeat split. lia. }
  destruct (text_step st1) as [[[en_text c2]|e] st2]; [|discriminate].
  destruct (Htext _ _ eq_refl) as (e2 & Ht2 & Hw2 & Hc2). clear Htext.
  simpl in Hc2. rewrite bind_run. unfold add_to_context at 1.
  rewrite bind_run. cbn [get_state set_context].
  match goal with
  | |- context [mkState ?a ?b ?d ?t] => set (st3 := mkState a b d t)
  end.
  assert (Ht3 : trace st3 = trace st ++ e1 ++ e2).
  { unfold st3. simpl. rewrite Ht2, Ht1. now rewrite app_assoc. }
  rewrite <- Hw1, <- Hw2.
  assert (Hdone : forall e3 : list Event,
            (e1 ++ e2) ++ e3 = e1 ++ e2 ++ e3) by (intros; now rewrite app_assoc).
  destruct (choices block) as [[|ch cs]|].
  - intros [= <- <-]. exists (e1 ++ e2).
    split; [assumption|]. rewrite !write_targets_app, app_nil_r.
    split; [reflexivity|]. rewrite length_app. lia.
  - intros H. apply sequential_choices_value in H as (e3 & Ht & Hw & Hc).
    exists (e1 ++ e2 ++ e3).
    split; [rewrite Ht, Ht3; now rewrite <- !app_assoc|].
    rewrite !write_targets_app, Hw. split; [reflexivity|].
    rewrite !length_app. lia.
  - intros [= <- <-]. exists (e1 ++ e2).
    split; [assumption|]. rewrite !write_targets_app, app_nil_r.
    split; [reflexivity|]. rewrite length_app. lia.
Qed.

Lemma sequential_blocks_value (l : list (nat * Block)) :
  forall count st r st',
    for_each (sequential_block remote tc dictionary) l count st
    = (Return r, st') ->
    exists evs,
      trace st' = trace st ++ evs
      /\ write_targets evs = flat_map sequential_units l
      /\ r = (count + Z.of_nat (length (flat_map sequential_units l)))%Z.
Proof.
  induction l as [|ib l IH]; intros count st r st'.
  - simpl. intros [= <- <-]. exists []. rewrite app_nil_r.
    repeat split. lia.
  - cbn [for_each]. rewrite bind_run.
    destruct (sequential_block _ _ _ count ib st) as [[c1|e] st1] eqn:Hb;
      [|discriminate].
    apply sequential_block_value in Hb as (e1 & Ht1 & Hw1 & Hc1).
    intros Hrest. apply IH in Hrest as (e2 & Ht2 & Hw2 & Hc2).
    exists (e1 ++ e2). split; [rewrite Ht2, Ht1; now rewrite app_assoc|].
    cbn [flat_map]. rewrite write_targets_app, Hw1, Hw2.
    split; [reflexivity|]. rewrite length_app. lia.
Qed.

End SequentialWrites.

(** A sequential pass that returns has assigned, block after block, the
    name, then the text, then the choices of the block that had a source
    and no translation, each exactly once and nothing else; the count it
    returns is the number of these assignments. *)
Theorem sequential_writes_each_once {U : UnicodeDB}
  (remote : list Event -> Request -> Outcome) (tc : TransConfig)
  (dictionary : list (str * str)) (st : State) (n : Z) :
  fst (_translate_json_sequential remote tc dictionary st) = Return n ->
  exists evs,
    trace (snd (_translate_json_sequential remote tc dictionary st))
    = trace st ++ evs
    /\ write_targets evs = flat_map sequential_units (enumerate (data st))
    /\ n = Z.of_nat (length (flat_map sequential_units (enumerate (data st)))).
Proof.
  unfold _translate_json_sequential. rewrite bind_run. cbn [get_state].
  destruct (for_each _ (enumerate (data st)) 0%Z st) as [r st'] eqn:Hrun.
  cbn [fst snd]. intros ->.
  apply sequential_blocks_value in Hrun as (evs & Ht & Hw & Hc).
  exists evs. split; [assumption|]. split; [assumption|]. lia.
Qed.

Lemma sequential_writes_each_once_witness :
  exists evs,
    trace (snd (_translate_json_sequential Sample.down Sample.trans []
                  (Sample.state [Sample.block])))
    = trace (Sample.state [Sample.block]) ++ evs
    /\ write_targets evs
       = flat_map sequential_units
           (enumerate (data (Sample.state [Sample.block])))
    /\ 1%Z = Z.of_nat (length (flat_map sequential_units
                                 (enumerate
                                    (data (Sample.state [Sample.block]))))).
Proof.
  apply (sequential_writes_each_once (U := ascii_db) Sample.down Sample.trans
           [] (Sample.state [Sample.block]) 1%Z).
  vm_compute. reflexivity.
Defined.

Section BothPasses.
Context {U : UnicodeDB}.

Lemma choice_unit_targets idx (l : list (nat * Choice)) :
  map target (flat_map (choice_unit idx) l)
  = flat_map (sequential_choice_unit idx) l.
Proof.
  induction l as [|[j c] l IH]; [reflexivity|].
  cbn [flat_map]. rewrite map_app, IH. f_equal.
  unfold choice_unit, sequential_choice_unit. now destruct (_ && _).
Qed.

Lemma choice_units_targets idx b :
  map target (choice_units (idx, b))
  = match choices b with
    | Some ((_ :: _) as cs) =>
        flat_map (sequential_choice_unit idx) (enumerate cs)
    | _ => []
    end.
Proof.
  unfold choice_units. destruct (choices b) as [[|c cs]|]; try reflexivity.
  apply choice_unit_targets.
Qed.

Lemma sequential_choice_unit_In idx (l : list (nat * Choice)) t :
  In t (flat_map (sequential_choice_unit idx) l) ->
  exists j, t = TChoice idx j.
Proof.
  intros H. apply in_flat_map in H as ([j c] & _ & H).
  unfold sequential_choice_unit in H.
  destruct (_ && _); [|easy]. destruct H as [<-|[]]. eauto.
Qed.

Lemma text_unit_targets idx b :
  map target (text_unit (idx, b))
  = if str_eqb (get_str (enText b)) [] && truthy (get_str (jpText b))
    then [TText idx] else [].
Proof. unfold text_unit. now destruct (_ && _). Qed.

Lemma name_unit_targets idx b t :
  In t (map target (name_unit (idx, b)))
  <-> In t (if str_eqb (get_str (enName b)) [] && truthy (get_str (jpName b))
            then [TName idx] else [])
      /\ strip (get_str (jpName b)) <> [].
Proof.
  unfold name_unit.
  destruct (str_eqb (get_str (enName b)) [] && truthy (get_str (jpName b)));
    simpl; [|tauto].
  destruct (strip (get_str (jpName b))); simpl; [tauto|].
  split; [intros H; split; [exact H|easy]|tauto].
Qed.

(** The units of one block in both passes. *)
Lemma block_units idx b t :
  In t (map target (name_unit (idx, b)))
  \/ In t (map target (text_unit (idx, b)))
  \/ In t (map target (choice_units (idx, b)))
  <-> In t (sequential_units (idx, b))
      /\ ~ (t = TName idx /\ strip (get_str (jpName b)) = []).
Proof.
  unfold sequential_units. cbv beta iota.
  rewrite name_unit_targets, text_unit_targets, choice_units_targets.
  rewrite !in_app_iff.
  assert (HN : In t (if str_eqb (get_str (enName b)) []
                        && truthy (get_str (jpName b))
                     then [TName idx] else []) -> t = TName idx).
  { destruct (str_eqb (get_str (enName b)) []
              && truthy (get_str (jpName b))); simpl; intuition congruence. }
  assert (HT : In t (if str_eqb (get_str (enText b)) []
                        && truthy (get_str (jpText b))
                     then [TText idx] else []) -> t = TText idx).
  { destruct (str_eqb (get_str (enText b)) []
              && truthy (get_str (jpText b))); simpl; intuition congruence. }
  assert (HC : In t (match choices b with
                     | Some ((_ :: _) as cs) =>
                         flat_map (sequential_choice_unit idx) (enumerate cs)
                     | _ => []
                     end) -> exists j, t = TChoice idx j).
  { destruct (choices b) as [[|c cs]|]; try (simpl; tauto).
    apply sequential_choice_unit_In. }
  pose (N := if str_eqb (get_str (enName b)) []
                && truthy (get_str (jpName b))
             then [TName idx] else []).
  pose (T := if str_eqb (get_str (enText b)) []
                && truthy (get_str (jpText b))
             then [TText idx] else []).
  pose (C := match choices b with
             | Some ((_ :: _) as cs) =>
                 flat_map (sequential_choice_unit idx) (enumerate cs)
             | _ => []
             end).
  change (In t N -> t = TName idx) in HN.
  change (In t T -> t = TText idx) in HT.
  change (In t C -> exists j, t = TChoice idx j) in HC.
  change ((In t N /\ strip (get_str (jpName b)) <> []) \/ In t T \/ In t C
          <-> (In t N \/ In t T \/ In t C)
              /\ ~ (t = TName idx /\ strip (get_str (jpName b)) = [])).
  clearbody N T C.
  split.
  - intros [[H Hs]|[H|H]].
    + split; [tauto|]. intros [_ Hnil]. contradiction.
    + split; [tauto|]. intros [-> _]. now apply HT in H.
    + split; [tauto|]. intros [-> _]. now destruct (HC H).
  - intros [[H|[H|H]] Hnot]; [|tauto|tauto].
    left. split; [assumption|]. intros Hnil. apply Hnot. split; auto.
Qed.

Lemma sequential_units_block idx b t :
  In t (sequential_units (idx, b)) ->
  match t with TName i | TText i | TChoice i _ => i = idx end.
Proof.
  unfold sequential_units. rewrite !in_app_iff. intros [H|[H|H]].
  - destruct (_ && _); [|easy]. now destruct H as [<-|[]].
  - destruct (_ && _); [|easy]. now destruct H as [<-|[]].
  - destruct (choices b) as [[|c cs]|]; try easy.
    now apply sequential_choice_unit_In in H as [j ->].
Qed.

Lemma In_map_flat_map {A B C} (f : A -> list B) (g : B -> C) l c :
  In c (map g (flat_map f l)) <-> exists a, In a l /\ In c (map g (f a)).
Proof.
  rewrite in_map_iff. split.
  - intros (b & <- & Hb). apply in_flat_map in Hb as (a & Ha & Hb).
    exists a. split; [assumption|]. now apply in_map.
  - intros (a & Ha & Hc). apply in_map_iff in Hc as (b & <- & Hb).
    exists b. split; [reflexivity|]. apply in_flat_map. eauto.
Qed.

Lemma collected_and_sequential (blocks : list Block) t :
  In t (map target (collect_items blocks))
  <-> In t (flat_map sequential_units (enumerate blocks))
      /\ ~ blank_name blocks t.
Proof.
  rewrite collect_items_spec, !map_app, !in_app_iff, !In_map_flat_map.
  rewrite in_flat_map.
  split.
  - intros H.
    assert (exists ib, In ib (enumerate blocks)
              /\ (In t (map target (name_unit ib))
                  \/ In t (map target (text_unit ib))
                  \/ In t (map target (choice_units ib))))
      as ([idx b] & Hib & Hunits).
    { destruct H as [(ib & ? & ?)|[(ib & ? & ?)|(ib & ? & ?)]];
        exists ib; tauto. }
    apply block_units in Hunits as [Hseq Hnot].
    split; [eauto|].
    intros Hblank. apply Hnot.
    pose proof (sequential_units_block _ _ _ Hseq) as Hidx.
    destruct t as [i|i|i j]; try easy. subst i.
    destruct Hblank as (b' & Hb' & Hnil).
    apply enumerate_lookup in Hib. rewrite Hib in Hb'.
    injection Hb' as <-. now split.
  - intros [([idx b] & Hib & Hseq) Hnot].
    assert (Hunits : In t (map target (name_unit (idx, b)))
                     \/ In t (map target (text_unit (idx, b)))
                     \/ In t (map target (choice_units (idx, b)))).
    { apply block_units. split; [assumption|].
      intros [-> Hnil]. apply Hnot. exists b.
      split; [now apply enumerate_lookup|assumption]. }
    destruct Hunits as [H|[H|H]]; eauto 6.
Qed.

End BothPasses.

(** The two passes translate the same units, with one exception: a unit
    is collected by the batched pass exactly when the sequential pass
    assigns it and it is not the name of a block whose source name
    consists of whitespace only (such a name is sent for translation by
    the sequential pass and skipped by the batched one). *)
Theorem passes_translate_same_units {U : UnicodeDB} (blocks : list Block)
  (t : Target) :
  In t (map target (collect_items blocks))
  <-> In t (flat_map sequential_units (enumerate blocks))
      /\ ~ blank_name blocks t.
Proof. apply collected_and_sequential. Qed.

(** ** How many requests a translation costs *)

Section RequestBounds.
Context {U : UnicodeDB}.
Variable remote : list Event -> Request -> Outcome.
Variable tc : TransConfig.
Variable dictionary : list (str * str).

Lemma call_llm_requests text context st :
  length (requests (trace (snd (call_llm remote tc text context 0 st))))
  <= length (requests (trace st))
     + S (Z.to_nat (default 0%Z (retry_attempts tc))).
Proof.
  unfold call_llm. rewrite Z.sub_0_r. apply call_llm_rec_requests.
Qed.

Lemma sleep_requests d st :
  requests (trace (snd (sleep d st))) = requests (trace st).
Proof.
  unfold sleep. destruct (Qle_bool 0 d); [|reflexivity].
  simpl. rewrite requests_app. simpl. now rewrite app_nil_r.
Qed.

Lemma translate_batch_rec_requests fuel texts uc : forall rc st,
  length (requests (trace (snd (translate_batch_rec remote tc dictionary fuel
                                  texts uc rc st))))
  <= length (requests (trace st))
     + S fuel * S (Z.to_nat (default 0%Z (retry_attempts tc))).
Proof.
  induction fuel as [|fuel IH]; intros rc st;
    (destruct texts as [|x texts]; [simpl; lia|]);
    cbn [translate_batch_rec]; rewrite bind_run; cbn [get_state];
    rewrite bind_run;
    match goal with
    | |- context [call_llm remote tc ?t ?c 0 st] =>
        pose proof (call_llm_requests t c st) as Hcall;
        destruct (call_llm remote tc t c 0 st) as [[[[|ch reply]|]|e] st1]
    end; cbn [snd ret] in *; try lia;
    (destruct (_ && _ && _); cbn [snd ret]; [|lia]);
    rewrite bind_run;
    pose proof (sleep_requests (validation_delay tc) st1) as Hsleep;
    destruct (sleep _ st1) as [[[]|e] st2]; cbn [snd] in *;
    rewrite <- ?Hsleep in Hcall; try lia.
  - cbn [raise snd]. lia.
  - specialize (IH (rc + 1)%Z st2). lia.
Qed.

Lemma translate_text_rec_requests fuel text is_name uc : forall rc st,
  length (requests (trace (snd (translate_text_rec remote tc dictionary fuel
                                  text is_name uc rc st))))
  <= length (requests (trace st))
     + S fuel * S (Z.to_nat (default 0%Z (retry_attempts tc))).
Proof.
  induction fuel as [|fuel IH]; intros rc st;
    cbn [translate_text_rec]; rewrite bind_run; cbn [get_state];
    (destruct (is_name && _); [cbn [ret snd]; lia|]);
    rewrite bind_run;
    match goal with
    | |- context [call_llm remote tc ?t ?c 0 st] =>
        pose proof (call_llm_requests t c st) as Hcall;
        destruct (call_llm remote tc t c 0 st) as [[[[|ch reply]|]|e] st1]
    end; cbn [snd ret] in *; try lia;
    (destruct (_ && _ && _); cbn [snd ret]; [|lia]);
    rewrite bind_run;
    pose proof (sleep_requests (validation_delay tc) st1) as Hsleep;
    destruct (sleep _ st1) as [[[]|e] st2]; cbn [snd] in *;
    rewrite <- ?Hsleep in Hcall; try lia.
  - cbn [raise snd]. lia.
  - specialize (IH (rc + 1)%Z st2). lia.
Qed.

End RequestBounds.

(** One call of [translate_text] or of [translate_batch] sends at most
    ([max_retries] + 1) * ([retry_attempts] + 1) requests: at most
    [max_retries] validation retries, each a call of the client with at
    most [retry_attempts] transport retries. *)
Theorem translation_request_bound {U : UnicodeDB}
  (remote : list Event -> Request -> Outcome) (tc : TransConfig)
  (dictionary : list (str * str)) (text : str) (texts : list str)
  (is_name use_context : bool) (st : State) :
  let bound :=
    S (Z.to_nat (max_retries tc))
    * S (Z.to_nat (default 0%Z (retry_attempts tc))) in
  length (requests
            (trace (snd (translate_text remote tc dictionary text is_name
                           use_context 0 st))))
  <= length (requests (trace st)) + bound
  /\ length (requests
               (trace (snd (translate_batch remote tc dictionary texts
                              use_context 0 st))))
     <= length (requests (trace st)) + bound.
Proof.
  intros bound. unfold bound, translate_text, translate_batch.
  rewrite Z.sub_0_r. split.
  - apply translate_text_rec_requests.
  - apply translate_batch_rec_requests.
Qed.
